(** * urlcodec: a shallow embedding of [urlencoder.go]

    The Go package flattens nested values into [url.Values] ([Encode]) and
    rebuilds nested maps from dotted/bracketed keys ([Decode]).  Every
    definition below is a transcription of the function of the same name
    in [urlencoder.go]; the comment in front of each one says how the Go
    constructs were rendered.

    Conventions.
    - Go [string]s are byte sequences: Rocq [string].
    - Go [int] is 64 bits wide: a [Z], with the wrap-around written out
      where an addition is performed ([int_incr]).
    - [map[K]V] is a [gmap K V].  A [for ... range] over a map visits the
      entries in an unspecified order; functions that range over a map
      take the entries as a list, in the order the loop yields them, and
      [range_order] says which lists are possible.
    - [(T, error)] results are [result T]; an [error] built by
      [fmt.Errorf] is a constructor of [error] carrying the arguments of
      the format string.
    - a run-time panic is the [Panicked] outcome of [run]. *)

From Stdlib Require Import ZArith Ascii String DecimalString DecimalPos Lia.
From stdpp Require Import gmap strings list fin_maps.

#[local] Set Warnings "-register-all".
#[local] Open Scope Z_scope.

(** ** Constants *)

Definition maxRecursionDepth : Z := 10.
Definition maxSliceSize : Z := 1000.

(** ** Results, errors and panics *)

(** [%T] of the dynamic values the decoder stores in a [map[string]any]. *)
Inductive gotype : Type :=
| TNil              (* <nil> *)
| TString           (* string *)
| TMap              (* map[string]interface {} *)
| TMinSlicePtr      (* *urlcodec.minSlice *)
| TSlice.           (* []interface {} *)

(** [reflect.Kind], as far as [encodeValue] distinguishes kinds; every kind
    its [switch] sends to [default] is [OtherKind] with its name. *)
Inductive kind : Type :=
| Ptr | Interface | String_ | Int | Int32 | Int64 | Float32 | Float64
| Bool | Slice | Map | Struct
| OtherKind (name : string).

(** One constructor per [fmt.Errorf] call of the source. *)
Inductive error : Type :=
| UnsupportedKind (k : kind)
    (* "value type not supported by URL encoding: %s" *)
| NonStringMapKey (k : kind)
    (* "map keys must be strings, got %s" *)
| MissingFieldTag (fieldName : string)
    (* "cannot encode field %q because it has no json tag" *)
| ConflictingEmptyKey
    (* "conflicting key: empty key already set" *)
| RecursionDepthExceeded (limit : Z)
    (* "exceeded maximum recursion depth of %d" *)
| InvalidSliceIndex (part : string)
    (* "invalid slice index: %q" *)
| ConflictingKey (part : string)
    (* "conflicting key: %q already set" *)
| TypeConflictMap (got : gotype)
    (* "expected map[string]any, got %T" *)
| InvalidSubmatch (sliceIndex : list string)
    (* "invalid slice index: %v" *)
| InvalidIndex (index : string)
    (* "invalid index: %s" *)
| NegativeIndex (idx : Z)
    (* "invalid negative index: %d" *)
| TypeConflictSlice (got : gotype)
    (* "expected *minSlice, got %T" *)
| SliceSizeExceeded (limit : Z).
    (* "exceeded maximum slice size of %d" *)

Inductive result (A : Type) : Type :=
| Ok (a : A)
| Err (e : error).
Arguments Ok {A} a.
Arguments Err {A} e.

Inductive panic : Type :=
| IndexOutOfRange (index len : Z).
    (* "index out of range [%d] with length %d" *)

Inductive run (A : Type) : Type :=
| Done (r : result A)
| Panicked (p : panic).
Arguments Done {A} r.
Arguments Panicked {A} p.

(** Sequencing of calls that may return an error: [x ← r; k] is
    [x, err := r; if err != nil { return err }; k]. *)
#[global] Instance result_ret : MRet result := fun _ a => Ok a.
#[global] Instance result_bind : MBind result := fun _ _ k r =>
  match r with
  | Ok a => k a
  | Err e => Err e
  end.

(** Go's [int]: [depth++] wraps at 64 bits. *)
Definition int_wrap (z : Z) : Z :=
  (z + 2 ^ 63) mod 2 ^ 64 - 2 ^ 63.
Definition int_incr (z : Z) : Z := int_wrap (z + 1).

(** [range_order m l]: [l] is an order in which [for k, v := range m]
    may yield the entries of [m]. *)
Definition range_order `{Countable K} {V} (m : gmap K V) (l : list (K * V)) : Prop :=
  l ≡ₚ map_to_list m.

(** ** Strings *)

Module strings.

(** [strings.Contains(s, c)] for a one-byte [c]. *)
Fixpoint Contains (s : string) (c : ascii) : bool :=
  match s with
  | EmptyString => false
  | String a s' => if Ascii.eqb a c then true else Contains s' c
  end.

(** [strings.Split(s, sep)] for a one-byte separator: all the pieces
    between separators, [[s]] when there is none, and [[""]] for [""].
    A byte that is not the separator extends the first piece of what
    follows. *)
Fixpoint Split (s : string) (sep : ascii) : list string :=
  match s with
  | EmptyString => [EmptyString]
  | String a s' =>
      if Ascii.eqb a sep then EmptyString :: Split s' sep
      else
        match Split s' sep with
        | piece :: pieces => String a piece :: pieces
        | [] => [String a EmptyString]
        end
  end.

End strings.

(** ** [strconv.Atoi] *)

Module strconv.

Definition isDigit (c : ascii) : bool :=
  let n := N_of_ascii c in ((48 <=? n) && (n <=? 57))%N.

Definition digitVal (c : ascii) : Z := Z.of_N (N_of_ascii c) - 48.

(** Base-10 digits only (no underscores in base 10), most significant
    first; [None] on any other byte. *)
Fixpoint parseDigits (s : string) (acc : Z) : option Z :=
  match s with
  | EmptyString => Some acc
  | String c s' =>
      if isDigit c then parseDigits s' (10 * acc + digitVal c) else None
  end.

(** [strconv.Atoi]: optional sign, at least one digit, and the value must
    fit a 64-bit [int]; [None] stands for the returned [*NumError]. *)
Definition Atoi (s : string) : option Z :=
  let '(neg, body) :=
    match s with
    | String c s' =>
        if Ascii.eqb c "-" then (true, s')
        else if Ascii.eqb c "+" then (false, s')
        else (false, s)
    | EmptyString => (false, s)
    end in
  match body with
  | EmptyString => None
  | String _ _ =>
      match parseDigits body 0 with
      | None => None
      | Some n =>
          if neg then (if n <=? 2 ^ 63 then Some (- n) else None)
          else (if n <=? 2 ^ 63 - 1 then Some n else None)
      end
  end.

(** [strconv.FormatBool]. *)
Definition FormatBool (b : bool) : string :=
  if b then "true" else "false".

End strconv.

(** [fmt.Sprintf("%d", z)]. *)
Definition Sprintf_d (z : Z) : string :=
  NilZero.string_of_int (Z.to_int z).

(** ** The regular expression [(\w+)\[(\d+)\]] *)

Module regexp.

(** [\w] is the ASCII class [[0-9A-Za-z_]] and [\d] is [[0-9]]; both are
    ASCII-only in Go, so matching byte by byte agrees with matching rune
    by rune. *)
Definition isWord (c : ascii) : bool :=
  let n := N_of_ascii c in
  (((48 <=? n) && (n <=? 57)) || ((65 <=? n) && (n <=? 90))
   || ((97 <=? n) && (n <=? 122)) || (n =? 95))%N.

(** Longest prefix of [s] whose bytes satisfy [p], and the rest. *)
Fixpoint span (p : ascii -> bool) (s : string) : string * string :=
  match s with
  | EmptyString => (EmptyString, EmptyString)
  | String c s' =>
      if p c then let '(a, b) := span p s' in (String c a, b)
      else (EmptyString, s)
  end.

(** A match of [sliceRegexp] anchored at the start of [s].  [\w+] is
    greedy and the byte that has to follow it, '[', is not a word byte,
    so the only run that can be followed by '[' is the longest one; the
    same holds for [\d+] and ']'.  The result is the submatch slice:
    whole match, group 1, group 2. *)
Definition matchHere (s : string) : option (list string) :=
  let '(name, r1) := span isWord s in
  match name, r1 with
  | String _ _, String b r2 =>
      if Ascii.eqb b "[" then
        let '(digits, r3) := span strconv.isDigit r2 in
        match digits, r3 with
        | String _ _, String e _ =>
            if Ascii.eqb e "]"
            then Some [name +:+ "[" +:+ digits +:+ "]"; name; digits]
            else None
        | _, _ => None
        end
      else None
  | _, _ => None
  end.

(** [regexp.MustCompile(sliceRegexp).FindStringSubmatch(s)]: the leftmost
    match anywhere in [s] (the expression is not anchored), [None] for the
    [nil] slice returned when there is none. *)
Fixpoint FindStringSubmatch (s : string) : option (list string) :=
  match matchHere s with
  | Some groups => Some groups
  | None =>
      match s with
      | EmptyString => None
      | String _ s' => FindStringSubmatch s'
      end
  end.

End regexp.

(** ** The decoded tree *)

(** The dynamic values held in the decoder's [map[string]any]: the string
    of a leaf, a nested [map[string]any], a [*minSlice] (given by the
    [elements map[int]any] of the struct it points to) and, after
    [convertMinSlicesToRegularSlices], a [[]any].

    Maps and [*minSlice] are references in Go.  The decoder allocates each
    of them with [make] / [newMinSlice] and binds it at exactly one key or
    index, so the heap it builds is a tree: the value is kept inside its
    parent, and an in-place update of a child is the update of the child
    followed by storing it back where it lives ([store]). *)
Inductive value : Type :=
| VString (s : string)
| VMap (m : gmap string value)
| VMinSlice (elements : gmap Z value)
| VSlice (l : list value).

Definition typeOf (o : option value) : gotype :=
  match o with
  | None => TNil
  | Some (VString _) => TString
  | Some (VMap _) => TMap
  | Some (VMinSlice _) => TMinSlicePtr
  | Some (VSlice _) => TSlice
  end.

(** ** [minSlice] *)

Module minSlice.

(** [newMinSlice()]. *)
Definition new : gmap Z value := ∅.

(** [s.set(index, value)]. *)
Definition set (elements : gmap Z value) (index : Z) (v : value) : gmap Z value :=
  <[index := v]> elements.

(** [s.get(index)]: the comma-ok pair as an [option]. *)
Definition get (elements : gmap Z value) (index : Z) : option value :=
  elements !! index.

(** [s.toSlice()]: the stored values in the order of one [range] over
    [elements].  Go leaves that order unspecified; the model uses the
    order of [map_to_list], and statements about the result are made up
    to permutation. *)
Definition toSlice (elements : gmap Z value) : list value :=
  (map_to_list elements).*2.

End minSlice.

(** ** Decode *)

(** [parseSliceIndex]. *)
Definition parseSliceIndex (sliceIndex : list string) : result (string * Z) :=
  match sliceIndex with
  | [_; sliceName; index] =>
      match strconv.Atoi index with
      | None => Err (InvalidIndex index)
      | Some idx =>
          if idx <? 0 then Err (NegativeIndex idx)
          else Ok (sliceName, idx)
      end
  | _ => Err (InvalidSubmatch sliceIndex)
  end.

(** [getOrCreateSlice].  Returns the map after the possible creation of
    the slice together with the elements of the slice bound to
    [sliceName]. *)
Definition getOrCreateSlice (current : gmap string value) (sliceName : string)
  : result (gmap string value * gmap Z value) :=
  let current :=
    match current !! sliceName with
    | None => <[sliceName := VMinSlice minSlice.new]> current
    | Some _ => current
    end in
  match current !! sliceName with
  | Some (VMinSlice elements) =>
      if Z.of_nat (size elements) >=? maxSliceSize
      then Err (SliceSizeExceeded maxSliceSize)
      else Ok (current, elements)
  | other => Err (TypeConflictSlice (typeOf other))
  end.

(** [setSliceValue]. *)
Definition setSliceValue (current : gmap string value)
    (sliceIndex : list string) (v : value) : result (gmap string value) :=
  '(sliceName, idx) ← parseSliceIndex sliceIndex;
  '(current, slice) ← getOrCreateSlice current sliceName;
  let slice := minSlice.set slice idx v in
  Ok (<[sliceName := VMinSlice slice]> current).

(** [setFinalValue]. *)
Definition setFinalValue (current : gmap string value) (part : string)
    (v : value) : result (gmap string value) :=
  if strings.Contains part "[" && strings.Contains part "]"
     && negb (bool_decide (is_Some (regexp.FindStringSubmatch part)))
  then Err (InvalidSliceIndex part)
  else
    match regexp.FindStringSubmatch part with
    | Some sliceIndex => setSliceValue current sliceIndex v
    | None =>
        match current !! part with
        | Some _ => Err (ConflictingKey part)
        | None => Ok (<[part := v]> current)
        end
    end.

(** Where the map returned by [getIntermediateValue] lives in [current]:
    under a key, or at an index of the slice bound to a name. *)
Inductive place : Type :=
| AtKey (part : string)
| AtIndex (sliceName : string) (idx : Z).

(** The effect on [current] of the updates made through the reference to
    the child that lives at [p]. *)
Definition store (current : gmap string value) (p : place)
    (child : gmap string value) : gmap string value :=
  match p with
  | AtKey part => <[part := VMap child]> current
  | AtIndex sliceName idx =>
      match current !! sliceName with
      | Some (VMinSlice elements) =>
          <[sliceName := VMinSlice (minSlice.set elements idx (VMap child))]> current
      | _ => current
      end
  end.

(** [getMap]. *)
Definition getMap (current : gmap string value) (part : string)
  : result (gmap string value) :=
  match current !! part with
  | None => Err (TypeConflictMap TNil)
  | Some (VMap m) => Ok m
  | Some other => Err (TypeConflictMap (typeOf (Some other)))
  end.

(** [createMapIntoSlice].  Returns [current] after its updates, the place
    of the element and the element. *)
Definition createMapIntoSlice (sliceIndex : list string)
    (current : gmap string value)
  : result (gmap string value * place * gmap string value) :=
  '(sliceName, idx) ← parseSliceIndex sliceIndex;
  '(current, slice) ← getOrCreateSlice current sliceName;
  let '(elem, slice) :=
    match minSlice.get slice idx with
    | Some elem => (elem, slice)
    | None => (VMap ∅, minSlice.set slice idx (VMap ∅))
    end in
  match elem with
  | VMap castedElem =>
      Ok (<[sliceName := VMinSlice slice]> current,
          AtIndex sliceName idx, castedElem)
  | other => Err (TypeConflictMap (typeOf (Some other)))
  end.

(** [getIntermediateValue]. *)
Definition getIntermediateValue (current : gmap string value) (part : string)
  : result (gmap string value * place * gmap string value) :=
  match regexp.FindStringSubmatch part with
  | Some sliceIndex => createMapIntoSlice sliceIndex current
  | None =>
      let current :=
        match current !! part with
        | None => <[part := VMap ∅]> current
        | Some _ => current
        end in
      m ← getMap current part;
      Ok (current, AtKey part, m)
  end.

(** The [for i, part := range parts] loop of [setNestedMapValue]: the
    remaining parts, the map [current] refers to, and the depth so far.
    [i == len(parts)-1] is "no part follows".  The result for the caller's
    map is obtained by storing the updated child back at each level. *)
Fixpoint setNestedMapValue_loop (current : gmap string value)
    (parts : list string) (v : value) (depth : Z)
  : Z * result (gmap string value) :=
  match parts with
  | [] => (depth, Ok current)
  | part :: rest =>
      let depth := int_incr depth in
      match rest with
      | [] => (depth, setFinalValue current part v)
      | _ :: _ =>
          match getIntermediateValue current part with
          | Err e => (depth, Err e)
          | Ok (current, p, child) =>
              let '(depth, r) := setNestedMapValue_loop child rest v depth in
              (depth, child ← r; Ok (store current p child))
          end
      end
  end.

(** [setNestedMapValue]: the new depth, and the error or the map after
    the update. *)
Definition setNestedMapValue (current : gmap string value) (key : string)
    (v : value) (depth : Z) : Z * result (gmap string value) :=
  if decide (key = "") then
    match current !! "" with
    | Some _ => (depth, Err ConflictingEmptyKey)
    | None => (depth, Ok (<["" := v]> current))
    end
  else
    let parts := strings.Split key "." in
    if Z.of_nat (List.length parts) >? maxRecursionDepth
    then (depth, Err (RecursionDepthExceeded maxRecursionDepth))
    else setNestedMapValue_loop current parts v depth.

(** [convertMinSlicesToRegularSlices].  The loop rebinds each key to a
    value computed from its own entry only, so the order of the [range]
    does not matter; nested maps are converted in place, the elements of a
    converted slice are left as they are. *)
Fixpoint convertMinSlicesToRegularSlices_value (v : value) : value :=
  match v with
  | VMinSlice elements => VSlice (minSlice.toSlice elements)
  | VMap m => VMap (convertMinSlicesToRegularSlices_value <$> m)
  | _ => v
  end.

Definition convertMinSlicesToRegularSlices (data : gmap string value)
  : gmap string value :=
  convertMinSlicesToRegularSlices_value <$> data.

(** The [for key, value := range values] loop of [decodeURL] over the
    entries in the order the loop yields them.  [value[0]] panics on an
    empty list. *)
Fixpoint decodeURL_loop (entries : list (string * list string))
    (urlData : gmap string value) (depth : Z)
  : run (Z * gmap string value) :=
  match entries with
  | [] => Done (Ok (depth, urlData))
  | (key, vals) :: rest =>
      match vals with
      | [] => Panicked (IndexOutOfRange 0 0)
      | v0 :: _ =>
          match setNestedMapValue urlData key (VString v0) depth with
          | (_, Err e) => Done (Err e)
          | (depth, Ok urlData) => decodeURL_loop rest urlData depth
          end
      end
  end.

(** [decodeURL], for one order of the [range] over [values]. *)
Definition decodeURL (entries : list (string * list string))
  : run (gmap string value) :=
  match decodeURL_loop entries ∅ 0 with
  | Done (Ok (_, urlData)) => Done (Ok (convertMinSlicesToRegularSlices urlData))
  | Done (Err e) => Done (Err e)
  | Panicked p => Panicked p
  end.

(** [URLEncoder.Decode]: [r] is a possible outcome of decoding [values]. *)
Definition Decode (values : gmap string (list string))
    (r : run (gmap string value)) : Prop :=
  ∃ entries, range_order values entries ∧ decodeURL entries = r.

(** ** Encode *)

(** [reflect.StructField], as far as [encodeStructField] reads it:
    [Name], [Anonymous] and [Tag.Get("json")]. *)
Record structField : Type := StructField {
  Name : string;
  Anonymous : bool;
  jsonTag : string;
}.

Section Encoder.

(** Go's [float64] and the text [fmt.Sprintf("%f", x)] produces for it are
    outside the repository; the encoder is parametric in both. *)
Context {float64 : Type}.
Variable Sprintf_f : float64 -> string.

(** A [reflect.Value], one constructor per case of the [switch v.Kind()]
    of [encodeValue].  [RPtr] and [RInterface] carry [None] when
    [v.IsNil()] and [v.Elem()] otherwise; [RInt] is a value of kind [Int],
    [Int32] or [Int64] with its [v.Int()]; [RFloat] one of kind [Float32]
    or [Float64] with its [v.Float()]; [RMap] carries the kind of the key
    type and the entries in the order of [v.MapKeys()], the keys given by
    their [key.String()]; [RStruct] the fields in declaration order;
    [ROther] is a value of any other kind. *)
Inductive rvalue : Type :=
| RPtr (elem : option rvalue)
| RInterface (elem : option rvalue)
| RString (s : string)
| RInt (i : Z)
| RFloat (f : float64)
| RBool (b : bool)
| RSlice (elems : list rvalue)
| RMap (keyKind : kind) (entries : list (string * rvalue))
| RStruct (fields : list (structField * rvalue))
| ROther (k : kind).

(** [url.Values] and [values.Set(key, value)]. *)
Definition Values_Set (values : gmap string (list string)) (key val : string)
  : gmap string (list string) :=
  <[key := [val]]> values.

(** [encodeString], [encodeInt], [encodeFloat], [encodeBool]. *)
Definition encodeString (values : gmap string (list string)) (fieldTag s : string)
  : result (gmap string (list string)) :=
  Ok (Values_Set values fieldTag s).

Definition encodeInt (values : gmap string (list string)) (fieldTag : string) (i : Z)
  : result (gmap string (list string)) :=
  Ok (Values_Set values fieldTag (Sprintf_d i)).

Definition encodeFloat (values : gmap string (list string)) (fieldTag : string)
    (f : float64) : result (gmap string (list string)) :=
  Ok (Values_Set values fieldTag (Sprintf_f f)).

Definition encodeBool (values : gmap string (list string)) (fieldTag : string)
    (b : bool) : result (gmap string (list string)) :=
  Ok (Values_Set values fieldTag (strconv.FormatBool b)).

(** The functions below call [encodeValue] back; they take it as their
    first argument and [encodeValue] passes itself. *)
Section Visit.

Variable encodeValue :
  gmap string (list string) -> string -> rvalue -> result (gmap string (list string)).

(** [encodePointer]. *)
Definition encodePointer (values : gmap string (list string)) (fieldTag : string)
    (elem : option rvalue) : result (gmap string (list string)) :=
  match elem with
  | Some e => encodeValue values fieldTag e
  | None => Ok values
  end.

(** [encodeSlice]: the loop [for j := 0; j < v.Len(); j++], started at
    [j].  [j] stays below [v.Len()], so [j++] does not wrap. *)
Fixpoint encodeSlice_from (j : Z) (values : gmap string (list string))
    (fieldTag : string) (elems : list rvalue)
  : result (gmap string (list string)) :=
  match elems with
  | [] => Ok values
  | sliceElem :: elems =>
      let newFieldTag := fieldTag +:+ "[" +:+ Sprintf_d j +:+ "]" in
      values ← encodeValue values newFieldTag sliceElem;
      encodeSlice_from (j + 1) values fieldTag elems
  end.

Definition encodeSlice := encodeSlice_from 0.

(** The loop of [encodeMap] over [v.MapKeys()]. *)
Fixpoint encodeMap_keys (values : gmap string (list string)) (fieldTag : string)
    (entries : list (string * rvalue)) : result (gmap string (list string)) :=
  match entries with
  | [] => Ok values
  | (keyStr, elem) :: entries =>
      let newFieldTag :=
        if decide (fieldTag = "") then keyStr
        else fieldTag +:+ "." +:+ keyStr in
      values ← encodeValue values newFieldTag elem;
      encodeMap_keys values fieldTag entries
  end.

(** [encodeMap]. *)
Definition encodeMap (values : gmap string (list string)) (fieldTag : string)
    (keyKind : kind) (entries : list (string * rvalue))
  : result (gmap string (list string)) :=
  match keyKind with
  | String_ => encodeMap_keys values fieldTag entries
  | _ => Err (NonStringMapKey keyKind)
  end.

(** [encodeStructField], given [v.Type().Field(i)] and [v.Field(i)]. *)
Definition encodeStructField (values : gmap string (list string))
    (fieldTag : string) (fieldType : structField) (field : rvalue)
  : result (gmap string (list string)) :=
  if Anonymous fieldType then encodeValue values fieldTag field
  else
    let newFieldTag := jsonTag fieldType in
    if decide (newFieldTag = "-" ∨ newFieldTag = "")
    then Err (MissingFieldTag (Name fieldType))
    else
      let newFieldTag :=
        if decide (fieldTag = "") then newFieldTag
        else fieldTag +:+ "." +:+ newFieldTag in
      encodeValue values newFieldTag field.

End Visit.

(** [encodeValue], with [encodeStruct]'s loop over the fields inlined so
    that the recursion goes through the list of fields. *)
Fixpoint encodeValue (values : gmap string (list string)) (fieldTag : string)
    (v : rvalue) {struct v} : result (gmap string (list string)) :=
  match v with
  | RPtr elem | RInterface elem => encodePointer encodeValue values fieldTag elem
  | RString s => encodeString values fieldTag s
  | RInt i => encodeInt values fieldTag i
  | RFloat f => encodeFloat values fieldTag f
  | RBool b => encodeBool values fieldTag b
  | RSlice elems => encodeSlice encodeValue values fieldTag elems
  | RMap keyKind entries => encodeMap encodeValue values fieldTag keyKind entries
  | RStruct fields =>
      (fix encodeStruct (values : gmap string (list string))
           (fields : list (structField * rvalue)) :=
         match fields with
         | [] => Ok values
         | (fieldType, field) :: fields =>
             values ← encodeStructField encodeValue values fieldTag fieldType field;
             encodeStruct values fields
         end) values fields
  | ROther k => Err (UnsupportedKind k)
  end.

(** [encodeURL]. *)
Definition encodeURL := encodeValue.

(** The loop of [Encode] over the entries of [data] in the order the
    [range] yields them; each value is given by its [reflect.ValueOf]. *)
Fixpoint Encode_loop (values : gmap string (list string))
    (entries : list (string * rvalue)) : result (gmap string (list string)) :=
  match entries with
  | [] => Ok values
  | (key, v) :: entries =>
      values ← encodeURL values key v;
      Encode_loop values entries
  end.

(** [reflect.ValueOf(value)] for a [value] of type [any], as [Encode]
    calls it on the values of [data].  [None] is the nil interface:
    [ValueOf] returns the zero [reflect.Value], whose kind is [Invalid]
    and prints as [invalid].  [Some v] is an interface that holds a
    value: [ValueOf] returns the [reflect.Value] [v] of that value, which
    is never of kind [Interface]. *)
Definition ValueOf (value : option rvalue) : rvalue :=
  match value with
  | Some v => v
  | None => ROther (OtherKind "invalid")
  end.

(** [URLEncoder.Encode], for one order of the [range] over [data]. *)
Definition Encode_entries (entries : list (string * rvalue))
  : result (gmap string (list string)) :=
  Encode_loop ∅ entries.

(** [URLEncoder.Encode]: [r] is a possible outcome of encoding [data]. *)
Definition Encode (data : gmap string rvalue)
    (r : result (gmap string (list string))) : Prop :=
  ∃ entries, range_order data entries ∧ Encode_entries entries = r.

End Encoder.

(** * Definitions for the statements *)

(** Every byte of [s] satisfies [p]. *)
Fixpoint allBytes (p : ascii -> bool) (s : string) : bool :=
  match s with
  | EmptyString => true
  | String c s' => p c && allBytes p s'
  end.

(** The errors that can come out of the walk along the parts of a key. *)
Definition walkError (e : error) : bool :=
  match e with
  | InvalidSliceIndex _ | ConflictingKey _ | TypeConflictMap _
  | InvalidIndex _ | TypeConflictSlice _ | SliceSizeExceeded _ => true
  | _ => false
  end.

(** The number of parts the walk processes for a key: none for the empty
    key, which is stored before the key is split. *)
Definition segmentCount (key : string) : Z :=
  if decide (key = "") then 0
  else Z.of_nat (List.length (strings.Split key ".")).

Definition aggregateSegments (entries : list (string * list string)) : Z :=
  foldr (λ kv acc, segmentCount kv.1 + acc) 0 entries.

(** Eleven keys of one part each. *)
Definition elevenKeys : list (string * list string) :=
  (λ k, (k, ["v"])) <$> ["a"; "b"; "c"; "d"; "e"; "f"; "g"; "h"; "i"; "j"; "k"].

(** Does a [*minSlice] occur anywhere in [v]? *)
Fixpoint containsMinSlice (v : value) : bool :=
  match v with
  | VString _ => false
  | VMap m => map_fold (λ _ x acc, containsMinSlice x || acc) false m
  | VMinSlice _ => true
  | VSlice l => existsb containsMinSlice l
  end.

(** The tree [Decode] returns for the single pair [a[0].b[0]=x]. *)
Definition nestedSliceTree : gmap string value :=
  {[ "a" := VSlice [VMap {[ "b" := VMinSlice {[ 0 := VString "x" ]} ]}] ]}.

(** Values without floating-point numbers need no formatter for them. *)
Definition noFloat (x : Empty_set) : string := match x with end.

(** The key [name[i]] that [encodeSlice] builds for element [i]. *)
Definition indexKey (name digits : string) : string :=
  name +:+ "[" +:+ digits +:+ "]".

(** The pairs [name[0]=val], ..., [name[n-1]=val]. *)
Definition indexEntries (name : string) (n : nat) : list (string * list string) :=
  (λ i, (indexKey name (Sprintf_d i), ["val"])) <$> seqZ 0 (Z.of_nat n).

(** Every [*minSlice] in the value holds at most [maxSliceSize]
    entries. *)
Inductive sliceBounded : value → Prop :=
| sliceBounded_string s : sliceBounded (VString s)
| sliceBounded_map m :
    (∀ k v, m !! k = Some v → sliceBounded v) → sliceBounded (VMap m)
| sliceBounded_minSlice elements :
    Z.of_nat (size elements) ≤ maxSliceSize →
    (∀ i v, elements !! i = Some v → sliceBounded v) →
    sliceBounded (VMinSlice elements)
| sliceBounded_slice l :
    Forall sliceBounded l → sliceBounded (VSlice l).

(** A run of digits that [Atoi] accepts. *)
Definition validIndex (digits : string) : Prop :=
  digits ≠ "" ∧ allBytes strconv.isDigit digits = true
  ∧ is_Some (strconv.Atoi digits).

(** A non-empty run of word bytes. *)
Definition wordName (name : string) : Prop :=
  name ≠ "" ∧ allBytes regexp.isWord name = true.

(** The pairs [name[d]=v] for the given digits [d] and values [v]. *)
Definition indexPairs (name : string) (items : list (string * string))
  : list (string * list string) :=
  (λ it, (indexKey name it.1, [it.2])) <$> items.

(** The elements of the slice bound to [name], none being bound counting
    as the empty slice that [getOrCreateSlice] would create. *)
Definition sliceView (current : gmap string value) (name : string)
    (elements : gmap Z value) : Prop :=
  current !! name = Some (VMinSlice elements)
  ∨ current !! name = None ∧ elements = ∅.

(** [TestDecode_ExceedMaxSliceSize]: the keys [bigSlice[0]], ...,
    [bigSlice[1000]]. *)
Definition bigSliceItems : list (string * string) :=
  (λ i, (Sprintf_d i, "val")) <$> seqZ 0 (maxSliceSize + 1).

#[global] Instance validIndex_dec digits : Decision (validIndex digits).
Proof. unfold validIndex. apply _. Defined.

#[global] Instance wordName_dec name : Decision (wordName name).
Proof. unfold wordName. apply _. Defined.

(** The value of the decimal digits [d] appended to a number [acc]. *)
Fixpoint uintVal (d : Decimal.uint) (acc : Z) : Z :=
  match d with
  | Decimal.Nil => acc
  | Decimal.D0 l => uintVal l (10 * acc + 0)
  | Decimal.D1 l => uintVal l (10 * acc + 1)
  | Decimal.D2 l => uintVal l (10 * acc + 2)
  | Decimal.D3 l => uintVal l (10 * acc + 3)
  | Decimal.D4 l => uintVal l (10 * acc + 4)
  | Decimal.D5 l => uintVal l (10 * acc + 5)
  | Decimal.D6 l => uintVal l (10 * acc + 6)
  | Decimal.D7 l => uintVal l (10 * acc + 7)
  | Decimal.D8 l => uintVal l (10 * acc + 8)
  | Decimal.D9 l => uintVal l (10 * acc + 9)
  end.

(** A step down the decoded tree: into the value bound to a key of a map,
    or into the element at an index of a sparse slice. *)
Inductive step : Type :=
| Key (k : string)
| Idx (i : Z).

#[global] Instance step_eq_dec : EqDecision step.
Proof. solve_decision. Defined.

(** The string found by following the steps [q] from [u]. *)
Fixpoint getLeaf (q : list step) (u : value) : option string :=
  match q with
  | [] => match u with VString s => Some s | _ => None end
  | Key k :: q =>
      match u with
      | VMap m => match m !! k with Some x => getLeaf q x | None => None end
      | _ => None
      end
  | Idx i :: q =>
      match u with
      | VMinSlice elements =>
          match elements !! i with Some x => getLeaf q x | None => None end
      | _ => None
      end
  end.

(** The map bound to [k], none being bound counting as the empty map that
    [getIntermediateValue] would create; the same for the element at an
    index of a slice. *)
Definition mapView (current : gmap string value) (k : string)
    (child : gmap string value) : Prop :=
  current !! k = Some (VMap child) ∨ current !! k = None ∧ child = ∅.

Definition elemView (elements : gmap Z value) (i : Z)
    (child : gmap string value) : Prop :=
  elements !! i = Some (VMap child) ∨ elements !! i = None ∧ child = ∅.

(** [new] has the leaves of [old] and the leaf [s] at [path]. *)
Definition Extends (path : list step) (s : string) (old new : value) : Prop :=
  ∀ q, getLeaf q new = if decide (q = path) then Some s else getLeaf q old.

(** ** Keys *)

(** A key that is stored as it is: it has no '.', and not both a '['
    and a ']'. *)
Definition plainKey (key : string) : bool :=
  negb (strings.Contains key ".")
  && negb (strings.Contains key "[" && strings.Contains key "]").

(** A key that can stand before the keys of a nested map: it has no
    '.', and the expression finds no match in it. *)
Definition parentKey (key : string) : bool :=
  negb (strings.Contains key ".")
  && negb (bool_decide (is_Some (regexp.FindStringSubmatch key))).

(** ** Values of the round-trip property *)

Section RoundTripModel.

Context {float64 : Type} (Sprintf_f : float64 → string).

(** The values of the round-trip property: scalars, sequences and
    mappings.  A mapping is given by its entries, in the order
    [v.MapKeys()] returns them; the keys of a Go map are distinct. *)
Inductive scalar : Type :=
| SString (s : string)
| SInt (i : Z)
| SFloat (f : float64)
| SBool (b : bool).

Inductive svalue : Type :=
| SScalar (s : scalar)
| SSequence (l : list svalue)
| SMapping (m : list (string * svalue)).

(** The text [Encode] emits for a scalar. *)
Definition formatScalar (s : scalar) : string :=
  match s with
  | SString s => s
  | SInt i => Sprintf_d i
  | SFloat f => Sprintf_f f
  | SBool b => strconv.FormatBool b
  end.

(** The [reflect.Value] of a value held in a [map[string]any] or a
    [[]any]: the elements of the containers are interfaces. *)
Fixpoint reflectValue (v : svalue) : @rvalue float64 :=
  match v with
  | SScalar (SString s) => RString s
  | SScalar (SInt i) => RInt i
  | SScalar (SFloat f) => RFloat f
  | SScalar (SBool b) => RBool b
  | SSequence l => RSlice ((λ e, RInterface (Some (reflectValue e))) <$> l)
  | SMapping m =>
      RMap String_ ((λ '(k, e), (k, RInterface (Some (reflectValue e)))) <$> m)
  end.

(** The entries of the [data] argument of [Encode]. *)
Definition reflectData (data : list (string * svalue))
  : list (string * @rvalue float64) :=
  (λ '(k, e), (k, reflectValue e)) <$> data.

(** [f i x] for the elements [x] of a list and their positions [i],
    counted from [i0]. *)
Fixpoint mapi {A B} (f : Z → A → B) (i0 : Z) (l : list A) : list B :=
  match l with
  | [] => []
  | x :: l => f i0 x :: mapi f (i0 + 1) l
  end.

(** The path of an entry [key] of a mapping reached under [fieldTag]. *)
Definition fieldPath (fieldTag key : string) : string :=
  if decide (fieldTag = "") then key else fieldTag +:+ "." +:+ key.

(** The pairs [Encode] emits for [v] under the path [fieldTag], in the
    order it emits them. *)
Fixpoint flatten (fieldTag : string) (v : svalue) : list (string * string) :=
  match v with
  | SScalar s => [(fieldTag, formatScalar s)]
  | SSequence l =>
      concat (mapi (λ i e, flatten (indexKey fieldTag (Sprintf_d i)) e) 0 l)
  | SMapping m =>
      concat ((λ '(k, e), flatten (fieldPath fieldTag k) e) <$> m)
  end.

Definition flattenData (data : list (string * svalue)) : list (string * string) :=
  concat ((λ '(k, e), flatten k e) <$> data).

(** [values.Set] for each pair, in order. *)
Definition setAll (values : gmap string (list string))
    (pairs : list (string * string)) : gmap string (list string) :=
  foldl (λ acc kv, Values_Set acc kv.1 kv.2) values pairs.

(** A segment of a key: a map key, or a slice name with an index. *)
Inductive segment : Type :=
| SegName (key : string)
| SegIndex (name : string) (idx : Z).

Definition renderSegment (seg : segment) : string :=
  match seg with
  | SegName key => key
  | SegIndex name idx => indexKey name (Sprintf_d idx)
  end.

(** The parts joined by dots. *)
Fixpoint joinDot (parts : list string) : string :=
  match parts with
  | [] => ""
  | [part] => part
  | part :: parts => part +:+ "." +:+ joinDot parts
  end.

Definition renderPath (p : list segment) : string :=
  joinDot (renderSegment <$> p).

Definition consPath (seg : segment) (ps : list segment * string)
  : list segment * string :=
  (seg :: ps.1, ps.2).

(** The leaves of the value [e] bound to the key [k] of a mapping, each
    with its path from that mapping.  An element of a sequence is a
    scalar or a mapping; a sequence directly inside a sequence has no
    path of segments and contributes nothing. *)
Fixpoint leavesAt (k : string) (e : svalue) : list (list segment * string) :=
  match e with
  | SScalar s => [([SegName k], formatScalar s)]
  | SSequence l =>
      concat (mapi (λ i x,
        match x with
        | SScalar s => [([SegIndex k i], formatScalar s)]
        | SSequence _ => []
        | SMapping m =>
            consPath (SegIndex k i)
              <$> concat ((λ '(k', e'), leavesAt k' e') <$> m)
        end) 0 l)
  | SMapping m =>
      consPath (SegName k) <$> concat ((λ '(k', e'), leavesAt k' e') <$> m)
  end.

Definition leavesIn (m : list (string * svalue)) : list (list segment * string) :=
  concat ((λ '(k, e), leavesAt k e) <$> m).

(** No sequence occurs in [v]. *)
Fixpoint seqFree (v : svalue) : bool :=
  match v with
  | SScalar _ => true
  | SSequence _ => false
  | SMapping m => forallb (λ '(_, e), seqFree e) m
  end.

(** Exactly one scalar is reached in [v], through maps alone. *)
Fixpoint singleLeaf (v : svalue) : bool :=
  match v with
  | SScalar _ => true
  | SSequence _ => false
  | SMapping m =>
      match m with
      | [(_, e)] => singleLeaf e
      | _ => false
      end
  end.

(** [keyFits root k e]: the key [k] can be bound to [e].  Before a
    scalar the key is stored as it is; before a sequence it is the name
    in [name[j]], a non-empty word; before a mapping it has no '.' and no
    match of the expression, and it is not empty in [data] itself
    ([root]), where [encodeMap] leaves an empty path out. *)
Definition keyFits (root : bool) (k : string) (e : svalue) : bool :=
  match e with
  | SScalar _ => plainKey k
  | SSequence _ => bool_decide (wordName k)
  | SMapping _ => parentKey k && (negb root || negb (bool_decide (k = "")))
  end.

(** [wellFormed n v]: [v] can be stored where [n] more segments fit
    under the path.  Mappings and sequences are not empty; the keys of a
    mapping are distinct and fit what they are bound to; a sequence
    holds at most [maxSliceSize] elements, and when it holds that many
    each of them is reached once, holding one scalar; its elements are
    scalars or mappings without sequences. *)
Fixpoint wellFormed (n : nat) (v : svalue) : bool :=
  match v with
  | SScalar _ => true
  | SSequence l =>
      bool_decide (l ≠ [])
      && bool_decide (Z.of_nat (length l) ≤ maxSliceSize)
      && (bool_decide (Z.of_nat (length l) < maxSliceSize)
          || forallb singleLeaf l)
      && forallb (λ e,
           match e with
           | SScalar _ => true
           | SSequence _ => false
           | SMapping _ => seqFree e && wellFormed n e
           end) l
  | SMapping m =>
      match n with
      | O => false
      | S n' =>
          bool_decide (m ≠ [])
          && bool_decide (NoDup m.*1)
          && forallb (λ '(k, e), keyFits false k e && wellFormed n' e) m
      end
  end.

(** The entries of a mapping under whose keys [n] more segments fit;
    [root] says that the mapping is [data] itself. *)
Definition wellFormedEntries (root : bool) (n : nat)
    (m : list (string * svalue)) : bool :=
  bool_decide (NoDup m.*1)
  && forallb (λ '(k, e), keyFits root k e && wellFormed n e) m.

(** The [data] argument of [Encode] is a mapping at the root: a key is
    the first of at most [maxRecursionDepth] segments.  It may be
    empty. *)
Definition wellFormedData (data : list (string * svalue)) : bool :=
  wellFormedEntries true (Z.to_nat (maxRecursionDepth - 1)) data.

Definition validSegment (seg : segment) : Prop :=
  match seg with
  | SegName key => parentKey key = true
  | SegIndex name idx => wordName name ∧ 0 ≤ idx < maxSliceSize
  end.


(** The pairs for the leaves [L] of a mapping reached under [fieldTag]. *)
Definition keyed (fieldTag : string) (L : list (list segment * string))
  : list (string * string) :=
  (λ ps, (fieldPath fieldTag (renderPath ps.1), ps.2)) <$> L.

Definition stepsOfSegment (seg : segment) : list step :=
  match seg with
  | SegName key => [Key key]
  | SegIndex name idx => [Key name; Idx idx]
  end.

Definition stepsOf (p : list segment) : list step :=
  concat (stepsOfSegment <$> p).

(** [Partial u v]: the tree [u] holds nothing that is not in [v], and
    every element its sparse slices hold has a leaf. *)
Inductive Partial : value → svalue → Prop :=
| Partial_scalar sc : Partial (VString (formatScalar sc)) (SScalar sc)
| Partial_mapping u m :
    (∀ k x, u !! k = Some x → ∃ e, (k, e) ∈ m ∧ Partial x e) →
    Partial (VMap u) (SMapping m)
| Partial_sequence elements l :
    (∀ i x, elements !! i = Some x →
            0 ≤ i ∧ ∃ e, l !! Z.to_nat i = Some e ∧ Partial x e
                         ∧ ∃ q s, getLeaf q x = Some s) →
    Partial (VMinSlice elements) (SSequence l).

Definition segmentName (seg : segment) : string :=
  match seg with SegName key => key | SegIndex name _ => name end.

(** The pair of [url.Values] for a leaf. *)
Definition pairOf (ps : list segment * string) : string * list string :=
  (renderPath ps.1, [ps.2]).

(** [matches x v]: the decoded value [x] is [v] with the scalars as text
    and each sequence in some order. *)
Inductive matches : value → svalue → Prop :=
| matches_scalar sc : matches (VString (formatScalar sc)) (SScalar sc)
| matches_sequence xs l l' :
    l' ≡ₚ l → Forall2 matches xs l' → matches (VSlice xs) (SSequence l)
| matches_mapping u m :
    (∀ k, u !! k = None ↔ k ∉ m.*1) →
    (∀ k x e, u !! k = Some x → (k, e) ∈ m → matches x e) →
    matches (VMap u) (SMapping m).

#[global] Instance svalue_inhabited : Inhabited svalue :=
  populate (SScalar (SString "")).

End RoundTripModel.

(** [TestEncodeDecode_Cycle], with the struct as a mapping. *)
Definition cycleData : list (string * @svalue Empty_set) :=
  [("outer",
    SMapping
      [("inner", SMapping [("field", SScalar (SString "value"))]);
       ("values",
        SSequence [SScalar (SString "a"); SScalar (SString "b");
                   SScalar (SString "c")])])].

(** A sequence directly inside a sequence: [{"a": [["x", "y"]]}]. *)
Definition nestedSequenceData : list (string * @svalue Empty_set) :=
  [("a", SSequence [SSequence [SScalar (SString "x"); SScalar (SString "y")]])].

(** [Decode] on what [Encode] returns for [data], with the entries of
    [data] visited in the order given and the pairs in the order of
    [map_to_list]; [None] when [Encode] returns an error. *)
Definition decodeEncoded (data : list (string * @svalue Empty_set))
  : option (run (gmap string value)) :=
  match Encode_entries noFloat (reflectData data) with
  | Ok values => Some (decodeURL (map_to_list values))
  | Err _ => None
  end.

(** ** Definitions for the further properties *)

(** The outcome of the decoding loop without the depth it returns. *)
Definition loopOutcome (r : run (Z * gmap string value))
  : run (gmap string value) :=
  match r with
  | Done (Ok (_, urlData)) => Done (Ok urlData)
  | Done (Err e) => Done (Err e)
  | Panicked p => Panicked p
  end.

(** The value [v] below the keys [parts], one map per key. *)
Fixpoint nestedMap (parts : list string) (v : value) : value :=
  match parts with
  | [] => v
  | part :: parts => VMap {[ part := nestedMap parts v ]}
  end.

(** The value found by following the keys [path] through nested maps. *)
Fixpoint lookupPath (path : list string) (v : value) : option value :=
  match path with
  | [] => Some v
  | key :: path =>
      match v with
      | VMap m => m !! key ≫= lookupPath path
      | _ => None
      end
  end.

(** What an element of a sparse slice can be: the string of a leaf or a
    map. *)
Definition leafOrMap (v : value) : Prop :=
  match v with
  | VString _ | VMap _ => True
  | _ => False
  end.

(** The trees the decoding loop builds: strings, maps, and sparse slices
    that are not empty, hold at most [maxSliceSize] entries and have
    strings and maps for elements.  No [[]any] occurs in them. *)
Inductive decoderTree : value → Prop :=
| decoderTree_string s : decoderTree (VString s)
| decoderTree_map m :
    (∀ k v, m !! k = Some v → decoderTree v) → decoderTree (VMap m)
| decoderTree_minSlice elements :
    elements ≠ ∅ →
    Z.of_nat (size elements) ≤ maxSliceSize →
    (∀ i v, elements !! i = Some v → leafOrMap v) →
    (∀ i v, elements !! i = Some v → decoderTree v) →
    decoderTree (VMinSlice elements).

(** The trees [Decode] returns.  Outside the elements of a slice they
    are strings, maps and slices ([[]any]); a slice is not empty, holds at
    most [maxSliceSize] elements, and its elements are strings and maps.
    [convertMinSlicesToRegularSlices] does not look into the elements of
    a slice: a map that is an element is as the decoding loop left it, a
    [decoderTree], in which a bracketed name is still bound to a sparse
    slice ([*minSlice]) and no [[]any] occurs. *)
Inductive decodedValue : value → Prop :=
| decodedValue_string s : decodedValue (VString s)
| decodedValue_map m :
    (∀ k v, m !! k = Some v → decodedValue v) → decodedValue (VMap m)
| decodedValue_slice l :
    l ≠ [] →
    Z.of_nat (length l) ≤ maxSliceSize →
    Forall (λ v, leafOrMap v ∧ decoderTree v) l →
    decodedValue (VSlice l).

(** The errors [Decode] returns, with what they report. *)
Definition decodeError (e : error) : bool :=
  match e with
  | ConflictingEmptyKey => true
  | RecursionDepthExceeded limit => bool_decide (limit = maxRecursionDepth)
  | InvalidSliceIndex _ | ConflictingKey _ | InvalidIndex _ => true
  | TypeConflictMap got =>
      match got with TString | TMinSlicePtr => true | _ => false end
  | TypeConflictSlice got =>
      match got with TString | TMap => true | _ => false end
  | SliceSizeExceeded limit => bool_decide (limit = maxSliceSize)
  | _ => false
  end.

(** ** Values in front of [Encode] *)

Section EncoderModel.

Context {float64 : Type} (Sprintf_f : float64 → string).

(** [encodeStruct]: the loop over the fields, which [encodeValue] above
    carries inside its [RStruct] case. *)
Fixpoint encodeStruct (values : gmap string (list string)) (fieldTag : string)
    (fields : list (structField * @rvalue float64))
  : result (gmap string (list string)) :=
  match fields with
  | [] => Ok values
  | (fieldType, field) :: fields =>
      values ←
        encodeStructField (encodeValue Sprintf_f) values fieldTag fieldType field;
      encodeStruct values fieldTag fields
  end.

(** A field [encodeStructField] accepts: embedded, or with a [json] tag
    other than ["-"] and [""]. *)
Definition acceptedField (fieldType : structField) : bool :=
  Anonymous fieldType
  || negb (bool_decide (jsonTag fieldType = "-" ∨ jsonTag fieldType = "")).

(** No place that [encodeValue] visits in [v] makes it return an error:
    every kind is one of its [switch], every map has string keys and
    every struct field is accepted.  What a nil pointer or interface
    would refer to is not visited. *)
Fixpoint encodable (v : @rvalue float64) : bool :=
  match v with
  | RPtr elem | RInterface elem =>
      match elem with Some e => encodable e | None => true end
  | RString _ | RInt _ | RFloat _ | RBool _ => true
  | RSlice elems => forallb encodable elems
  | RMap keyKind entries =>
      match keyKind with
      | String_ => forallb (λ '(_, e), encodable e) entries
      | _ => false
      end
  | RStruct fields =>
      forallb (λ '(fieldType, field),
                 acceptedField fieldType && encodable field) fields
  | ROther _ => false
  end.

(** What [reflect.ValueOf] returns for a value of [data] other than the
    nil interface: a value that is not of kind [Interface], nor the
    invalid value. *)
Definition dynamicValue (v : @rvalue float64) : Prop :=
  (∀ elem, v ≠ RInterface elem) ∧ v ≠ ValueOf None.

(** An encodable value in which [encodeValue] reaches no string, no
    integer or float and no boolean. *)
Fixpoint leafless (v : @rvalue float64) : bool :=
  match v with
  | RPtr elem | RInterface elem =>
      match elem with Some e => leafless e | None => true end
  | RString _ | RInt _ | RFloat _ | RBool _ => false
  | RSlice elems => forallb leafless elems
  | RMap keyKind entries =>
      match keyKind with
      | String_ => forallb (λ '(_, e), leafless e) entries
      | _ => false
      end
  | RStruct fields =>
      forallb (λ '(fieldType, field),
                 acceptedField fieldType && leafless field) fields
  | ROther _ => false
  end.

(** The entry of a map that takes the place of a tagged struct field. *)
Definition fieldEntry (ff : structField * @rvalue float64)
  : string * @rvalue float64 :=
  (jsonTag ff.1, ff.2).

End EncoderModel.

(** * Properties *)

(** ** Strings, digits and the regular expression *)

Lemma span_spec p s a b :
  regexp.span p s = (a, b) →
  s = a +:+ b ∧ allBytes p a = true ∧
  match b with EmptyString => True | String c _ => p c = false end.
Proof.
  revert a b. induction s as [|c s IH]; intros a b; simpl.
  - intros [= <- <-]. done.
  - destruct (p c) eqn:Hc.
    + destruct (regexp.span p s) as [a' b'] eqn:Hs.
      intros [= <- <-]. destruct (IH _ _ eq_refl) as (-> & Ha & Hb).
      simpl. rewrite Hc, Ha. done.
    + intros [= <- <-]. simpl. rewrite Hc. done.
Qed.

Lemma span_all p a b :
  allBytes p a = true →
  match b with EmptyString => True | String c _ => p c = false end →
  regexp.span p (a +:+ b) = (a, b).
Proof.
  intros Ha Hb. induction a as [|c a IH]; simpl in *.
  - destruct b as [|c b]; simpl; [done|]. by rewrite Hb.
  - apply andb_prop in Ha as [Hc Ha]. rewrite Hc, (IH Ha). done.
Qed.

(** What a match at the start of [s] looks like. *)
Lemma matchHere_Some s groups :
  regexp.matchHere s = Some groups →
  ∃ name digits rest,
    s = name +:+ "[" +:+ digits +:+ "]" +:+ rest ∧
    groups = [name +:+ "[" +:+ digits +:+ "]"; name; digits] ∧
    name ≠ "" ∧ allBytes regexp.isWord name = true ∧
    digits ≠ "" ∧ allBytes strconv.isDigit digits = true.
Proof.
  unfold regexp.matchHere.
  destruct (regexp.span regexp.isWord s) as [name r1] eqn:H1.
  destruct name as [|c name]; [done|].
  destruct r1 as [|b r2]; [done|].
  destruct (Ascii.eqb_spec b "[") as [->|Hb]; [|done].
  destruct (regexp.span strconv.isDigit r2) as [digits r3] eqn:H2.
  destruct digits as [|d digits]; [done|].
  destruct r3 as [|e rest]; [done|].
  destruct (Ascii.eqb_spec e "]") as [->|He]; [|done].
  intros [= <-].
  apply span_spec in H1 as (-> & Hn & _).
  apply span_spec in H2 as (-> & Hd & _).
  exists (String c name), (String d digits), rest.
  repeat split; try done.
Qed.

Lemma Contains_app s t c :
  strings.Contains (s +:+ t) c = strings.Contains s c || strings.Contains t c.
Proof.
  induction s as [|a s IH]; simpl; [done|].
  destruct (Ascii.eqb a c); [done|]. apply IH.
Qed.

(** The submatch slice always has its three entries, and its groups are a
    non-empty word and a non-empty run of digits that occur in [s] as
    [name[digits]]. *)
Lemma FindStringSubmatch_Some s groups :
  regexp.FindStringSubmatch s = Some groups →
  ∃ pre name digits rest,
    s = pre +:+ name +:+ "[" +:+ digits +:+ "]" +:+ rest ∧
    groups = [name +:+ "[" +:+ digits +:+ "]"; name; digits] ∧
    name ≠ "" ∧ allBytes regexp.isWord name = true ∧
    digits ≠ "" ∧ allBytes strconv.isDigit digits = true.
Proof.
  induction s as [|c s IH]; simpl.
  - done.
  - destruct (regexp.matchHere (String c s)) eqn:Hm.
    + intros [= <-].
      apply matchHere_Some in Hm as (n & d & r & ? & ? & ? & ? & ? & ?).
      by exists "", n, d, r.
    + intros (pre & n & d & r & -> & ? & ? & ? & ? & ?)%IH.
      by exists (String c pre), n, d, r.
Qed.

Lemma FindStringSubmatch_brackets s groups :
  regexp.FindStringSubmatch s = Some groups →
  strings.Contains s "[" = true ∧ strings.Contains s "]" = true.
Proof.
  intros (pre & n & d & r & -> & _)%FindStringSubmatch_Some.
  rewrite !Contains_app. simpl. rewrite !orb_true_r. done.
Qed.

Lemma isDigit_digitVal c :
  strconv.isDigit c = true → 0 ≤ strconv.digitVal c ≤ 9.
Proof.
  unfold strconv.isDigit, strconv.digitVal.
  intros [H1 H2]%andb_prop.
  apply N.leb_le in H1, H2. lia.
Qed.

Lemma parseDigits_digits ds acc :
  allBytes strconv.isDigit ds = true → 0 ≤ acc →
  ∃ n, strconv.parseDigits ds acc = Some n ∧ acc ≤ n.
Proof.
  revert acc. induction ds as [|c ds IH]; intros acc Hd Hacc; simpl in *.
  - exists acc. split; [done|lia].
  - apply andb_prop in Hd as [Hc Hd]. rewrite Hc.
    pose proof (isDigit_digitVal _ Hc).
    destruct (IH (10 * acc + strconv.digitVal c) Hd) as (n & -> & ?); [lia|].
    exists n. split; [done|lia].
Qed.

(** [Atoi] of a run of digits is a non-negative [int] or an error. *)
Lemma Atoi_digits ds :
  ds ≠ "" → allBytes strconv.isDigit ds = true →
  strconv.Atoi ds = None ∨ ∃ n, strconv.Atoi ds = Some n ∧ 0 ≤ n < 2 ^ 63.
Proof.
  intros Hne Hd. destruct ds as [|c ds]; [done|].
  destruct (parseDigits_digits (String c ds) 0 Hd) as (n & Hn & ?); [lia|].
  unfold strconv.Atoi.
  simpl in Hd. apply andb_prop in Hd as [Hc _].
  destruct (Ascii.eqb_spec c "-") as [->|_]; [done|].
  destruct (Ascii.eqb_spec c "+") as [->|_]; [done|].
  rewrite Hn. destruct (Z.leb_spec n (2 ^ 63 - 1)); [|by left].
  right. exists n. split; [done|lia].
Qed.

(** [parseSliceIndex] on the result of a match: the captured name with a
    non-negative index, or [InvalidIndex] when the digits overflow [int].
    Neither of its other two errors can occur. *)
Lemma parseSliceIndex_match s groups :
  regexp.FindStringSubmatch s = Some groups →
  ∃ whole name digits,
    groups = [whole; name; digits] ∧
    (parseSliceIndex groups = Err (InvalidIndex digits) ∨
     ∃ idx, strconv.Atoi digits = Some idx ∧ 0 ≤ idx < 2 ^ 63 ∧
            parseSliceIndex groups = Ok (name, idx)).
Proof.
  intros (pre & n & d & r & _ & -> & _ & _ & Hne & Hd)%FindStringSubmatch_Some.
  eexists _, n, d. split; [done|].
  unfold parseSliceIndex.
  destruct (Atoi_digits d Hne Hd) as [->|(idx & -> & ?)]; [by left|].
  right. exists idx. destruct (Z.ltb_spec idx 0); [lia|done].
Qed.

(** ** Which errors the decoder can return *)

Lemma getOrCreateSlice_Err current sliceName e :
  getOrCreateSlice current sliceName = Err e → walkError e = true.
Proof.
  unfold getOrCreateSlice.
  repeat (case_match; simplify_eq/=); try done; by intros [= <-].
Qed.

Lemma setSliceValue_Err current part sliceIndex v e :
  regexp.FindStringSubmatch part = Some sliceIndex →
  setSliceValue current sliceIndex v = Err e → walkError e = true.
Proof.
  intros (w & n & d & -> & Hp)%parseSliceIndex_match. unfold setSliceValue.
  destruct Hp as [->|(idx & _ & _ & ->)]; simpl; [by intros [= <-]|].
  destruct (getOrCreateSlice current n) as [[c sl]|e'] eqn:Hg; simpl; [done|].
  intros [= <-]. by eapply getOrCreateSlice_Err.
Qed.

Lemma setFinalValue_Err current part v e :
  setFinalValue current part v = Err e → walkError e = true.
Proof.
  unfold setFinalValue. case_match; [by intros [= <-]|].
  destruct (regexp.FindStringSubmatch part) eqn:Hm.
  - by apply setSliceValue_Err with part.
  - case_match; [by intros [= <-]|done].
Qed.

Lemma getIntermediateValue_Err current part e :
  getIntermediateValue current part = Err e → walkError e = true.
Proof.
  unfold getIntermediateValue.
  destruct (regexp.FindStringSubmatch part) as [g|] eqn:Hm.
  - apply parseSliceIndex_match in Hm as (w & n & d & -> & Hp).
    unfold createMapIntoSlice.
    destruct Hp as [->|(idx & _ & _ & ->)]; simpl; [by intros [= <-]|].
    destruct (getOrCreateSlice current n) as [[c sl]|e'] eqn:Hg; simpl.
    + repeat (case_match; simplify_eq/=); try done; by intros [= <-].
    + intros [= <-]. by eapply getOrCreateSlice_Err.
  - unfold getMap.
    repeat (case_match; simplify_eq/=); try done; by intros [= <-].
Qed.

Lemma setNestedMapValue_loop_Err current parts v depth depth' e :
  setNestedMapValue_loop current parts v depth = (depth', Err e) →
  walkError e = true.
Proof.
  revert current depth depth'.
  induction parts as [|part rest IH]; intros current depth depth'; simpl;
    [done|].
  destruct rest as [|part' rest].
  - intros [= _ H]. by eapply setFinalValue_Err.
  - destruct (getIntermediateValue current part) as [[[c p] child]|e'] eqn:Hg.
    + destruct (setNestedMapValue_loop child (part' :: rest) v (int_incr depth))
        as [d [child'|e']] eqn:Hl; simpl; [done|].
      intros [= _ <-]. by eapply IH.
    + intros [= _ <-]. by eapply getIntermediateValue_Err.
Qed.

(** [setNestedMapValue] reports the recursion depth exactly when the key
    is not empty and splits into more than [maxRecursionDepth] parts; the
    depth it is handed plays no role. *)
Lemma setNestedMapValue_depth_error current key v depth depth' limit :
  setNestedMapValue current key v depth
    = (depth', Err (RecursionDepthExceeded limit)) ↔
  depth' = depth ∧ limit = maxRecursionDepth ∧ key ≠ "" ∧
  Z.of_nat (List.length (strings.Split key ".")) > maxRecursionDepth.
Proof.
  unfold setNestedMapValue. destruct (decide (key = "")) as [->|Hk].
  - split; [|by intros (_ & _ & ? & _)]. by case_match.
  - destruct (Z.gtb_spec (Z.of_nat (List.length (strings.Split key ".")))
                maxRecursionDepth) as [Hlen|Hlen].
    + split; [intros [= <- <-]; repeat split; [done|lia]|].
      by intros (-> & -> & _).
    + split; [|lia]. by intros Hloop%setNestedMapValue_loop_Err.
Qed.

(** No call of the decoder returns [NegativeIndex]: the index it parses
    is a run of digits. *)
Lemma setNestedMapValue_not_negative current key v depth depth' idx :
  setNestedMapValue current key v depth ≠ (depth', Err (NegativeIndex idx)).
Proof.
  unfold setNestedMapValue. repeat case_match; try done.
  by intros Hloop%setNestedMapValue_loop_Err.
Qed.

(** ** The order of a [range] over a one-entry map *)

Lemma range_order_singleton `{Countable K} {V} (k : K) (v : V) l :
  range_order ({[k := v]} : gmap K V) l ↔ l = [(k, v)].
Proof.
  unfold range_order. rewrite map_to_list_singleton. split.
  - by intros ->%Permutation_singleton_r.
  - by intros ->.
Qed.

(** ** Recursion depth *)

Lemma decodeURL_loop_depth_error entries urlData depth limit :
  decodeURL_loop entries urlData depth
    = Done (Err (RecursionDepthExceeded limit)) ↔
  limit = maxRecursionDepth ∧
  ∃ pre key v0 vals post depth' urlData',
    entries = pre ++ (key, v0 :: vals) :: post ∧
    decodeURL_loop pre urlData depth = Done (Ok (depth', urlData')) ∧
    key ≠ "" ∧
    Z.of_nat (List.length (strings.Split key ".")) > maxRecursionDepth.
Proof.
  revert urlData depth.
  induction entries as [|[k vals] rest IH]; intros urlData depth; simpl.
  - split; [done|]. intros (_ & pre & ? & ? & ? & ? & ? & ? & Hpre & _).
    by destruct pre.
  - destruct vals as [|v0 vals].
    { split; [done|]. intros (_ & pre & ? & ? & ? & ? & ? & ? & Hpre & Hl & _).
      destruct pre; simplify_eq/=. }
    pose proof (proj2 (setNestedMapValue_depth_error urlData k (VString v0)
                         depth depth maxRecursionDepth)) as Hdeep.
    destruct (setNestedMapValue urlData k (VString v0) depth)
      as [d [u|e]] eqn:Hs.
    + rewrite IH. split.
      * intros (-> & pre & key & w0 & ws & post & d' & u' & -> & Hl & ? & ?).
        split; [done|].
        exists ((k, v0 :: vals) :: pre), key, w0, ws, post, d', u'.
        simpl. by rewrite Hs.
      * intros (-> & pre & key & w0 & ws & post & d' & u' & Hpre & Hl & ? & ?).
        split; [done|]. destruct pre as [|x pre]; simplify_eq/=.
        -- discriminate Hdeep; done.
        -- rewrite Hs in Hl. by exists pre, key, w0, ws, post, d', u'.
    + split.
      * intros [= ->].
        apply setNestedMapValue_depth_error in Hs as (-> & -> & ? & ?).
        split; [done|]. by exists [], k, v0, vals, rest, depth, urlData.
      * intros (-> & pre & key & w0 & ws & post & d' & u' & Hpre & Hl & ? & ?).
        destruct pre as [|x pre]; simplify_eq/=.
        -- assert (Heq := Hdeep ltac:(done)). by simplify_eq.
        -- by rewrite Hs in Hl.
Qed.

(** C3 (as amended).  [Decode] fails with the recursion-depth error if and
    only if the entries met before any failure are followed by one whose
    key is not empty and splits on '.' into more than [maxRecursionDepth]
    parts.  The depth counter threaded through the calls is incremented
    per part but compared with nothing, so it decides nothing. *)
Theorem decodeURL_depth_error_iff entries limit :
  decodeURL entries = Done (Err (RecursionDepthExceeded limit)) ↔
  limit = maxRecursionDepth ∧
  ∃ pre key v0 vals post depth urlData,
    entries = pre ++ (key, v0 :: vals) :: post ∧
    decodeURL_loop pre ∅ 0 = Done (Ok (depth, urlData)) ∧
    key ≠ "" ∧
    Z.of_nat (List.length (strings.Split key ".")) > maxRecursionDepth.
Proof.
  rewrite <- decodeURL_loop_depth_error. unfold decodeURL.
  destruct (decodeURL_loop entries ∅ 0) as [[[d u]|e]|p]; split; congruence.
Qed.

(** C3, counterexample.  Eleven one-part keys: the aggregate count of
    processed parts, which is also the final value of the depth counter,
    is 11 > 10, yet the decode succeeds. *)
Lemma decodeURL_aggregate_depth_unchecked :
  ¬ ((∃ limit, decodeURL elevenKeys = Done (Err (RecursionDepthExceeded limit)))
     ↔ (Exists (λ kv, segmentCount kv.1 > maxRecursionDepth) elevenKeys
        ∨ aggregateSegments elevenKeys > maxRecursionDepth))
  ∧ ∃ urlData, decodeURL_loop elevenKeys ∅ 0 = Done (Ok (11, urlData)).
Proof.
  split.
  - intros [_ Hr]. destruct Hr as [limit Hr]; [right; by vm_compute|].
    by vm_compute in Hr.
  - eexists. vm_compute. reflexivity.
Qed.

(** ** Negative indices *)

Lemma decodeURL_loop_not_negative entries urlData depth idx :
  decodeURL_loop entries urlData depth ≠ Done (Err (NegativeIndex idx)).
Proof.
  revert urlData depth.
  induction entries as [|[k vals] rest IH]; intros urlData depth; simpl;
    [done|].
  destruct vals as [|v0 vals]; [done|].
  destruct (setNestedMapValue urlData k (VString v0) depth)
    as [d [u|e]] eqn:Hs; [apply IH|].
  intros [= ->]. by eapply setNestedMapValue_not_negative.
Qed.

(** C5 (as amended).  The key [list[-1]] is rejected as an invalid slice
    index naming the segment: it contains both brackets and the
    expression, whose index group is [\d+], does not match it.  No input
    at all makes [Decode] return the negative-index error. *)
Theorem decodeURL_negative_index_is_invalid :
  (∀ v vals, decodeURL [("list[-1]", v :: vals)]
             = Done (Err (InvalidSliceIndex "list[-1]")))
  ∧ (∀ entries idx, decodeURL entries ≠ Done (Err (NegativeIndex idx))).
Proof.
  split; [done|]. intros entries idx. unfold decodeURL.
  pose proof (decodeURL_loop_not_negative entries ∅ 0 idx).
  destruct (decodeURL_loop entries ∅ 0) as [[[d u]|e]|p]; congruence.
Qed.

(** C5, counterexample.  The error for [list[-1]] is not the
    negative-index one. *)
Lemma decodeURL_list_minus_one :
  decodeURL [("list[-1]", ["value"])]
    = Done (Err (InvalidSliceIndex "list[-1]"))
  ∧ ¬ ∃ idx, decodeURL [("list[-1]", ["value"])]
             = Done (Err (NegativeIndex idx)).
Proof. split; [done|]. by intros [idx ?]. Qed.

(** ** Keys without separators, and segments of the form [name[digits]] *)

Lemma string_app_cons c (a b : string) : String c a +:+ b = String c (a +:+ b).
Proof. reflexivity. Qed.

Lemma string_app_nil_l (b : string) : "" +:+ b = b.
Proof. reflexivity. Qed.

Lemma string_app_nil_r (a : string) : a +:+ "" = a.
Proof.
  induction a as [|x a IH]; [done|]. by rewrite string_app_cons, IH.
Qed.

Lemma string_app_assoc (a b c : string) : (a +:+ b) +:+ c = a +:+ b +:+ c.
Proof.
  induction a as [|x a IH]; [done|]. by rewrite !string_app_cons, IH.
Qed.

Lemma allBytes_app p a b :
  allBytes p (a +:+ b) = allBytes p a && allBytes p b.
Proof.
  induction a as [|x a IH]; [done|].
  rewrite string_app_cons. simpl. by rewrite IH, andb_assoc.
Qed.

Lemma allBytes_Contains p s c :
  allBytes p s = true → p c = false → strings.Contains s c = false.
Proof.
  intros Hs Hc. induction s as [|a s IH]; simpl in *; [done|].
  apply andb_prop in Hs as [Ha Hs].
  destruct (Ascii.eqb_spec a c) as [->|_]; [congruence|by apply IH].
Qed.

Lemma Split_no_sep s sep :
  strings.Contains s sep = false → strings.Split s sep = [s].
Proof.
  induction s as [|a s IH]; simpl; [done|].
  destruct (Ascii.eqb a sep); [done|]. by intros ->%IH.
Qed.

Lemma Split_app s rest sep :
  strings.Contains s sep = false →
  strings.Split (s +:+ String sep rest) sep = s :: strings.Split rest sep.
Proof.
  induction s as [|a s IH]; rewrite ?string_app_cons, ?string_app_nil_l; simpl.
  - by rewrite Ascii.eqb_refl.
  - destruct (Ascii.eqb a sep); [done|]. by intros ->%IH.
Qed.

Lemma matchHere_canonical name digits rest :
  name ≠ "" → allBytes regexp.isWord name = true →
  digits ≠ "" → allBytes strconv.isDigit digits = true →
  regexp.matchHere (name +:+ "[" +:+ digits +:+ "]" +:+ rest)
  = Some [name +:+ "[" +:+ digits +:+ "]"; name; digits].
Proof.
  intros Hn Hw Hd Hds. unfold regexp.matchHere.
  rewrite (span_all _ name) by done.
  destruct name as [|c name]; [done|].
  rewrite !string_app_cons, string_app_nil_l, Ascii.eqb_refl.
  rewrite (span_all _ digits) by done.
  destruct digits as [|d digits]; [done|].
  by rewrite !string_app_cons, string_app_nil_l, Ascii.eqb_refl.
Qed.

(** On a segment that starts with [name[digits]] the search returns that
    match. *)
Lemma FindStringSubmatch_canonical name digits rest :
  name ≠ "" → allBytes regexp.isWord name = true →
  digits ≠ "" → allBytes strconv.isDigit digits = true →
  regexp.FindStringSubmatch (name +:+ "[" +:+ digits +:+ "]" +:+ rest)
  = Some [name +:+ "[" +:+ digits +:+ "]"; name; digits].
Proof.
  intros Hn Hw Hd Hds.
  pose proof (matchHere_canonical name digits rest Hn Hw Hd Hds) as Hm.
  destruct name as [|c name]; [done|].
  rewrite string_app_cons in *. simpl. by rewrite Hm.
Qed.

Lemma FindStringSubmatch_canonical_0 name digits :
  name ≠ "" → allBytes regexp.isWord name = true →
  digits ≠ "" → allBytes strconv.isDigit digits = true →
  regexp.FindStringSubmatch (name +:+ "[" +:+ digits +:+ "]")
  = Some [name +:+ "[" +:+ digits +:+ "]"; name; digits].
Proof.
  intros Hn Hw Hd Hds.
  pose proof (FindStringSubmatch_canonical name digits "" Hn Hw Hd Hds) as Hm.
  by rewrite string_app_nil_r in Hm.
Qed.

(** A segment without '[' or without ']' is not matched. *)
Lemma FindStringSubmatch_no_brackets s :
  strings.Contains s "[" && strings.Contains s "]" = false →
  regexp.FindStringSubmatch s = None.
Proof.
  intros Hb. destruct (regexp.FindStringSubmatch s) eqn:Hm; [|done].
  apply FindStringSubmatch_brackets in Hm as [H1 H2].
  by rewrite H1, H2 in Hb.
Qed.

(** ** Sparse slices left in the result *)

(** C2.  The pair [a[0].b[0]=x] decodes without error, and the slice [b],
    which sits in a map that is an element of the slice [a], is still a
    [*minSlice] in the returned tree: [convertMinSlicesToRegularSlices]
    replaces [a] by [a.toSlice()] and does not visit the elements. *)
Theorem decode_leaves_nested_minSlice :
  (∀ r, Decode {[ "a[0].b[0]" := ["x"] ]} r ↔ r = Done (Ok nestedSliceTree))
  ∧ containsMinSlice (VMap nestedSliceTree) = true.
Proof.
  split; [|vm_compute; reflexivity].
  intros r. unfold Decode. split.
  - intros (entries & ->%range_order_singleton & <-). vm_compute. reflexivity.
  - intros ->. exists [("a[0].b[0]", ["x"])].
    split; [by apply range_order_singleton|vm_compute; reflexivity].
Qed.

(** ** Bracketed segments that do not match *)

(** C4.  An intermediate segment with both brackets that the expression
    does not match is not rejected: [getIntermediateValue] has no such
    check and uses the segment as a map key.  The same segment in final
    position is rejected by [setFinalValue]. *)
Theorem decode_accepts_invalid_intermediate_index :
  strings.Contains "list[abc]" "[" = true
  ∧ strings.Contains "list[abc]" "]" = true
  ∧ regexp.FindStringSubmatch "list[abc]" = None
  ∧ (∀ r, Decode {[ "list[abc].x" := ["v"] ]} r ↔
          r = Done (Ok {[ "list[abc]" := VMap {[ "x" := VString "v" ]} ]}))
  ∧ decodeURL [("list[abc]", ["v"])]
    = Done (Err (InvalidSliceIndex "list[abc]")).
Proof.
  split; [by vm_compute|]. split; [by vm_compute|]. split; [by vm_compute|].
  split; [|by vm_compute]. intros r. unfold Decode. split.
  - intros (entries & ->%range_order_singleton & <-). by vm_compute.
  - intros ->. exists [("list[abc].x", ["v"])].
    split; [by apply range_order_singleton|by vm_compute].
Qed.

(** ** Empty value lists *)

Lemma decodeURL_loop_Panicked entries urlData depth p :
  decodeURL_loop entries urlData depth = Panicked p →
  ∃ key, (key, []) ∈ entries.
Proof.
  revert urlData depth.
  induction entries as [|[k vals] rest IH]; intros urlData depth; simpl;
    [done|].
  destruct vals as [|v0 vals].
  - intros _. exists k. left.
  - destruct (setNestedMapValue urlData k (VString v0) depth) as [d [u|e]];
      [|done].
    intros [key Hin]%IH. exists key. by right.
Qed.

(** C9.  [Decode] can panic on [values] exactly when some key of [values]
    is bound to the empty list: [decodeURL] reads [value[0]] without
    looking at the length.  When every list is non-empty every run ends
    in a returned tree or a returned error. *)
Theorem Decode_panics_iff (values : gmap string (list string)) :
  (∃ p, Decode values (Panicked p)) ↔ ∃ key, values !! key = Some [].
Proof.
  split.
  - intros (p & entries & Hperm & Hrun). unfold decodeURL in Hrun.
    destruct (decodeURL_loop entries ∅ 0) as [[[d u]|e]|q] eqn:Hl; try done.
    apply decodeURL_loop_Panicked in Hl as [key Hin].
    exists key. apply elem_of_map_to_list. by rewrite <- Hperm.
  - intros [key Hkey]. exists (IndexOutOfRange 0 0).
    exists ((key, []) :: map_to_list (delete key values)). split.
    + unfold range_order. by rewrite map_to_list_delete.
    + done.
Qed.

(** ** Nil pointers and interfaces in [Encode] *)

Section EncodeReference.

Context {float64 : Type} (Sprintf_f : float64 → string).

#[local] Abbreviation rvalue := (@rvalue float64).

Lemma Encode_loop_skip_nil values pre key post :
  Encode_loop Sprintf_f values (pre ++ (key, RPtr None) :: post)
  = Encode_loop Sprintf_f values (pre ++ post).
Proof.
  revert values. induction pre as [|[k v] pre IH]; intros values; simpl;
    [done|].
  destruct (encodeURL Sprintf_f values k v); simpl; [apply IH|done].
Qed.

(** Two values that one call of [encodeURL] does not tell apart are not
    told apart by the loop. *)
Lemma Encode_loop_same values pre key (x y : rvalue) post :
  (∀ values, encodeURL Sprintf_f values key x
             = encodeURL Sprintf_f values key y) →
  Encode_loop Sprintf_f values (pre ++ (key, x) :: post)
  = Encode_loop Sprintf_f values (pre ++ (key, y) :: post).
Proof.
  intros Hxy. revert values.
  induction pre as [|[k v] pre IH]; intros values; simpl.
  - by rewrite Hxy.
  - destruct (encodeURL Sprintf_f values k v); simpl; [apply IH|done].
Qed.

(** The loop does not get past a value of a kind [encodeValue] does not
    know. *)
Lemma Encode_loop_unsupported values pre key k post :
  ∃ e, Encode_loop Sprintf_f values (pre ++ (key, ROther k) :: post) = Err e.
Proof.
  revert values. induction pre as [|[k' v] pre IH]; intros values; simpl.
  - by eexists.
  - destruct (encodeURL Sprintf_f values k' v); simpl; [apply IH|by eexists].
Qed.

(** The orders of a [range] over a map with one more entry. *)
Lemma Encode_insert (data : gmap string rvalue) key x r :
  data !! key = None →
  Encode Sprintf_f (<[key := x]> data) r
  ↔ ∃ pre post, range_order data (pre ++ post)
                ∧ Encode_entries Sprintf_f (pre ++ (key, x) :: post) = r.
Proof.
  intros Hfresh. unfold Encode, range_order. split.
  - intros (entries & Hperm & <-).
    rewrite map_to_list_insert in Hperm by done.
    assert ((key, x) ∈ entries) as (pre & post & ->)%list_elem_of_split.
    { rewrite Hperm. left. }
    exists pre, post. split; [|done]. symmetry.
    by apply Permutation_cons_app_inv with (key, x).
  - intros (pre & post & Hperm & <-). eexists. split; [|done].
    rewrite map_to_list_insert by done. symmetry.
    by apply Permutation_cons_app.
Qed.

Lemma Encode_singleton (key : string) (x : rvalue) r :
  Encode Sprintf_f {[ key := x ]} r ↔ r = encodeValue Sprintf_f ∅ key x.
Proof.
  unfold Encode. split.
  - intros (entries & ->%range_order_singleton & <-).
    unfold Encode_entries. simpl. unfold encodeURL.
    by destruct (encodeValue Sprintf_f ∅ key x).
  - intros ->. exists [(key, x)]. split; [by apply range_order_singleton|].
    unfold Encode_entries. simpl. unfold encodeURL.
    by destruct (encodeValue Sprintf_f ∅ key x).
Qed.

Lemma encodeMap_keys_skip values fieldTag pre k (x : rvalue) post :
  (∀ values tag, encodeValue Sprintf_f values tag x = Ok values) →
  encodeMap_keys (encodeValue Sprintf_f) values fieldTag (pre ++ (k, x) :: post)
  = encodeMap_keys (encodeValue Sprintf_f) values fieldTag (pre ++ post).
Proof.
  intros Hx. revert values.
  induction pre as [|[k' v] pre IH]; intros values; simpl.
  - by rewrite Hx.
  - match goal with
    | |- context [encodeValue Sprintf_f values ?tag v] =>
        destruct (encodeValue Sprintf_f values tag v)
    end; simpl; [apply IH|done].
Qed.

Lemma encodeMap_keys_same values fieldTag pre k (x y : rvalue) post :
  (∀ values tag, encodeValue Sprintf_f values tag x
                 = encodeValue Sprintf_f values tag y) →
  encodeMap_keys (encodeValue Sprintf_f) values fieldTag (pre ++ (k, x) :: post)
  = encodeMap_keys (encodeValue Sprintf_f) values fieldTag
      (pre ++ (k, y) :: post).
Proof.
  intros Hxy. revert values.
  induction pre as [|[k' v] pre IH]; intros values; simpl.
  - by rewrite Hxy.
  - match goal with
    | |- context [encodeValue Sprintf_f values ?tag v] =>
        destruct (encodeValue Sprintf_f values tag v)
    end; simpl; [apply IH|done].
Qed.


End EncodeReference.



(** [TestEncode_NilPointer]: the only outcome is the empty [url.Values]. *)
Example Encode_nil_pointer r :
  Encode noFloat {[ "nilptr" := RPtr None ]} r ↔ r = Ok ∅.
Proof.
  unfold Encode. split.
  - by intros (entries & ->%range_order_singleton & <-).
  - intros ->. exists [("nilptr", RPtr None)].
    split; [by apply range_order_singleton|done].
Qed.

(** ** Conflicts at the final segment *)

Lemma getOrCreateSlice_Some current sliceName elements :
  current !! sliceName = Some (VMinSlice elements) →
  getOrCreateSlice current sliceName =
    if Z.of_nat (size elements) >=? maxSliceSize
    then Err (SliceSizeExceeded maxSliceSize)
    else Ok (current, elements).
Proof. intros H. unfold getOrCreateSlice. by rewrite !H. Qed.

Lemma getOrCreateSlice_None current sliceName :
  current !! sliceName = None →
  getOrCreateSlice current sliceName
  = Ok (<[sliceName := VMinSlice ∅]> current, ∅).
Proof.
  intros H. unfold getOrCreateSlice. rewrite !H.
  by rewrite lookup_insert_eq.
Qed.

(** C6 (as amended).  At the final segment, a segment without brackets
    whose key is already bound is refused as a conflicting key.  A segment
    in which the expression matches, with an index that is already set,
    overwrites the element without any check, provided the slice holds
    fewer than [maxSliceSize] entries; when it holds that many, the write
    is refused for the size, before the index is looked at. *)
Theorem final_segment_conflict_asymmetry
    (current : gmap string value) (part : string) (v : value) :
  (strings.Contains part "[" && strings.Contains part "]" = false →
   is_Some (current !! part) →
   setFinalValue current part v = Err (ConflictingKey part))
  ∧ (∀ whole name digits idx elements,
       regexp.FindStringSubmatch part = Some [whole; name; digits] →
       strconv.Atoi digits = Some idx →
       current !! name = Some (VMinSlice elements) →
       is_Some (elements !! idx) →
       setFinalValue current part v =
         if Z.of_nat (size elements) >=? maxSliceSize
         then Err (SliceSizeExceeded maxSliceSize)
         else Ok (<[name := VMinSlice (<[idx := v]> elements)]> current)).
Proof.
  split.
  - intros Hb [old Hold]. unfold setFinalValue.
    rewrite (FindStringSubmatch_no_brackets _ Hb), Hb, Hold. done.
  - intros whole name digits idx elements Hm Ha Hc _.
    unfold setFinalValue. rewrite Hm.
    destruct (FindStringSubmatch_brackets _ _ Hm) as [-> ->]. simpl.
    destruct (parseSliceIndex_match _ _ Hm)
      as (w & n & d & [= <- <- <-] & [Hp|(i & Hi & Hr & Hp)]).
    + unfold parseSliceIndex in Hp. rewrite Ha in Hp.
      by destruct (idx <? 0).
    + assert (i = idx) as -> by congruence.
      unfold setSliceValue. rewrite Hp. simpl.
      rewrite (getOrCreateSlice_Some _ _ _ Hc).
      by destruct (Z.of_nat (size elements) >=? maxSliceSize).
Qed.

Lemma final_segment_conflict_asymmetry_witness :
  setFinalValue {[ "k" := VString "old" ]} "k" (VString "new")
    = Err (ConflictingKey "k")
  ∧ setFinalValue {[ "a" := VMinSlice {[ 0 := VString "old" ]} ]} "a[0]"
      (VString "new")
    = Ok {[ "a" := VMinSlice {[ 0 := VString "new" ]} ]}.
Proof.
  split.
  - apply (final_segment_conflict_asymmetry
             {[ "k" := VString "old" ]} "k" (VString "new")).
    + reflexivity.
    + exists (VString "old"). reflexivity.
  - pose proof (proj2 (final_segment_conflict_asymmetry
             {[ "a" := VMinSlice {[ 0 := VString "old" ]} ]} "a[0]"
             (VString "new")) "a[0]" "a" "0" 0 {[ 0 := VString "old" ]}
             ltac:(reflexivity) ltac:(reflexivity) ltac:(reflexivity)
             ltac:(exists (VString "old"); reflexivity)) as H.
    rewrite H. vm_compute. reflexivity.
Defined.

(** C6, counterexample.  After [a[0]], ..., [a[999]] the slice [a] holds
    1000 entries, index 0 among them; the pair [a[00]=new], whose index is
    0, does not overwrite it: the decode fails. *)
Lemma index_overwrite_refused_when_full :
  match decodeURL_loop (indexEntries "a" 1000) ∅ 0 with
  | Done (Ok (_, urlData)) =>
      match urlData !! "a" with
      | Some (VMinSlice elements) =>
          elements !! 0 = Some (VString "val")
          ∧ regexp.FindStringSubmatch "a[00]" = Some ["a[00]"; "a"; "00"]
          ∧ strconv.Atoi "00" = Some 0
          ∧ setFinalValue urlData "a[00]" (VString "new")
            = Err (SliceSizeExceeded maxSliceSize)
      | _ => False
      end
  | _ => False
  end
  ∧ decodeURL (indexEntries "a" 1000 ++ [("a[00]", ["new"])])
    = Done (Err (SliceSizeExceeded maxSliceSize)).
Proof. vm_compute. done. Qed.

(** ** The size of sparse slices *)

Lemma sliceBounded_lookup m k v :
  sliceBounded (VMap m) → m !! k = Some v → sliceBounded v.
Proof. inversion 1; eauto. Qed.

Lemma sliceBounded_insert m k v :
  sliceBounded (VMap m) → sliceBounded v → sliceBounded (VMap (<[k := v]> m)).
Proof.
  intros Hm Hv. constructor. intros k' v'.
  rewrite lookup_insert. case_decide; [by intros [= <-]|].
  by apply sliceBounded_lookup.
Qed.

Lemma sliceBounded_set elements idx v :
  sliceBounded (VMinSlice elements) → sliceBounded v →
  Z.of_nat (size elements) < maxSliceSize ∨ is_Some (elements !! idx) →
  sliceBounded (VMinSlice (minSlice.set elements idx v)).
Proof.
  intros He Hv Hsize. inversion He as [| |? Hs Hel|]; subst.
  unfold minSlice.set. constructor.
  - rewrite map_size_insert.
    destruct (elements !! idx); simpl; [done|].
    destruct Hsize as [?|[? [=]]]. lia.
  - intros i x. rewrite lookup_insert. case_decide; [by intros [= <-]|].
    apply Hel.
Qed.

Lemma getOrCreateSlice_Ok current sliceName current' elements :
  getOrCreateSlice current sliceName = Ok (current', elements) →
  current' !! sliceName = Some (VMinSlice elements)
  ∧ Z.of_nat (size elements) < maxSliceSize
  ∧ (current' = current
     ∨ current !! sliceName = None ∧ elements = ∅
       ∧ current' = <[sliceName := VMinSlice ∅]> current).
Proof.
  unfold getOrCreateSlice. destruct (current !! sliceName) as [x|] eqn:Hc.
  - rewrite Hc. destruct x as [| |els|]; try done.
    destruct (Z.geb_spec (Z.of_nat (size els)) maxSliceSize); [done|].
    intros [= <- <-]. auto.
  - rewrite lookup_insert_eq. unfold minSlice.new.
    rewrite map_size_empty. simpl. intros [= <- <-].
    rewrite lookup_insert_eq. split; [done|]. split; [done|]. auto.
Qed.

Lemma getOrCreateSlice_bounded current sliceName current' elements :
  sliceBounded (VMap current) →
  getOrCreateSlice current sliceName = Ok (current', elements) →
  sliceBounded (VMap current') ∧ sliceBounded (VMinSlice elements).
Proof.
  intros Hb (Hl & Hs & [->|(_ & -> & ->)])%getOrCreateSlice_Ok.
  - split; [done|]. by eapply sliceBounded_lookup.
  - assert (sliceBounded (VMinSlice ∅)).
    { constructor; [by rewrite map_size_empty|]. intros i x.
      by rewrite lookup_empty. }
    split; [by apply sliceBounded_insert|done].
Qed.

Lemma setSliceValue_bounded current sliceIndex v current' :
  sliceBounded (VMap current) → sliceBounded v →
  setSliceValue current sliceIndex v = Ok current' →
  sliceBounded (VMap current').
Proof.
  intros Hb Hv. unfold setSliceValue.
  destruct (parseSliceIndex sliceIndex) as [[name idx]|]; simpl; [|done].
  destruct (getOrCreateSlice current name) as [[c els]|] eqn:Hg; simpl;
    [|done].
  intros [= <-].
  destruct (getOrCreateSlice_bounded _ _ _ _ Hb Hg) as [Hc Hels].
  apply getOrCreateSlice_Ok in Hg as (_ & Hs & _).
  apply sliceBounded_insert; [done|]. apply sliceBounded_set; auto.
Qed.

Lemma setFinalValue_bounded current part v current' :
  sliceBounded (VMap current) → sliceBounded v →
  setFinalValue current part v = Ok current' →
  sliceBounded (VMap current').
Proof.
  intros Hb Hv. unfold setFinalValue. case_match; [done|].
  destruct (regexp.FindStringSubmatch part).
  - by apply setSliceValue_bounded.
  - case_match; [done|]. intros [= <-]. by apply sliceBounded_insert.
Qed.

Lemma sliceBounded_empty_map : sliceBounded (VMap ∅).
Proof. constructor. intros k v. by rewrite lookup_empty. Qed.

Lemma getIntermediateValue_bounded current part current' p child :
  sliceBounded (VMap current) →
  getIntermediateValue current part = Ok (current', p, child) →
  sliceBounded (VMap child)
  ∧ ∀ child', sliceBounded (VMap child') →
              sliceBounded (VMap (store current' p child')).
Proof.
  intros Hb. unfold getIntermediateValue.
  destruct (regexp.FindStringSubmatch part) as [g|].
  - unfold createMapIntoSlice.
    destruct (parseSliceIndex g) as [[name idx]|]; simpl; [|done].
    destruct (getOrCreateSlice current name) as [[c els]|] eqn:Hg; simpl;
      [|done].
    destruct (getOrCreateSlice_bounded _ _ _ _ Hb Hg) as [Hc Hels].
    apply getOrCreateSlice_Ok in Hg as (_ & Hs & _).
    unfold minSlice.get.
    destruct (els !! idx) as [elem|] eqn:Hidx.
    + destruct elem as [|m| |]; try done. intros [= <- <- <-].
      split; [inversion Hels; eauto|].
      intros child' Hchild. simpl. rewrite lookup_insert_eq.
      rewrite insert_insert_eq. apply sliceBounded_insert; [done|].
      apply sliceBounded_set; eauto.
    + intros [= <- <- <-]. split; [apply sliceBounded_empty_map|].
      intros child' Hchild. simpl. rewrite lookup_insert_eq.
      rewrite insert_insert_eq. apply sliceBounded_insert; [done|].
      unfold minSlice.set. rewrite insert_insert_eq.
      apply sliceBounded_set; auto.
  - unfold getMap.
    destruct (current !! part) as [x|] eqn:Hc.
    + rewrite Hc. destruct x as [|m| |]; try done. simpl.
      intros [= <- <- <-]. split; [by eapply sliceBounded_lookup|].
      intros child' Hchild. simpl. by apply sliceBounded_insert.
    + rewrite lookup_insert_eq. simpl. intros [= <- <- <-].
      split; [apply sliceBounded_empty_map|].
      intros child' Hchild. simpl. rewrite insert_insert_eq.
      by apply sliceBounded_insert.
Qed.

Lemma setNestedMapValue_loop_bounded current parts v depth depth' current' :
  sliceBounded (VMap current) → sliceBounded v →
  setNestedMapValue_loop current parts v depth = (depth', Ok current') →
  sliceBounded (VMap current').
Proof.
  intros Hb Hv. revert current depth depth' current' Hb.
  induction parts as [|part rest IH]; intros current depth depth' current' Hb;
    simpl.
  - by intros [= _ <-].
  - destruct rest as [|part' rest].
    + intros [= _ H]. exact (setFinalValue_bounded _ _ _ _ Hb Hv H).
    + destruct (getIntermediateValue current part) as [[[c p] child]|] eqn:Hg;
        [|done].
      destruct (getIntermediateValue_bounded _ _ _ _ _ Hb Hg) as [Hchild Hst].
      destruct (setNestedMapValue_loop child (part' :: rest) v (int_incr depth))
        as [d [child'|]] eqn:Hl; simpl; [|done].
      intros [= _ <-]. apply Hst. exact (IH _ _ _ _ Hchild Hl).
Qed.

Lemma setNestedMapValue_bounded current key v depth depth' current' :
  sliceBounded (VMap current) → sliceBounded v →
  setNestedMapValue current key v depth = (depth', Ok current') →
  sliceBounded (VMap current').
Proof.
  intros Hb Hv. unfold setNestedMapValue. case_decide.
  - case_match; [done|]. intros [= _ <-]. by apply sliceBounded_insert.
  - case_match; [done|]. by apply setNestedMapValue_loop_bounded.
Qed.

Lemma decodeURL_loop_bounded entries urlData depth depth' urlData' :
  sliceBounded (VMap urlData) →
  decodeURL_loop entries urlData depth = Done (Ok (depth', urlData')) →
  sliceBounded (VMap urlData').
Proof.
  revert urlData depth.
  induction entries as [|[k vals] rest IH]; intros urlData depth Hb; simpl.
  - by intros [= _ <-].
  - destruct vals as [|v0 vals]; [done|].
    destruct (setNestedMapValue urlData k (VString v0) depth)
      as [d [u|]] eqn:Hs; [|done].
    apply IH. eapply setNestedMapValue_bounded; [done| |done]. constructor.
Qed.

Lemma indexKey_no_dot name digits :
  wordName name → allBytes strconv.isDigit digits = true →
  strings.Contains (indexKey name digits) "." = false.
Proof.
  intros [_ Hw] Hd. unfold indexKey. rewrite !Contains_app.
  rewrite (allBytes_Contains _ _ _ Hw), (allBytes_Contains _ _ _ Hd); done.
Qed.

Lemma indexKey_nonempty name digits : name ≠ "" → indexKey name digits ≠ "".
Proof. by destruct name. Qed.

(** A key [name[digits]] is one part, and that part is an index write. *)
Lemma setNestedMapValue_indexKey current name digits v depth :
  wordName name → digits ≠ "" → allBytes strconv.isDigit digits = true →
  setNestedMapValue current (indexKey name digits) v depth
  = (int_incr depth,
     setSliceValue current [indexKey name digits; name; digits] v).
Proof.
  intros Hn Hd Hds. unfold setNestedMapValue.
  destruct (decide _) as [He|_]; [by apply indexKey_nonempty in He; [|apply Hn]|].
  rewrite (Split_no_sep _ _ (indexKey_no_dot _ _ Hn Hds)). simpl.
  unfold setFinalValue.
  destruct Hn as [Hn Hw].
  pose proof (FindStringSubmatch_canonical_0 name digits Hn Hw Hd Hds) as Hm.
  fold (indexKey name digits) in Hm. rewrite Hm.
  destruct (FindStringSubmatch_brackets _ _ Hm) as [-> ->]. done.
Qed.

Lemma parseSliceIndex_valid whole name digits idx :
  allBytes strconv.isDigit digits = true → digits ≠ "" →
  strconv.Atoi digits = Some idx →
  parseSliceIndex [whole; name; digits] = Ok (name, idx).
Proof.
  intros Hds Hd Ha. unfold parseSliceIndex. rewrite Ha.
  destruct (Atoi_digits digits Hd Hds) as [?|(n & ? & ?)]; [congruence|].
  assert (n = idx) as -> by congruence.
  destruct (Z.ltb_spec idx 0); [lia|done].
Qed.

Lemma getOrCreateSlice_view current name elements :
  sliceView current name elements →
  Z.of_nat (size elements) < maxSliceSize →
  ∃ current', getOrCreateSlice current name = Ok (current', elements).
Proof.
  intros [Hc|[Hc ->]] Hs.
  - rewrite (getOrCreateSlice_Some _ _ _ Hc).
    destruct (Z.geb_spec (Z.of_nat (size elements)) maxSliceSize); [lia|eauto].
  - rewrite (getOrCreateSlice_None _ _ Hc). eauto.
Qed.

Lemma getOrCreateSlice_full current name elements :
  current !! name = Some (VMinSlice elements) →
  Z.of_nat (size elements) >= maxSliceSize →
  getOrCreateSlice current name = Err (SliceSizeExceeded maxSliceSize).
Proof.
  intros Hc Hs. rewrite (getOrCreateSlice_Some _ _ _ Hc).
  destruct (Z.geb_spec (Z.of_nat (size elements)) maxSliceSize); [done|lia].
Qed.

(** Writing more distinct indices than the slice has room for ends in the
    size error, in whatever order they come. *)
Lemma decodeURL_loop_index_overflow name items urlData elements depth :
  wordName name →
  Forall (λ it, validIndex it.1) items →
  NoDup ((λ it, strconv.Atoi it.1) <$> items) →
  (∀ it idx, it ∈ items → strconv.Atoi it.1 = Some idx →
             elements !! idx = None) →
  sliceView urlData name elements →
  Z.of_nat (size elements) ≤ maxSliceSize →
  Z.of_nat (size elements + length items) > maxSliceSize →
  decodeURL_loop (indexPairs name items) urlData depth
  = Done (Err (SliceSizeExceeded maxSliceSize)).
Proof.
  intros Hn. revert urlData elements depth.
  induction items as [|[d v] items IH];
    intros urlData elements depth Hvalid Hnd Hfresh Hview Hle Hgt.
  { simpl in Hgt. lia. }
  apply Forall_cons in Hvalid as [(Hd & Hds & [idx Hidx]) Hvalid].
  simpl in Hd, Hds, Hidx.
  rewrite fmap_cons in Hnd. apply NoDup_cons in Hnd as [Hnotin Hnd].
  simpl in Hnotin. unfold indexPairs. rewrite fmap_cons.
  fold (indexPairs name items). simpl.
  rewrite setNestedMapValue_indexKey by done.
  unfold setSliceValue. rewrite (parseSliceIndex_valid _ _ _ idx) by done.
  simpl.
  destruct (Z.ltb_spec (Z.of_nat (size elements)) maxSliceSize) as [Hlt|Hge].
  - destruct (getOrCreateSlice_view _ _ _ Hview Hlt) as [c ->]. simpl.
    assert (elements !! idx = None) as Hnew.
    { apply (Hfresh (d, v)); [left|done]. }
    apply IH with (minSlice.set elements idx (VString v)); try done.
    + intros it idx' Hin Hidx'. unfold minSlice.set.
      rewrite lookup_insert_ne; [by eapply Hfresh; [right|]|].
      intros <-. apply Hnotin. rewrite Hidx, <- Hidx'.
      apply list_elem_of_fmap. eauto.
    + left. by rewrite lookup_insert_eq.
    + unfold minSlice.set. rewrite map_size_insert_None by done. lia.
    + unfold minSlice.set. rewrite map_size_insert_None by done.
      simpl in Hgt. lia.
  - destruct Hview as [Hc|[_ ->]].
    + rewrite (getOrCreateSlice_full _ _ elements) by (done || lia). done.
    + rewrite map_size_empty in Hge. unfold maxSliceSize in Hge. lia.
Qed.

(** C7.  For a word [name] and more than [maxSliceSize] index strings
    with distinct values, decoding the pairs [name[d]=v], in any order,
    fails with the slice-size error.  The error is raised by
    [getOrCreateSlice], on any access to a slice that already holds
    [maxSliceSize] entries, and in every tree built by the decoding loop
    each sparse slice holds at most [maxSliceSize] entries. *)
Theorem slice_size_limit (name : string) (items : list (string * string))
    (Hname : wordName name)
    (Hvalid : Forall (λ it, validIndex it.1) items)
    (Hdistinct : NoDup ((λ it, strconv.Atoi it.1) <$> items))
    (Hmany : Z.of_nat (length items) > maxSliceSize) :
  decodeURL (indexPairs name items)
    = Done (Err (SliceSizeExceeded maxSliceSize))
  ∧ (∀ current sliceName elements,
       current !! sliceName = Some (VMinSlice elements) →
       Z.of_nat (size elements) >= maxSliceSize →
       getOrCreateSlice current sliceName
       = Err (SliceSizeExceeded maxSliceSize))
  ∧ (∀ entries depth urlData,
       decodeURL_loop entries ∅ 0 = Done (Ok (depth, urlData)) →
       sliceBounded (VMap urlData)).
Proof.
  split; [|split].
  - unfold decodeURL.
    rewrite (decodeURL_loop_index_overflow name items ∅ ∅ 0); try done.
    by right.
  - apply getOrCreateSlice_full.
  - intros entries depth urlData. apply decodeURL_loop_bounded.
    apply sliceBounded_empty_map.
Qed.

Lemma slice_size_limit_witness :
  wordName "bigSlice"
  ∧ Forall (λ it, validIndex it.1) bigSliceItems
  ∧ NoDup ((λ it, strconv.Atoi it.1) <$> bigSliceItems)
  ∧ Z.of_nat (length bigSliceItems) > maxSliceSize
  ∧ decodeURL (indexPairs "bigSlice" bigSliceItems)
    = Done (Err (SliceSizeExceeded maxSliceSize)).
Proof.
  assert (wordName "bigSlice") as H1 by (by vm_compute).
  assert (Forall (λ it, validIndex it.1) bigSliceItems) as H2.
  { apply (bool_decide_unpack _). vm_compute. exact I. }
  assert (NoDup ((λ it, strconv.Atoi it.1) <$> bigSliceItems)) as H3.
  { apply (bool_decide_unpack _). vm_compute. exact I. }
  assert (Z.of_nat (length bigSliceItems) > maxSliceSize) as H4
    by (vm_compute; reflexivity).
  repeat (split; [assumption|]).
  exact (proj1 (slice_size_limit "bigSlice" bigSliceItems H1 H2 H3 H4)).
Defined.

(** ** [Atoi] reads back what [%d] prints *)

Lemma parseDigits_uint d acc :
  strconv.parseDigits (NilEmpty.string_of_uint d) acc = Some (uintVal d acc).
Proof.
  revert acc. induction d; intros acc; simpl; try done;
    unfold strconv.digitVal; simpl; apply IHd.
Qed.

Lemma allBytes_isDigit_uint d :
  allBytes strconv.isDigit (NilEmpty.string_of_uint d) = true.
Proof. induction d; simpl; done. Qed.

Lemma uintVal_pos d acc :
  uintVal d (Z.pos acc) = Z.pos (Pos.of_uint_acc d acc).
Proof.
  revert acc. induction d; intros acc; simpl; try done;
    rewrite <- IHd; f_equal; lia.
Qed.

Lemma uintVal_0 d : uintVal d 0 = Z.of_N (Pos.of_uint d).
Proof. induction d; simpl; try done; apply uintVal_pos. Qed.

Lemma Sprintf_d_nonneg i :
  0 ≤ i →
  ∃ c digits, Sprintf_d i = String c digits
    ∧ allBytes strconv.isDigit (Sprintf_d i) = true
    ∧ strconv.parseDigits (Sprintf_d i) 0 = Some i.
Proof.
  intros Hi. unfold Sprintf_d. destruct i as [|p|p]; [by eexists _, _| |lia].
  simpl. pose proof (DecimalPos.Unsigned.of_to p) as Hp.
  pose proof (uintVal_0 (Pos.to_uint p)) as Hv. rewrite Hp in Hv.
  pose proof (parseDigits_uint (Pos.to_uint p) 0) as Hd. rewrite Hv in Hd.
  pose proof (allBytes_isDigit_uint (Pos.to_uint p)) as Ha.
  destruct (Pos.to_uint p) eqn:Hu; try done;
    simpl in *; eexists _, _; done.
Qed.

(** The decimal text of an index is a valid run of digits, and reads
    back as the index. *)
Lemma Atoi_Sprintf_d i :
  0 ≤ i < 2 ^ 63 →
  Sprintf_d i ≠ "" ∧ allBytes strconv.isDigit (Sprintf_d i) = true
  ∧ strconv.Atoi (Sprintf_d i) = Some i.
Proof.
  intros [Hi Hmax]. destruct (Sprintf_d_nonneg i Hi) as (c & ds & Hs & Ha & Hp).
  split; [by rewrite Hs|]. split; [done|].
  unfold strconv.Atoi. rewrite Hs in *. simpl in Ha.
  apply andb_prop in Ha as [Hc _].
  destruct (Ascii.eqb_spec c "-") as [->|_]; [done|].
  destruct (Ascii.eqb_spec c "+") as [->|_]; [done|].
  rewrite Hp. destruct (Z.leb_spec i (2 ^ 63 - 1)); [done|lia].
Qed.

(** ** The walk along a key, segment by segment *)

Lemma getLeaf_empty_map q : getLeaf q (VMap ∅) = None.
Proof. destruct q as [|[k|i] q]; simpl; by rewrite ?lookup_empty. Qed.

Lemma getLeaf_empty_slice q : getLeaf q (VMinSlice ∅) = None.
Proof. destruct q as [|[k|i] q]; simpl; by rewrite ?lookup_empty. Qed.

Lemma getLeaf_mapView current k child q :
  mapView current k child →
  getLeaf (Key k :: q) (VMap current) = getLeaf q (VMap child).
Proof.
  intros [Hc|[Hc ->]]; simpl; rewrite Hc; [done|].
  by rewrite getLeaf_empty_map.
Qed.

Lemma getLeaf_sliceView current k elements q :
  sliceView current k elements →
  getLeaf (Key k :: q) (VMap current) = getLeaf q (VMinSlice elements).
Proof.
  intros [Hc|[Hc ->]]; simpl; rewrite Hc; [done|].
  by rewrite getLeaf_empty_slice.
Qed.

Lemma getLeaf_elemView elements i child q :
  elemView elements i child →
  getLeaf (Idx i :: q) (VMinSlice elements) = getLeaf q (VMap child).
Proof.
  intros [Hc|[Hc ->]]; simpl; rewrite Hc; [done|].
  by rewrite getLeaf_empty_map.
Qed.

Lemma Extends_key current k old new path s :
  (∀ q, getLeaf (Key k :: q) (VMap current) = getLeaf q old) →
  Extends path s old new →
  Extends (Key k :: path) s (VMap current) (VMap (<[k := new]> current)).
Proof.
  intros Hold Hext [|[k'|i] q]; simpl.
  - done.
  - destruct (decide (k' = k)) as [->|Hne].
    + rewrite lookup_insert_eq, Hext.
      destruct (decide (q = path)) as [->|Hq].
      * by rewrite decide_True.
      * rewrite decide_False by congruence. by rewrite <- Hold.
    + rewrite lookup_insert_ne by done. by rewrite decide_False by congruence.
  - done.
Qed.

Lemma Extends_idx elements i old new path s :
  (∀ q, getLeaf (Idx i :: q) (VMinSlice elements) = getLeaf q old) →
  Extends path s old new →
  Extends (Idx i :: path) s (VMinSlice elements)
    (VMinSlice (<[i := new]> elements)).
Proof.
  intros Hold Hext [|[k|i'] q]; simpl.
  - done.
  - done.
  - destruct (decide (i' = i)) as [->|Hne].
    + rewrite lookup_insert_eq, Hext.
      destruct (decide (q = path)) as [->|Hq].
      * by rewrite decide_True.
      * rewrite decide_False by congruence. by rewrite <- Hold.
    + rewrite lookup_insert_ne by done. by rewrite decide_False by congruence.
Qed.

(** A fresh leaf: nothing was reachable below the place it is put. *)
Lemma Extends_leaf old s :
  (∀ q, getLeaf q old = None) → Extends [] s old (VString s).
Proof.
  intros Hold [|st q]; [done|]. rewrite Hold. by destruct st.
Qed.

(** *** What the code does at a word and at [name[i]] *)

Lemma wordName_no_byte name c :
  wordName name → regexp.isWord c = false → strings.Contains name c = false.
Proof. intros [_ Hw] Hc. by eapply allBytes_Contains. Qed.

Lemma wordName_plain k :
  wordName k →
  strings.Contains k "[" = false ∧ regexp.FindStringSubmatch k = None.
Proof.
  intros Hk. pose proof (wordName_no_byte k "[" Hk eq_refl) as Hb.
  split; [done|]. apply FindStringSubmatch_no_brackets. by rewrite Hb.
Qed.

Lemma setFinalValue_name current k v :
  wordName k → current !! k = None →
  setFinalValue current k v = Ok (<[k := v]> current).
Proof.
  intros [Hb Hm]%wordName_plain Hc. unfold setFinalValue.
  by rewrite Hb, Hm, Hc.
Qed.

Lemma getOrCreateSlice_sliceView current k elements :
  sliceView current k elements →
  Z.of_nat (size elements) < maxSliceSize →
  ∃ current0, getOrCreateSlice current k = Ok (current0, elements)
    ∧ current0 !! k = Some (VMinSlice elements)
    ∧ ∀ x, <[k := x]> current0 = <[k := x]> current.
Proof.
  intros [Hc|[Hc ->]] Hs.
  - rewrite (getOrCreateSlice_Some _ _ _ Hc).
    destruct (Z.geb_spec (Z.of_nat (size elements)) maxSliceSize); [lia|].
    by exists current.
  - rewrite (getOrCreateSlice_None _ _ Hc). eexists. split; [done|].
    split; [by rewrite lookup_insert_eq|]. intros x. by rewrite insert_insert_eq.
Qed.

Lemma segment_index_match k i :
  wordName k → 0 ≤ i < 2 ^ 63 →
  strings.Contains (indexKey k (Sprintf_d i)) "[" = true
  ∧ strings.Contains (indexKey k (Sprintf_d i)) "]" = true
  ∧ ∃ whole,
      regexp.FindStringSubmatch (indexKey k (Sprintf_d i))
        = Some [whole; k; Sprintf_d i]
      ∧ parseSliceIndex [whole; k; Sprintf_d i] = Ok (k, i).
Proof.
  intros [Hk Hw] Hi. destruct (Atoi_Sprintf_d i Hi) as (Hd & Hds & Ha).
  pose proof (FindStringSubmatch_canonical_0 k _ Hk Hw Hd Hds) as Hm.
  destruct (FindStringSubmatch_brackets _ _ Hm) as [Hb1 Hb2].
  split; [done|]. split; [done|]. eexists. split; [done|].
  by apply parseSliceIndex_valid.
Qed.

Lemma setFinalValue_index current k i v elements :
  wordName k → 0 ≤ i < 2 ^ 63 →
  sliceView current k elements →
  Z.of_nat (size elements) < maxSliceSize →
  setFinalValue current (indexKey k (Sprintf_d i)) v
  = Ok (<[k := VMinSlice (<[i := v]> elements)]> current).
Proof.
  intros Hk Hi Hview Hsize.
  destruct (segment_index_match k i Hk Hi) as (Hb1 & Hb2 & w & Hm & Hp).
  destruct (getOrCreateSlice_sliceView _ _ _ Hview Hsize)
    as (c0 & Hg & _ & Hins).
  unfold setFinalValue, setSliceValue. rewrite Hb1, Hb2, Hm, Hp. simpl.
  rewrite Hg. simpl. by rewrite Hins.
Qed.

Lemma getIntermediateValue_name current k child :
  wordName k → mapView current k child →
  ∃ current0,
    getIntermediateValue current k = Ok (current0, AtKey k, child)
    ∧ ∀ child', store current0 (AtKey k) child' = <[k := VMap child']> current.
Proof.
  intros [_ Hm]%wordName_plain Hview. unfold getIntermediateValue, getMap.
  rewrite Hm. destruct Hview as [Hc|[Hc ->]]; rewrite Hc.
  - rewrite Hc. simpl. by exists current.
  - rewrite lookup_insert_eq. simpl. eexists. split; [done|].
    intros child'. simpl. by rewrite insert_insert_eq.
Qed.

Lemma getIntermediateValue_index current k i elements child :
  wordName k → 0 ≤ i < 2 ^ 63 →
  sliceView current k elements →
  Z.of_nat (size elements) < maxSliceSize →
  elemView elements i child →
  ∃ current0,
    getIntermediateValue current (indexKey k (Sprintf_d i))
      = Ok (current0, AtIndex k i, child)
    ∧ ∀ child', store current0 (AtIndex k i) child'
                = <[k := VMinSlice (<[i := VMap child']> elements)]> current.
Proof.
  intros Hk Hi Hview Hsize Helem.
  destruct (segment_index_match k i Hk Hi) as (_ & _ & w & Hm & Hp).
  destruct (getOrCreateSlice_sliceView _ _ _ Hview Hsize)
    as (c0 & Hg & _ & Hins).
  unfold getIntermediateValue, createMapIntoSlice. rewrite Hm, Hp. simpl.
  rewrite Hg. simpl. unfold minSlice.get, minSlice.set.
  destruct Helem as [He|[He ->]]; rewrite He.
  - eexists. split; [done|]. intros child'. simpl.
    rewrite lookup_insert_eq, insert_insert_eq. unfold minSlice.set.
    by rewrite Hins.
  - eexists. split; [done|]. intros child'. simpl.
    rewrite lookup_insert_eq, insert_insert_eq. unfold minSlice.set.
    by rewrite insert_insert_eq, Hins.
Qed.

Lemma setNestedMapValue_loop_last current part v depth :
  setNestedMapValue_loop current [part] v depth
  = (int_incr depth, setFinalValue current part v).
Proof. done. Qed.

Lemma setNestedMapValue_loop_cons current part rest v depth :
  rest ≠ [] →
  setNestedMapValue_loop current (part :: rest) v depth
  = match getIntermediateValue current part with
    | Err e => (int_incr depth, Err e)
    | Ok (current0, p, child) =>
        let '(depth', r) :=
          setNestedMapValue_loop child rest v (int_incr depth) in
        (depth', child' ← r; Ok (store current0 p child'))
    end.
Proof. by destruct rest. Qed.

(** *** What the code does at a key that fits *)

Lemma parentKey_inv k :
  parentKey k = true →
  strings.Contains k "." = false ∧ regexp.FindStringSubmatch k = None.
Proof.
  intros [Hdot Hm]%andb_prop. apply negb_true_iff in Hdot, Hm.
  split; [done|]. apply bool_decide_eq_false in Hm.
  destruct (regexp.FindStringSubmatch k); [|done]. by destruct Hm.
Qed.

Lemma plainKey_parentKey k : plainKey k = true → parentKey k = true.
Proof.
  intros [Hdot Hbr]%andb_prop. apply negb_true_iff in Hbr.
  unfold parentKey. rewrite Hdot. simpl.
  by rewrite (FindStringSubmatch_no_brackets _ Hbr).
Qed.

Lemma wordName_parentKey k : wordName k → parentKey k = true.
Proof.
  intros Hk. destruct (wordName_plain k Hk) as [_ Hm]. unfold parentKey.
  by rewrite (wordName_no_byte k "." Hk eq_refl), Hm.
Qed.

Lemma setFinalValue_plain current k v :
  plainKey k = true → current !! k = None →
  setFinalValue current k v = Ok (<[k := v]> current).
Proof.
  intros [_ Hbr]%andb_prop Hc. apply negb_true_iff in Hbr.
  unfold setFinalValue.
  by rewrite Hbr, (FindStringSubmatch_no_brackets _ Hbr), Hc.
Qed.

Lemma getIntermediateValue_parent current k child :
  parentKey k = true → mapView current k child →
  ∃ current0,
    getIntermediateValue current k = Ok (current0, AtKey k, child)
    ∧ ∀ child', store current0 (AtKey k) child' = <[k := VMap child']> current.
Proof.
  intros [_ Hm]%parentKey_inv Hview. unfold getIntermediateValue, getMap.
  rewrite Hm. destruct Hview as [Hc|[Hc ->]]; rewrite Hc.
  - rewrite Hc. simpl. by exists current.
  - rewrite lookup_insert_eq. simpl. eexists. split; [done|].
    intros child'. simpl. by rewrite insert_insert_eq.
Qed.

(** The empty key is stored as the one part [""] would be. *)
Lemma setNestedMapValue_empty_key current v depth current' :
  setFinalValue current "" v = Ok current' →
  setNestedMapValue current "" v depth = (depth, Ok current').
Proof.
  unfold setNestedMapValue, setFinalValue. simpl.
  destruct (current !! ""); [done|]. by intros [= <-].
Qed.

(** ** Index segments are found by substring *)

(** C10.  Whenever the expression matches somewhere in a segment, the
    bytes around the match are dropped: both the final-segment and the
    intermediate-segment code treat the segment exactly as the segment
    [name[digits]] made of the two captured groups.  When the digits are
    read as [idx], the final segment stores the value at index [idx] of
    the slice bound to [name], the intermediate segment descends into the
    map at index [idx] of that slice, and a key that is such a segment
    alone decodes to the one-element slice under [name]: the segment is
    neither stored as a name nor rejected. *)
Theorem index_segment_found_by_substring
    (current : gmap string value) (part whole name digits : string) (v : value)
    (Hmatch : regexp.FindStringSubmatch part = Some [whole; name; digits]) :
  let canonical := name +:+ "[" +:+ digits +:+ "]" in
  (setFinalValue current part v = setFinalValue current canonical v
   ∧ getIntermediateValue current part = getIntermediateValue current canonical)
  ∧ (∀ idx elements,
       strconv.Atoi digits = Some idx →
       sliceView current name elements →
       Z.of_nat (size elements) < maxSliceSize →
       setFinalValue current part v
       = Ok (<[name := VMinSlice (<[idx := v]> elements)]> current)
       ∧ ∀ child, elemView elements idx child →
           ∃ current0,
             getIntermediateValue current part
             = Ok (current0, AtIndex name idx, child)
             ∧ ∀ child', store current0 (AtIndex name idx) child'
                 = <[name := VMinSlice (<[idx := VMap child']> elements)]>
                     current)
  ∧ (∀ idx s vals r,
       strconv.Atoi digits = Some idx →
       strings.Contains part "." = false →
       Decode {[ part := s :: vals ]} r
       ↔ r = Done (Ok {[ name := VSlice [VString s] ]})).
Proof.
  intros canonical.
  pose proof (FindStringSubmatch_brackets _ _ Hmatch) as [Hb1 Hb2].
  pose proof (FindStringSubmatch_Some _ _ Hmatch)
    as (pre & n & d & rest & _ & [= -> -> ->] & Hn & Hw & Hd & Hds).
  pose proof (FindStringSubmatch_canonical_0 n d Hn Hw Hd Hds) as Hc.
  fold canonical in Hc, Hmatch |- *.
  assert (∀ (current : gmap string value) (v : value) idx elements,
    strconv.Atoi d = Some idx →
    sliceView current n elements →
    Z.of_nat (size elements) < maxSliceSize →
    setFinalValue current part v
    = Ok (<[n := VMinSlice (<[idx := v]> elements)]> current)) as Hfinal.
  { intros current' v' idx elements Hidx Hview Hsize.
    destruct (getOrCreateSlice_sliceView _ _ _ Hview Hsize)
      as (c0 & Hg & _ & Hins).
    unfold setFinalValue, setSliceValue. rewrite Hb1, Hb2, Hmatch.
    rewrite (parseSliceIndex_valid _ _ _ idx) by done. simpl.
    rewrite Hg. simpl. by rewrite Hins. }
  split; [|split].
  - unfold setFinalValue, getIntermediateValue. rewrite Hmatch, Hc.
    rewrite Hb1, Hb2.
    destruct (FindStringSubmatch_brackets _ _ Hc) as [-> ->]. done.
  - intros idx elements Hidx Hview Hsize. split; [by apply Hfinal|].
    intros child Helem.
    destruct (getOrCreateSlice_sliceView _ _ _ Hview Hsize)
      as (c0 & Hg & _ & Hins).
    unfold getIntermediateValue, createMapIntoSlice. rewrite Hmatch.
    rewrite (parseSliceIndex_valid _ _ _ idx) by done. simpl.
    rewrite Hg. simpl. unfold minSlice.get, minSlice.set.
    destruct Helem as [He|[He ->]]; rewrite He.
    + eexists. split; [done|]. intros child'. simpl.
      rewrite lookup_insert_eq, insert_insert_eq. unfold minSlice.set.
      by rewrite Hins.
    + eexists. split; [done|]. intros child'. simpl.
      rewrite lookup_insert_eq, insert_insert_eq. unfold minSlice.set.
      by rewrite insert_insert_eq, Hins.
  - intros idx s vals r Hidx Hdot.
    assert (decodeURL [(part, s :: vals)]
            = Done (Ok {[ n := VSlice [VString s] ]})) as Hrun.
    { unfold decodeURL. cbn [decodeURL_loop]. unfold setNestedMapValue.
      rewrite decide_False by (by intros ->).
      rewrite (Split_no_sep _ _ Hdot). cbn [length].
      rewrite setNestedMapValue_loop_last.
      rewrite (Hfinal ∅ (VString s) idx ∅ Hidx) by (by right || done).
      cbn [decodeURL_loop]. f_equal. f_equal.
      unfold convertMinSlicesToRegularSlices.
      rewrite !insert_empty, map_fmap_singleton.
      cbn [convertMinSlicesToRegularSlices_value]. unfold minSlice.toSlice.
      by rewrite map_to_list_singleton. }
    unfold Decode. split.
    + by intros (entries & ->%range_order_singleton & <-).
    + intros ->. exists [(part, s :: vals)].
      split; [by apply range_order_singleton|done].
Qed.

(** The segment [a[0]b] is not of the form [name[digits]]; as a final
    segment it stores its value at index 0 of the slice [a], and as a key
    it decodes to [{"a": ["v"]}]. *)
Lemma index_segment_found_by_substring_witness :
  regexp.FindStringSubmatch "a[0]b" = Some ["a[0]"; "a"; "0"]
  ∧ setFinalValue ∅ "a[0]b" (VString "v")
    = Ok {[ "a" := VMinSlice {[ 0 := VString "v" ]} ]}
  ∧ ∀ r, Decode {[ "a[0]b" := ["v"] ]} r
         ↔ r = Done (Ok {[ "a" := VSlice [VString "v"] ]}).
Proof.
  split; [reflexivity|].
  pose proof (index_segment_found_by_substring ∅ "a[0]b" "a[0]" "a" "0"
                (VString "v") eq_refl) as (_ & Habs & Hdec).
  split.
  - apply (Habs 0 ∅); [reflexivity|right; split; reflexivity|].
    vm_compute. reflexivity.
  - intros r. apply (Hdec 0 "v" [] r); reflexivity.
Defined.

Example decode_index_with_trailing_bytes v vals :
  decodeURL [("a[0]b", v :: vals)] = Done (Ok {[ "a" := VSlice [VString v] ]})
  ∧ decodeURL [("a[0]b", v :: vals)] = decodeURL [("a[0]", v :: vals)].
Proof. split; by vm_compute. Qed.

(** ** Round trip *)

Section RoundTrip.

Context {float64 : Type} (Sprintf_f : float64 → string).

#[local] Abbreviation scalar := (@scalar float64).
#[local] Abbreviation svalue := (@svalue float64).
#[local] Abbreviation reflectValue := (@reflectValue float64).
#[local] Abbreviation reflectData := (@reflectData float64).
#[local] Abbreviation seqFree := (@seqFree float64).
#[local] Abbreviation singleLeaf := (@singleLeaf float64).
#[local] Abbreviation keyFits := (@keyFits float64).
#[local] Abbreviation wellFormed := (@wellFormed float64).
#[local] Abbreviation wellFormedEntries := (@wellFormedEntries float64).
#[local] Abbreviation wellFormedData := (@wellFormedData float64).
#[local] Abbreviation formatScalar := (formatScalar Sprintf_f).
#[local] Abbreviation flatten := (flatten Sprintf_f).
#[local] Abbreviation flattenData := (flattenData Sprintf_f).
#[local] Abbreviation leavesAt := (leavesAt Sprintf_f).
#[local] Abbreviation leavesIn := (leavesIn Sprintf_f).
#[local] Abbreviation Partial := (Partial Sprintf_f).
#[local] Abbreviation matches := (matches Sprintf_f).

Lemma svalue_ind' (P : svalue → Prop) :
  (∀ s, P (SScalar s)) →
  (∀ l, Forall P l → P (SSequence l)) →
  (∀ m, Forall (λ kv, P kv.2) m → P (SMapping m)) →
  ∀ v, P v.
Proof.
  intros Hs Hl Hm. fix IH 1. intros [s|l|m].
  - apply Hs.
  - apply Hl. induction l as [|x l IHl]; constructor; [apply IH|apply IHl].
  - apply Hm. induction m as [|[k x] m IHm]; constructor;
      [apply IH|apply IHm].
Qed.

Lemma setAll_app values l1 l2 :
  setAll values (l1 ++ l2) = setAll (setAll values l1) l2.
Proof. apply foldl_app. Qed.

Lemma encodeValue_flatten v values fieldTag :
  encodeValue Sprintf_f values fieldTag (reflectValue v)
  = Ok (setAll values (flatten fieldTag v)).
Proof.
  revert values fieldTag.
  induction v as [s|l IH|m IH] using svalue_ind'; intros values fieldTag.
  - by destruct s.
  - simpl. unfold encodeSlice. generalize 0 as j. revert values.
    induction IH as [|x l Hx _ IHl]; intros values j; simpl; [done|].
    rewrite Hx. simpl. rewrite IHl. by rewrite setAll_app.
  - simpl. unfold encodeMap. revert values.
    induction IH as [|[k x] m Hx _ IHm]; intros values; simpl; [done|].
    simpl in Hx. unfold fieldPath at 1.
    destruct (decide (fieldTag = "")); rewrite Hx; simpl; rewrite IHm;
      by rewrite setAll_app.
Qed.

Lemma Encode_entries_flatten data :
  Encode_entries Sprintf_f (reflectData data)
  = Ok (setAll ∅ (flattenData data)).
Proof.
  unfold Encode_entries, flattenData. generalize (∅ : gmap string (list string)).
  induction data as [|[k x] data IH]; intros values; simpl; [done|].
  unfold encodeURL. rewrite encodeValue_flatten. simpl. rewrite IH.
  by rewrite setAll_app.
Qed.

(** *** Well-formedness, unfolded *)

Lemma wellFormedEntries_inv root n m :
  wellFormedEntries root n m = true →
  NoDup m.*1
  ∧ ∀ k e, (k, e) ∈ m → keyFits root k e = true ∧ wellFormed n e = true.
Proof.
  unfold wellFormedEntries. intros [Hnd Hall]%andb_prop.
  split; [by apply bool_decide_eq_true_1 in Hnd|].
  intros k e Hin. rewrite forallb_forall in Hall.
  apply list_elem_of_In, Hall in Hin. by apply andb_prop in Hin.
Qed.

Lemma wellFormed_mapping_inv n m :
  wellFormed n (SMapping m) = true →
  ∃ n', n = S n' ∧ m ≠ [] ∧ wellFormedEntries false n' m = true.
Proof.
  destruct n as [|n']; simpl; [done|].
  intros [[Hne Hnd]%andb_prop Hall]%andb_prop.
  exists n'. split; [done|]. split; [by apply bool_decide_eq_true_1 in Hne|].
  unfold wellFormedEntries. by rewrite Hnd, Hall.
Qed.

Lemma wellFormed_sequence_inv n l :
  wellFormed n (SSequence l) = true →
  l ≠ [] ∧ Z.of_nat (length l) ≤ maxSliceSize
  ∧ ∀ (j : nat) x, l !! j = Some x →
      match x with
      | SScalar _ => True
      | SSequence _ => False
      | SMapping m =>
          (Z.of_nat (length l) < maxSliceSize ∨ singleLeaf x = true)
          ∧ seqFree x = true ∧ wellFormed n x = true
      end.
Proof.
  simpl. intros [[[Hne Hlen]%andb_prop Hmap]%andb_prop Hall]%andb_prop.
  apply bool_decide_eq_true_1 in Hne, Hlen.
  split; [done|]. split; [done|]. intros j x Hj.
  rewrite forallb_forall in Hall.
  assert (x ∈ l) as Hin by by eapply list_elem_of_lookup_2.
  pose proof (Hall x (proj1 (list_elem_of_In _ _) Hin)) as Hx.
  destruct x as [s|l'|m]; [done|done|].
  apply andb_prop in Hx as [Hsf Hwf]. split; [|done].
  apply orb_prop in Hmap as [Hlt|Hone];
    [left; by apply bool_decide_eq_true_1 in Hlt|right].
  rewrite forallb_forall in Hone. by apply Hone, list_elem_of_In.
Qed.

Lemma keyFits_segment root k e :
  keyFits root k e = true →
  parentKey k = true
  ∧ match e with
    | SScalar _ => plainKey k = true
    | SSequence _ => wordName k
    | SMapping _ => root = true → k ≠ ""
    end.
Proof.
  destruct e as [sc|l|m]; simpl.
  - intros Hk. split; [by apply plainKey_parentKey|done].
  - intros Hk%bool_decide_eq_true_1. split; [by apply wordName_parentKey|done].
  - intros [Hk Hroot]%andb_prop. split; [done|]. intros ->. simpl in Hroot.
    apply negb_true_iff in Hroot. by apply bool_decide_eq_false in Hroot.
Qed.

(** *** Membership in the lists of leaves *)

Lemma elem_of_concat_mapi {A B} (f : Z → A → list B) i0 l y :
  y ∈ concat (mapi f i0 l) ↔
  ∃ (j : nat) x, l !! j = Some x ∧ y ∈ f (i0 + Z.of_nat j) x.
Proof.
  revert i0. induction l as [|x l IH]; intros i0; simpl.
  - split; [by intros ?%elem_of_nil|]. by intros (j & x & ? & _).
  - rewrite elem_of_app, IH. split.
    + intros [Hy|(j & x' & Hj & Hy)].
      * exists 0%nat, x. by rewrite Z.add_0_r.
      * exists (S j), x'. split; [done|].
        by replace (i0 + Z.of_nat (S j)) with (i0 + 1 + Z.of_nat j) by lia.
    + intros ([|j] & x' & Hj & Hy); simplify_eq/=.
      * left. by rewrite Z.add_0_r in Hy.
      * right. exists j, x'. split; [done|].
        by replace (i0 + 1 + Z.of_nat j) with (i0 + Z.of_nat (S j)) by lia.
Qed.

Lemma elem_of_concat {A} (ls : list (list A)) y :
  y ∈ concat ls ↔ ∃ l, l ∈ ls ∧ y ∈ l.
Proof.
  induction ls as [|l ls IH]; simpl.
  - split; [by intros ?%elem_of_nil|]. by intros (l & ?%elem_of_nil & _).
  - rewrite elem_of_app, IH. split.
    + intros [Hy|(l' & Hl' & Hy)]; [exists l|exists l'];
        (split; [|done]); [left|by right].
    + intros (l' & [->|Hl']%elem_of_cons & Hy); [by left|right; eauto].
Qed.

Lemma elem_of_leavesIn m p s :
  (p, s) ∈ leavesIn m ↔ ∃ k e, (k, e) ∈ m ∧ (p, s) ∈ leavesAt k e.
Proof.
  unfold leavesIn. rewrite elem_of_concat. split.
  - intros (L & (kv & -> & Hkv)%list_elem_of_fmap & Hin).
    destruct kv as [k e]. eauto.
  - intros (k & e & Hin & Hp). eexists. split; [|done].
    apply list_elem_of_fmap. by exists (k, e).
Qed.

Lemma elem_of_leavesAt_scalar k sc p s :
  (p, s) ∈ leavesAt k (SScalar sc) ↔ p = [SegName k] ∧ s = formatScalar sc.
Proof.
  simpl. rewrite list_elem_of_singleton. split; [by intros [= -> ->]|].
  by intros [-> ->].
Qed.

Lemma elem_of_leavesAt_mapping k m p s :
  (p, s) ∈ leavesAt k (SMapping m) ↔
  ∃ p', p = SegName k :: p' ∧ (p', s) ∈ leavesIn m.
Proof.
  simpl. fold (leavesIn m). rewrite list_elem_of_fmap. split.
  - intros ([p' s'] & [= -> ->] & Hin). eauto.
  - intros (p' & -> & Hin). by exists (p', s).
Qed.

Lemma elem_of_leavesAt_sequence k l p s :
  (p, s) ∈ leavesAt k (SSequence l) ↔
  ∃ (j : nat) x, l !! j = Some x ∧
    match x with
    | SScalar sc => p = [SegIndex k (Z.of_nat j)] ∧ s = formatScalar sc
    | SSequence _ => False
    | SMapping m =>
        ∃ p', p = SegIndex k (Z.of_nat j) :: p' ∧ (p', s) ∈ leavesIn m
    end.
Proof.
  simpl. rewrite elem_of_concat_mapi. simpl.
  split; intros (j & x & Hj & Hx); exists j, x; (split; [done|]);
    destruct x as [sc|l'|m].
  - apply list_elem_of_singleton in Hx. by injection Hx as -> ->.
  - by apply elem_of_nil in Hx.
  - fold (leavesIn m) in Hx. apply list_elem_of_fmap in Hx.
    destruct Hx as ([p' s'] & [= -> ->] & Hin). eauto.
  - destruct Hx as [-> ->]. apply list_elem_of_singleton. done.
  - done.
  - destruct Hx as (p' & -> & Hin). fold (leavesIn m).
    apply list_elem_of_fmap. by exists (p', s).
Qed.

(** *** Paths of leaves are valid and render injectively *)

Lemma leavesIn_valid root n m p s :
  wellFormedEntries root n m = true → (p, s) ∈ leavesIn m →
  p ≠ [] ∧ Forall validSegment p ∧ (length p ≤ S n)%nat.
Proof.
  revert root m p. induction n as [|n IH]; intros root m p;
    intros [_ Hm]%wellFormedEntries_inv
           (k & e & [[Hk Hke]%keyFits_segment He]%Hm & Hp)%elem_of_leavesIn;
    destruct e as [sc|l|m'].
  - apply elem_of_leavesAt_scalar in Hp as [-> _].
    repeat split; [done|by apply Forall_singleton|simpl; lia].
  - apply wellFormed_sequence_inv in He as (_ & Hlen & Hl).
    apply elem_of_leavesAt_sequence in Hp as (j & x & Hj & Hp).
    specialize (Hl j x Hj). apply lookup_lt_Some in Hj.
    destruct x as [sc'|l'|m']; [|done|by destruct Hl as (_ & _ & ?)].
    destruct Hp as [-> _].
    repeat split; [done| |simpl; lia].
    apply Forall_singleton. split; [done|lia].
  - by apply wellFormed_mapping_inv in He as (? & ? & _).
  - apply elem_of_leavesAt_scalar in Hp as [-> _].
    repeat split; [done|by apply Forall_singleton|simpl; lia].
  - apply wellFormed_sequence_inv in He as (_ & Hlen & Hl).
    apply elem_of_leavesAt_sequence in Hp as (j & x & Hj & Hp).
    specialize (Hl j x Hj). apply lookup_lt_Some in Hj.
    assert (validSegment (SegIndex k (Z.of_nat j))) as Hseg.
    { split; [done|lia]. }
    destruct x as [sc'|l'|m']; [|done|].
    + destruct Hp as [-> _].
      repeat split; [done|by apply Forall_singleton|simpl; lia].
    + destruct Hp as (p' & -> & Hp'). destruct Hl as (_ & _ & Hwf).
      apply wellFormed_mapping_inv in Hwf as (n' & [= <-] & _ & Hwf).
      destruct (IH _ _ _ Hwf Hp') as (_ & Hv & Hlen').
      repeat split; [done|by constructor|simpl; lia].
  - apply wellFormed_mapping_inv in He as (n' & [= <-] & _ & Hwf).
    apply elem_of_leavesAt_mapping in Hp as (p' & -> & Hp').
    destruct (IH _ _ _ Hwf Hp') as (_ & Hv & Hlen').
    repeat split; [done|by constructor|simpl; lia].
Qed.

Lemma validSegment_render seg :
  validSegment seg → strings.Contains (renderSegment seg) "." = false.
Proof.
  destruct seg as [k|k i]; simpl.
  - by intros [Hk _]%parentKey_inv.
  - intros [Hk Hi]. apply indexKey_no_dot; [done|].
    apply Atoi_Sprintf_d. unfold maxSliceSize in Hi. lia.
Qed.

Lemma Split_joinDot parts :
  parts ≠ [] → Forall (λ part, strings.Contains part "." = false) parts →
  strings.Split (joinDot parts) "." = parts.
Proof.
  intros Hne Hall. induction Hall as [|part parts Hpart Hall IH]; [done|].
  destruct parts as [|part' parts].
  - simpl. by apply Split_no_sep.
  - change (joinDot (part :: part' :: parts))
      with (part +:+ String "." (joinDot (part' :: parts))).
    rewrite Split_app by done. f_equal. by apply IH.
Qed.

Lemma renderSegment_inj a b :
  validSegment a → validSegment b → renderSegment a = renderSegment b → a = b.
Proof.
  assert (∀ k k' i', parentKey k = true → validSegment (SegIndex k' i') →
            k ≠ indexKey k' (Sprintf_d i')) as Hdiff.
  { intros k k' i' [_ Hno]%parentKey_inv [[Hk' Hw'] Hi'] ->.
    unfold maxSliceSize in *.
    destruct (Atoi_Sprintf_d i') as (Hd' & Hds' & _); [lia|].
    pose proof (FindStringSubmatch_canonical_0 k' _ Hk' Hw' Hd' Hds') as Hm'.
    unfold indexKey in Hno. congruence. }
  destruct a as [k|k i], b as [k'|k' i']; simpl.
  - by intros _ _ ->.
  - intros Hk Hb Heq. by destruct (Hdiff k k' i').
  - intros Ha Hk' Heq. by destruct (Hdiff k' k i).
  - intros [[Hk Hw] Hi] [[Hk' Hw'] Hi'] Heq.
    unfold maxSliceSize in *.
    destruct (Atoi_Sprintf_d i) as (Hd & Hds & Ha); [lia|].
    destruct (Atoi_Sprintf_d i') as (Hd' & Hds' & Ha'); [lia|].
    pose proof (FindStringSubmatch_canonical_0 k _ Hk Hw Hd Hds) as Hm.
    pose proof (FindStringSubmatch_canonical_0 k' _ Hk' Hw' Hd' Hds') as Hm'.
    unfold indexKey in Heq. rewrite Heq, Hm' in Hm. congruence.
Qed.

Lemma renderPath_parts p :
  p ≠ [] → Forall validSegment p →
  strings.Split (renderPath p) "." = renderSegment <$> p.
Proof.
  intros Hp Hv. unfold renderPath. apply Split_joinDot; [by destruct p|].
  apply Forall_fmap. eapply Forall_impl; [done|].
  intros seg Hseg. by apply validSegment_render.
Qed.

Lemma renderPath_inj p q :
  p ≠ [] → q ≠ [] → Forall validSegment p → Forall validSegment q →
  renderPath p = renderPath q → p = q.
Proof.
  intros Hp Hq Hvp Hvq Heq.
  assert (renderSegment <$> p = renderSegment <$> q) as Hparts.
  { rewrite <- (renderPath_parts p), <- (renderPath_parts q) by done.
    by rewrite Heq. }
  clear Heq Hp Hq. revert q Hvq Hparts.
  induction Hvp as [|a p Ha Hvp IH]; intros [|b q] Hvq Hparts;
    simplify_eq/=; [done|].
  apply Forall_cons in Hvq as [Hb Hvq].
  f_equal; [by apply renderSegment_inj|by apply IH].
Qed.

(** Only the path of the empty key renders to the empty string. *)
Lemma renderPath_empty p :
  p ≠ [] → Forall validSegment p → renderPath p = "" → p = [SegName ""].
Proof.
  intros Hp Hv Heq. pose proof (renderPath_parts p Hp Hv) as Hparts.
  rewrite Heq in Hparts. simpl in Hparts.
  destruct p as [|seg [|seg' p]]; simplify_eq/=.
  destruct seg as [k|k i]; simpl in *; [by subst|].
  unfold indexKey in *. by destruct k.
Qed.

(** *** The keys [Encode] emits are the rendered paths of the leaves *)

Lemma renderPath_cons seg p :
  p ≠ [] → renderPath (seg :: p) = renderSegment seg +:+ "." +:+ renderPath p.
Proof. by destruct p. Qed.

Lemma fieldPath_nonempty fieldTag key :
  fieldTag ≠ "" ∨ key ≠ "" → fieldPath fieldTag key ≠ "".
Proof.
  intros Hk. unfold fieldPath. case_decide; [by destruct Hk|].
  by destruct fieldTag.
Qed.

Lemma fieldPath_nested fieldTag key rest :
  fieldTag ≠ "" ∨ key ≠ "" →
  fieldPath (fieldPath fieldTag key) rest
  = fieldPath fieldTag (key +:+ "." +:+ rest).
Proof.
  intros Hk. pose proof (fieldPath_nonempty fieldTag key Hk) as Hne.
  unfold fieldPath in *. repeat case_decide; try done.
  by rewrite !string_app_assoc.
Qed.

Lemma indexKey_fieldPath fieldTag name digits :
  indexKey (fieldPath fieldTag name) digits
  = fieldPath fieldTag (indexKey name digits).
Proof.
  unfold indexKey, fieldPath. case_decide; [done|].
  by rewrite !string_app_assoc.
Qed.

Lemma leavesAt_nonempty k e p s : (p, s) ∈ leavesAt k e → p ≠ [].
Proof.
  destruct e as [sc|l|m].
  - by intros [-> _]%elem_of_leavesAt_scalar.
  - intros (j & x & _ & Hx)%elem_of_leavesAt_sequence.
    destruct x as [sc|l'|m]; [by destruct Hx as [-> _]|done|].
    by destruct Hx as (p' & -> & _).
  - by intros (p' & -> & _)%elem_of_leavesAt_mapping.
Qed.

Lemma leavesIn_nonempty m p s : (p, s) ∈ leavesIn m → p ≠ [].
Proof.
  intros (k & e & _ & Hp)%elem_of_leavesIn. by eapply leavesAt_nonempty.
Qed.

Lemma keyed_consPath_Name fieldTag key m :
  fieldTag ≠ "" ∨ key ≠ "" →
  keyed (fieldPath fieldTag key) (leavesIn m)
  = keyed fieldTag (consPath (SegName key) <$> leavesIn m).
Proof.
  intros Hk. unfold keyed. rewrite <- list_fmap_compose.
  apply list_fmap_ext.
  intros i [p s] Hin%list_elem_of_lookup_2%leavesIn_nonempty. simpl.
  by rewrite renderPath_cons, fieldPath_nested.
Qed.

Lemma keyed_consPath_Index fieldTag name idx m :
  keyed "" (consPath (SegName (indexKey (fieldPath fieldTag name) (Sprintf_d idx)))
              <$> leavesIn m)
  = keyed fieldTag (consPath (SegIndex name idx) <$> leavesIn m).
Proof.
  unfold keyed. rewrite <- !list_fmap_compose.
  apply list_fmap_ext.
  intros i [p s] Hin%list_elem_of_lookup_2%leavesIn_nonempty. simpl.
  rewrite !renderPath_cons by done. simpl.
  rewrite indexKey_fieldPath. unfold fieldPath. simpl.
  case_decide; [done|]. by rewrite !string_app_assoc.
Qed.

Lemma flatten_entries fieldTag root n m :
  Forall (λ kv, ∀ n fieldTag k,
            match kv.2 with
            | SMapping _ => fieldTag ≠ "" ∨ k ≠ ""
            | _ => True
            end →
            wellFormed n kv.2 = true →
            flatten (fieldPath fieldTag k) kv.2
            = keyed fieldTag (leavesAt k kv.2)) m →
  fieldTag ≠ "" ∨ root = true →
  (∀ k e, (k, e) ∈ m → keyFits root k e = true ∧ wellFormed n e = true) →
  concat ((λ '(k, e), flatten (fieldPath fieldTag k) e) <$> m)
  = keyed fieldTag (leavesIn m).
Proof.
  intros IH Htag. induction IH as [|[k e] m He _ IHm]; intros Hm; [done|].
  unfold leavesIn, keyed in *. simpl in *. rewrite fmap_app.
  destruct (Hm k e) as [[_ Hk]%keyFits_segment Hwf]; [left|].
  rewrite (He n); [|destruct e; try done; destruct Htag; auto|done].
  f_equal. apply IHm. intros k' e' Hin. apply Hm. by right.
Qed.

Lemma flatten_leavesAt e n fieldTag k :
  match e with
  | SMapping _ => fieldTag ≠ "" ∨ k ≠ ""
  | _ => True
  end →
  wellFormed n e = true →
  flatten (fieldPath fieldTag k) e = keyed fieldTag (leavesAt k e).
Proof.
  revert n fieldTag k.
  induction e as [sc|l IH|m IH] using svalue_ind'; intros n fieldTag k Hk Hwf.
  - done.
  - apply wellFormed_sequence_inv in Hwf as (_ & _ & Hl).
    simpl. generalize 0 as i0. intros i0.
    assert (∀ (j : nat) x, l !! j = Some x →
              match x with
              | SScalar _ => True
              | SSequence _ => False
              | SMapping _ => wellFormed n x = true
              end) as Hl'.
    { intros j x Hj. specialize (Hl j x Hj). destruct x; try done.
      by destruct Hl as (_ & _ & ?). }
    clear Hl. revert i0.
    induction IH as [|x l Hx _ IHl]; intros i0; [done|].
    cbn [mapi concat]. unfold keyed in *. rewrite fmap_app. f_equal.
    + specialize (Hl' 0%nat x eq_refl). destruct x as [sc|l'|m']; [|done|].
      * simpl. by rewrite indexKey_fieldPath.
      * set (K := indexKey (fieldPath fieldTag k) (Sprintf_d i0)).
        assert (flatten K (SMapping m') = keyed "" (leavesAt K (SMapping m')))
          as ->.
        { apply (Hx n "" K); [|done]. right. unfold K.
          by destruct (fieldPath fieldTag k). }
        apply keyed_consPath_Index.
    + apply IHl. intros j x' Hj. by apply (Hl' (S j)).
  - apply wellFormed_mapping_inv in Hwf as (n' & -> & _ & Hwf).
    apply wellFormedEntries_inv in Hwf as [_ Hm].
    change (flatten (fieldPath fieldTag k) (SMapping m))
      with (concat ((λ '(k', e'), flatten (fieldPath (fieldPath fieldTag k) k') e')
                      <$> m)).
    rewrite (flatten_entries _ false n') by
      (done || (left; by apply fieldPath_nonempty)).
    by apply keyed_consPath_Name.
Qed.

Lemma flattenData_leaves n data :
  wellFormedEntries true n data = true →
  flattenData data = keyed "" (leavesIn data).
Proof.
  intros [_ Hm]%wellFormedEntries_inv.
  rewrite <- (flatten_entries "" true n); [done| |by right|done].
  apply Forall_forall. intros kv _ n' tag k. apply flatten_leavesAt.
Qed.

(** *** Partially built trees *)

Lemma NoDup_fst_functional {A B} (m : list (A * B)) k e e' :
  NoDup m.*1 → (k, e) ∈ m → (k, e') ∈ m → e = e'.
Proof.
  induction m as [|[k0 e0] m IH]; intros Hnd Hin Hin'.
  - by apply elem_of_nil in Hin.
  - simpl in Hnd. apply NoDup_cons in Hnd as [Hnotin Hnd].
    apply elem_of_cons in Hin, Hin'.
    destruct Hin as [Heq|Hin], Hin' as [Heq'|Hin']; simplify_eq/=.
    + done.
    + destruct Hnotin. apply list_elem_of_fmap.
      eexists; split; [|eassumption]; done.
    + destruct Hnotin. apply list_elem_of_fmap.
      eexists; split; [|eassumption]; done.
    + by apply IH.
Qed.

Lemma Partial_empty m : Partial (VMap ∅) (SMapping m).
Proof. constructor. intros k x. by rewrite lookup_empty. Qed.

Lemma Partial_mapView u m k m' :
  Partial (VMap u) (SMapping m) → NoDup m.*1 → (k, SMapping m') ∈ m →
  ∃ child, mapView u k child ∧ Partial (VMap child) (SMapping m').
Proof.
  intros Hp Hnd Hin. inversion Hp as [|? ? Hu|]; subst.
  destruct (u !! k) as [x|] eqn:Hk.
  - destruct (Hu k x Hk) as (e & He & Hx).
    rewrite (NoDup_fst_functional _ _ _ _ Hnd He Hin) in Hx.
    inversion Hx; subst. eexists. split; [by left|done].
  - exists ∅. split; [by right|apply Partial_empty].
Qed.

Lemma Partial_sliceView u m k l :
  Partial (VMap u) (SMapping m) → NoDup m.*1 → (k, SSequence l) ∈ m →
  ∃ elements, sliceView u k elements
              ∧ Partial (VMinSlice elements) (SSequence l).
Proof.
  intros Hp Hnd Hin. inversion Hp as [|? ? Hu|]; subst.
  destruct (u !! k) as [x|] eqn:Hk.
  - destruct (Hu k x Hk) as (e & He & Hx).
    rewrite (NoDup_fst_functional _ _ _ _ Hnd He Hin) in Hx.
    inversion Hx; subst. eexists. split; [by left|done].
  - exists ∅. split; [by right|]. constructor. intros i x.
    by rewrite lookup_empty.
Qed.

Lemma Partial_scalarView u m k sc :
  Partial (VMap u) (SMapping m) → NoDup m.*1 → (k, SScalar sc) ∈ m →
  u !! k = None ∨ u !! k = Some (VString (formatScalar sc)).
Proof.
  intros Hp Hnd Hin. inversion Hp as [|? ? Hu|]; subst.
  destruct (u !! k) as [x|] eqn:Hk; [|by left].
  destruct (Hu k x Hk) as (e & He & Hx).
  rewrite (NoDup_fst_functional _ _ _ _ Hnd He Hin) in Hx.
  inversion Hx; subst. by right.
Qed.

Lemma Partial_elemView elements l (j : nat) m' :
  Partial (VMinSlice elements) (SSequence l) → l !! j = Some (SMapping m') →
  ∃ child, elemView elements (Z.of_nat j) child
           ∧ Partial (VMap child) (SMapping m').
Proof.
  intros Hp Hj. inversion Hp as [| |? ? He]; subst.
  destruct (elements !! Z.of_nat j) as [x|] eqn:Hi.
  - destruct (He _ x Hi) as (_ & e & Hl & Hx & _).
    rewrite Nat2Z.id, Hj in Hl. injection Hl as <-.
    inversion Hx; subst. eexists. split; [by left|done].
  - exists ∅. split; [by right|apply Partial_empty].
Qed.

Lemma Partial_elemScalar elements l (j : nat) sc :
  Partial (VMinSlice elements) (SSequence l) → l !! j = Some (SScalar sc) →
  elements !! Z.of_nat j = None
  ∨ elements !! Z.of_nat j = Some (VString (formatScalar sc)).
Proof.
  intros Hp Hj. inversion Hp as [| |? ? He]; subst.
  destruct (elements !! Z.of_nat j) as [x|] eqn:Hi; [|by left].
  destruct (He _ x Hi) as (_ & e & Hl & Hx & _).
  rewrite Nat2Z.id, Hj in Hl. injection Hl as <-.
  inversion Hx; subst. by right.
Qed.

Lemma Partial_elemLeaf elements l i x :
  Partial (VMinSlice elements) (SSequence l) → elements !! i = Some x →
  ∃ q s, getLeaf q x = Some s.
Proof.
  intros Hp Hi. inversion Hp as [| |? ? He]; subst.
  by destruct (He _ x Hi) as (_ & e & _ & _ & Hleaf).
Qed.

Lemma Partial_insert_mapping u m k e x :
  Partial (VMap u) (SMapping m) → (k, e) ∈ m → Partial x e →
  Partial (VMap (<[k := x]> u)) (SMapping m).
Proof.
  intros Hp Hin Hx. inversion Hp as [|? ? Hu|]; subst. constructor.
  intros k' x'. rewrite lookup_insert. case_decide; [|apply Hu].
  intros [= <-]. subst. eauto.
Qed.

Lemma Partial_insert_sequence elements l (j : nat) e x :
  Partial (VMinSlice elements) (SSequence l) → l !! j = Some e →
  Partial x e → (∃ q s, getLeaf q x = Some s) →
  Partial (VMinSlice (<[Z.of_nat j := x]> elements)) (SSequence l).
Proof.
  intros Hp Hj Hx Hleaf. inversion Hp as [| |? ? He]; subst. constructor.
  intros i x'. rewrite lookup_insert. case_decide; [|apply He].
  intros [= <-]. subst. split; [lia|]. rewrite Nat2Z.id. eauto.
Qed.

(** A partial slice holds no more entries than the sequence has
    elements, and fewer when an index of the sequence is missing. *)
Lemma Partial_size elements l :
  Partial (VMinSlice elements) (SSequence l) →
  (size elements ≤ length l)%nat
  ∧ ∀ j : nat, (j < length l)%nat → elements !! Z.of_nat j = None →
               (size elements < length l)%nat.
Proof.
  intros Hp. inversion Hp as [| |? ? He]; subst.
  set (D := list_to_set (seqZ 0 (Z.of_nat (length l))) : gset Z).
  assert (size D = length l) as HD.
  { unfold D. rewrite size_list_to_set by apply NoDup_seqZ.
    rewrite length_seqZ. lia. }
  assert (dom elements ⊆ D) as Hsub.
  { intros i [x Hi]%elem_of_dom. destruct (He i x Hi) as (? & e & Hl & _).
    apply elem_of_list_to_set, elem_of_seqZ.
    apply lookup_lt_Some in Hl. lia. }
  rewrite <- size_dom, <- HD. split; [by apply subseteq_size|].
  intros j Hj Hnone. apply subset_size. split; [done|].
  intros Hsup. assert (Z.of_nat j ∈ dom elements) as Hin.
  { apply Hsup, elem_of_list_to_set, elem_of_seqZ. lia. }
  apply elem_of_dom in Hin as [x Hx]. congruence.
Qed.

(** *** Storing one leaf *)

Lemma stepsOf_Name k p : stepsOf (SegName k :: p) = Key k :: stepsOf p.
Proof. done. Qed.

Lemma stepsOf_Index k i p : stepsOf (SegIndex k i :: p) = Key k :: Idx i :: stepsOf p.
Proof. done. Qed.

(** The one leaf of a value that holds a single scalar. *)
Lemma singleLeaf_getLeaf e k x p s q s0 :
  singleLeaf e = true → Partial x e → (p, s) ∈ leavesAt k e →
  getLeaf q x = Some s0 → stepsOf p = Key k :: q.
Proof.
  revert k x p q.
  induction e as [sc|l IH|m IH] using svalue_ind'; intros k x p q Hone Hp Hin Hq.
  - inversion Hp; subst. apply elem_of_leavesAt_scalar in Hin as [-> _].
    by destruct q as [|[] ?].
  - done.
  - destruct m as [|[k1 e1] [|? ?]]; try done. simpl in Hone.
    apply Forall_inv in IH. simpl in IH.
    inversion Hp as [|u ? Hu|]; subst.
    apply elem_of_leavesAt_mapping in Hin as (p' & -> & Hin').
    apply elem_of_leavesIn in Hin' as (k' & e' & Hke & Hin').
    apply list_elem_of_singleton in Hke. injection Hke as -> ->.
    destruct q as [|[k'|i] q]; simpl in Hq; [done| |done].
    destruct (u !! k') as [x'|] eqn:Hk'; [|done].
    destruct (Hu k' x' Hk') as (e' & Hke & Hx').
    apply list_elem_of_singleton in Hke. injection Hke as -> ->.
    rewrite stepsOf_Name. f_equal. by apply (IH k1 x').
Qed.

(** The walk along the path of a leaf of [m] that the tree does not hold
    yet succeeds, and adds exactly that leaf. *)
Lemma walk_leaf p root n m u s depth :
  wellFormedEntries root n m = true → (p, s) ∈ leavesIn m →
  Partial (VMap u) (SMapping m) →
  getLeaf (stepsOf p) (VMap u) = None →
  ∃ depth' u',
    setNestedMapValue_loop u (renderSegment <$> p) (VString s) depth
      = (depth', Ok u')
    ∧ Partial (VMap u') (SMapping m)
    ∧ Extends (stepsOf p) s (VMap u) (VMap u').
Proof.
  revert root n m u s depth.
  induction p as [|seg p IH]; intros root n m u s depth Hwf Hin Hpart Hnone.
  { by apply leavesIn_nonempty in Hin. }
  pose proof Hwf as [Hnd Hm]%wellFormedEntries_inv.
  apply elem_of_leavesIn in Hin as (k & e & Hke & Hin).
  destruct (Hm k e Hke) as [[Hpk Hk]%keyFits_segment He].
  destruct e as [sc|l|m'].
  - apply elem_of_leavesAt_scalar in Hin as [[= -> ->] ->].
    simpl (renderSegment <$> _). rewrite setNestedMapValue_loop_last.
    destruct (Partial_scalarView _ _ _ _ Hpart Hnd Hke) as [Hu|Hu].
    2: { simpl in Hnone. by rewrite Hu in Hnone. }
    rewrite setFinalValue_plain by done. eexists _, _. split; [done|]. split.
    + apply Partial_insert_mapping with (SScalar sc); [done|done|constructor].
    + apply Extends_key with (VMap ∅).
      * intros q. simpl. rewrite Hu. by rewrite getLeaf_empty_map.
      * apply Extends_leaf. apply getLeaf_empty_map.
  - apply elem_of_leavesAt_sequence in Hin as (j & x & Hj & Hin).
    apply wellFormed_sequence_inv in He as (_ & Hlen & Hl).
    specialize (Hl j x Hj).
    destruct (Partial_sliceView _ _ _ _ Hpart Hnd Hke) as (els & Hview & Hels).
    destruct (Partial_size _ _ Hels) as [Hsz Hszlt].
    pose proof (lookup_lt_Some _ _ _ Hj) as Hjlt.
    assert (0 ≤ Z.of_nat j < 2 ^ 63) as Hj63
      by (unfold maxSliceSize in Hlen; lia).
    destruct x as [sc|l'|m']; [|done|].
    + destruct Hin as [[= -> ->] ->].
      simpl (renderSegment <$> _). rewrite setNestedMapValue_loop_last.
      destruct (Partial_elemScalar _ _ _ _ Hels Hj) as [He|He].
      2: { exfalso. rewrite stepsOf_Index in Hnone.
           rewrite (getLeaf_sliceView _ _ _ _ Hview) in Hnone.
           simpl in Hnone. by rewrite He in Hnone. }
      specialize (Hszlt j Hjlt He).
      rewrite (setFinalValue_index _ _ _ _ els) by (done || lia).
      eexists _, _. split; [done|]. split.
      * apply Partial_insert_mapping with (SSequence l); [done|done|].
        apply Partial_insert_sequence with (SScalar sc);
          [done|done|constructor|by exists [], (formatScalar sc)].
      * apply Extends_key with (VMinSlice els);
          [intros q; by apply getLeaf_sliceView|].
        apply Extends_idx with (VMap ∅).
        -- intros q. simpl. rewrite He. by rewrite getLeaf_empty_map.
        -- apply Extends_leaf, getLeaf_empty_map.
    + destruct Hin as (p' & [= -> ->] & Hin'). destruct Hl as (Hroom & _ & Hwf').
      pose proof (leavesIn_nonempty _ _ _ Hin') as Hp'.
      destruct (Partial_elemView _ _ _ _ Hels Hj) as (c & Hc & Hpc).
      assert (getLeaf (stepsOf p') (VMap c) = None) as Hnone'.
      { rewrite <- Hnone, stepsOf_Index.
        rewrite (getLeaf_sliceView _ _ _ _ Hview).
        by rewrite (getLeaf_elemView _ _ _ _ Hc). }
      assert (Z.of_nat (size els) < maxSliceSize) as Hsize.
      { destruct Hroom as [Hlt|Hone]; [lia|].
        destruct Hc as [Hc|[Hc _]]; [|specialize (Hszlt j Hjlt Hc); lia].
        destruct (Partial_elemLeaf _ _ _ _ Hels Hc) as (q & s0 & Hq).
        assert (stepsOf (SegName k :: p') = Key k :: q) as Heq.
        { apply (singleLeaf_getLeaf (SMapping m') k (VMap c) _ s q s0);
            [done|done| |done].
          apply elem_of_leavesAt_mapping. eauto. }
        rewrite stepsOf_Name in Heq. injection Heq as <-. congruence. }
      apply wellFormed_mapping_inv in Hwf' as (n' & -> & _ & Hwf').
      rewrite fmap_cons.
      rewrite setNestedMapValue_loop_cons by (by destruct p').
      simpl renderSegment.
      destruct (getIntermediateValue_index u k (Z.of_nat j) els c)
        as (u0 & -> & Hstore); [done..|].
      destruct (IH false n' m' c s (int_incr depth) Hwf' Hin' Hpc Hnone')
        as (d' & c' & -> & Hpc' & Hext).
      cbv beta iota delta [mbind result_bind]. rewrite Hstore.
      eexists _, _. split; [done|]. split.
      * apply Partial_insert_mapping with (SSequence l); [done|done|].
        apply Partial_insert_sequence with (SMapping m'); [done|done|done|].
        exists (stepsOf p'), s. rewrite Hext. by rewrite decide_True.
      * apply Extends_key with (VMinSlice els);
          [intros q; by apply getLeaf_sliceView|].
        apply Extends_idx with (VMap c);
          [intros q; by apply getLeaf_elemView|done].
  - apply elem_of_leavesAt_mapping in Hin as (p' & [= -> ->] & Hin').
    apply wellFormed_mapping_inv in He as (n' & -> & _ & Hwf').
    pose proof (leavesIn_nonempty _ _ _ Hin') as Hp'.
    destruct (Partial_mapView _ _ _ _ Hpart Hnd Hke) as (c & Hc & Hpc).
    rewrite fmap_cons.
    rewrite setNestedMapValue_loop_cons by (by destruct p').
    simpl renderSegment.
    destruct (getIntermediateValue_parent u k c Hpk Hc) as (u0 & -> & Hstore).
    destruct (IH false n' m' c s (int_incr depth) Hwf' Hin' Hpc)
      as (d' & c' & -> & Hpc' & Hext).
    { rewrite <- Hnone, stepsOf_Name. by rewrite (getLeaf_mapView _ _ _ _ Hc). }
    cbv beta iota delta [mbind result_bind]. rewrite Hstore.
    eexists _, _. split; [done|]. split.
    + by apply Partial_insert_mapping with (SMapping m').
    + apply Extends_key with (VMap c); [intros q; by apply getLeaf_mapView|done].
Qed.

(** *** Storing all the leaves, in any order *)

Lemma stepsOf_inj p q : stepsOf p = stepsOf q → p = q.
Proof.
  revert q. induction p as [|a p IH]; intros [|b q].
  - done.
  - by destruct b.
  - by destruct a.
  - destruct a as [k|k i], b as [k'|k' i'];
      rewrite ?stepsOf_Name, ?stepsOf_Index; intros Heq; simplify_eq.
    + f_equal. by apply IH.
    + by destruct p as [|[] ?].
    + by destruct q as [|[] ?].
    + f_equal. by apply IH.
Qed.

Lemma leavesAt_head k e p s :
  (p, s) ∈ leavesAt k e → ∃ seg rest, p = seg :: rest ∧ segmentName seg = k.
Proof.
  destruct e as [sc|l|m].
  - intros [-> _]%elem_of_leavesAt_scalar. by eexists _, _.
  - intros (j & x & _ & Hx)%elem_of_leavesAt_sequence.
    destruct x as [sc|l'|m]; [|done|].
    + destruct Hx as [-> _]. by eexists _, _.
    + destruct Hx as (p' & -> & _). by eexists _, _.
  - intros (p' & -> & _)%elem_of_leavesAt_mapping. by eexists _, _.
Qed.

Lemma leavesAt_steps k e p s :
  (p, s) ∈ leavesAt k e → ∃ q, stepsOf p = Key k :: q.
Proof.
  intros (seg & rest & -> & <-)%leavesAt_head.
  destruct seg; rewrite ?stepsOf_Name, ?stepsOf_Index; eauto.
Qed.

(** A path leads to one leaf. *)
Lemma leavesIn_functional p root n m s s' :
  wellFormedEntries root n m = true →
  (p, s) ∈ leavesIn m → (p, s') ∈ leavesIn m → s = s'.
Proof.
  revert root n m. induction p as [|seg p IH]; intros root n m Hwf Hin Hin'.
  { by apply leavesIn_nonempty in Hin. }
  pose proof Hwf as [Hnd Hm]%wellFormedEntries_inv.
  apply elem_of_leavesIn in Hin as (k & e & Hke & Hin).
  apply elem_of_leavesIn in Hin' as (k' & e' & Hke' & Hin').
  destruct (leavesAt_head _ _ _ _ Hin) as (? & ? & [= <- <-] & Hk).
  destruct (leavesAt_head _ _ _ _ Hin') as (? & ? & [= <- <-] & Hk').
  assert (k' = k) as -> by congruence. clear Hk Hk'.
  rewrite (NoDup_fst_functional _ _ _ _ Hnd Hke' Hke) in Hin'. clear Hke' e'.
  destruct (Hm k e Hke) as [_ He].
  destruct e as [sc|l|m'].
  - apply elem_of_leavesAt_scalar in Hin as [_ ->].
    by apply elem_of_leavesAt_scalar in Hin' as [_ ->].
  - apply elem_of_leavesAt_sequence in Hin as (j & x & Hj & Hin).
    apply elem_of_leavesAt_sequence in Hin' as (j' & x' & Hj' & Hin').
    apply wellFormed_sequence_inv in He as (_ & _ & Hl).
    specialize (Hl j x Hj).
    assert (j' = j) as ->.
    { destruct x as [?|?|?], x' as [?|?|?]; try done;
        repeat match goal with
               | H : _ ∧ _ |- _ => destruct H
               | H : ∃ _, _ |- _ => destruct H
               end; simplify_eq; lia. }
    rewrite Hj in Hj'. injection Hj' as <-.
    destruct x as [sc|l'|m']; [|done|].
    + destruct Hin as [_ ->]. by destruct Hin' as [_ ->].
    + destruct Hin as (p1 & Heq1 & Hin). destruct Hin' as (p2 & Heq2 & Hin').
      simplify_eq. destruct Hl as (_ & _ & Hwf').
      apply wellFormed_mapping_inv in Hwf' as (n' & -> & _ & Hwf').
      by eapply IH.
  - apply elem_of_leavesAt_mapping in Hin as (p1 & Heq1 & Hin).
    apply elem_of_leavesAt_mapping in Hin' as (p2 & Heq2 & Hin').
    simplify_eq. apply wellFormed_mapping_inv in He as (n' & -> & _ & Hwf').
    by eapply IH.
Qed.

Lemma setNestedMapValue_leaf p root n m u s depth :
  (S n ≤ Z.to_nat maxRecursionDepth)%nat →
  wellFormedEntries root n m = true → (p, s) ∈ leavesIn m →
  Partial (VMap u) (SMapping m) →
  getLeaf (stepsOf p) (VMap u) = None →
  ∃ depth' u',
    setNestedMapValue u (renderPath p) (VString s) depth = (depth', Ok u')
    ∧ Partial (VMap u') (SMapping m)
    ∧ Extends (stepsOf p) s (VMap u) (VMap u').
Proof.
  intros Hn Hwf Hin Hpart Hnone.
  destruct (leavesIn_valid _ _ _ _ _ Hwf Hin) as (Hne & Hvalid & Hlen).
  destruct (walk_leaf p root n m u s depth Hwf Hin Hpart Hnone)
    as (d' & u' & Hwalk & Hpart' & Hext).
  destruct (decide (renderPath p = "")) as [Hempty|Hfull].
  - rewrite Hempty. apply renderPath_empty in Hempty as ->; [|done..].
    simpl in Hwalk. injection Hwalk as _ Hfinal.
    exists depth, u'. split; [|done].
    by apply setNestedMapValue_empty_key.
  - exists d', u'. split; [|done]. unfold setNestedMapValue.
    rewrite decide_False by done. rewrite renderPath_parts by done.
    rewrite length_fmap.
    by destruct (Z.gtb_spec (Z.of_nat (length p)) maxRecursionDepth); [lia|].
Qed.

Lemma decodeURL_loop_leaves root n m todo u depth :
  (S n ≤ Z.to_nat maxRecursionDepth)%nat →
  wellFormedEntries root n m = true →
  NoDup todo.*1 →
  (∀ p s, (p, s) ∈ todo →
          (p, s) ∈ leavesIn m ∧ getLeaf (stepsOf p) (VMap u) = None) →
  Partial (VMap u) (SMapping m) →
  ∃ depth' u',
    decodeURL_loop (pairOf <$> todo) u depth = Done (Ok (depth', u'))
    ∧ Partial (VMap u') (SMapping m)
    ∧ (∀ q s, getLeaf q (VMap u) = Some s → getLeaf q (VMap u') = Some s)
    ∧ ∀ p s, (p, s) ∈ todo → getLeaf (stepsOf p) (VMap u') = Some s.
Proof.
  intros Hn Hwf. revert u depth.
  induction todo as [|[p s] todo IH]; intros u depth Hnd Htodo Hpart.
  { eexists _, _. split; [done|]. split; [done|]. split; [done|].
    by intros p s ?%elem_of_nil. }
  simpl in Hnd. apply NoDup_cons in Hnd as [Hnotin Hnd].
  destruct (Htodo p s) as [Hleaf Hnone]; [left|].
  destruct (setNestedMapValue_leaf p root n m u s depth Hn Hwf Hleaf Hpart Hnone)
    as (d1 & u1 & Hset & Hpart1 & Hext).
  destruct (IH u1 d1 Hnd) as (d' & u' & Hloop & Hpart' & Hmono & Hall);
    [|done|].
  { intros p' s' Hin'. destruct (Htodo p' s') as [Hleaf' Hnone']; [by right|].
    split; [done|]. rewrite Hext, decide_False; [done|].
    intros Heq%stepsOf_inj. subst p'. apply Hnotin.
    apply list_elem_of_fmap. by exists (p, s'). }
  exists d', u'. split; [|split; [done|split]].
  - simpl. unfold pairOf at 1. simpl. by rewrite Hset.
  - intros q s0 Hq. apply Hmono. rewrite Hext.
    destruct (decide (q = stepsOf p)) as [->|]; [congruence|done].
  - intros p' s' [[= -> ->]|Hin']%elem_of_cons; [|by apply Hall].
    apply Hmono. rewrite Hext. by rewrite decide_True.
Qed.

(** *** The decoded tree against the value *)

Lemma seqFree_convert e x :
  seqFree e = true → Partial x e →
  convertMinSlicesToRegularSlices_value x = x.
Proof.
  revert x. induction e as [sc|l IH|m IH] using svalue_ind'; intros x Hsf Hp.
  - by inversion Hp.
  - done.
  - inversion Hp as [|u ? Hu|]; subst. simpl. f_equal.
    apply map_eq. intros k. rewrite lookup_fmap.
    destruct (u !! k) as [y|] eqn:Hk; [|done]. simpl. f_equal.
    destruct (Hu k y Hk) as (e & Hin & Hy).
    rewrite Forall_forall in IH. apply (IH (k, e)); [done| |done].
    simpl in Hsf. rewrite forallb_forall in Hsf.
    by apply (Hsf (k, e)), list_elem_of_In.
Qed.

Lemma leavesAt_exists e n k :
  wellFormed n e = true → ∃ p s, (p, s) ∈ leavesAt k e.
Proof.
  revert n k. induction e as [sc|l IH|m IH] using svalue_ind'; intros n k Hwf.
  - eexists _, _. by apply elem_of_leavesAt_scalar.
  - apply wellFormed_sequence_inv in Hwf as (Hne & _ & Hl).
    destruct l as [|x l]; [done|]. specialize (Hl 0%nat x eq_refl).
    apply Forall_cons in IH as [Hx _].
    destruct x as [sc|l'|m']; [|done|].
    + eexists _, _. apply elem_of_leavesAt_sequence. by exists 0%nat, (SScalar sc).
    + destruct Hl as (_ & _ & Hwf').
      destruct (Hx n k Hwf') as (p & s & (p' & -> & Hp')%elem_of_leavesAt_mapping).
      eexists _, s. apply elem_of_leavesAt_sequence.
      exists 0%nat, (SMapping m'). split; [done|]. eauto.
  - apply wellFormed_mapping_inv in Hwf as (n' & -> & Hne & Hwf).
    apply wellFormedEntries_inv in Hwf as [_ Hm].
    destruct m as [|[k' e'] m]; [done|].
    apply Forall_cons in IH as [He' _].
    destruct (Hm k' e') as [_ Hwf']; [left|].
    destruct (He' n' k' Hwf') as (p & s & Hp).
    eexists _, s. apply elem_of_leavesAt_mapping. eexists. split; [done|].
    apply elem_of_leavesIn. exists k', e'. split; [left|done].
Qed.

(** A sparse slice that holds a matching element at every index of the
    sequence, and nothing else, converts to a matching slice. *)
Lemma matches_toSlice elements l :
  Partial (VMinSlice elements) (SSequence l) →
  (∀ (j : nat) e, l !! j = Some e →
     ∃ y, elements !! Z.of_nat j = Some y ∧ matches y e) →
  matches (VSlice (minSlice.toSlice elements)) (SSequence l).
Proof.
  intros Hp Hfull. inversion Hp as [| |? ? He]; subst.
  unfold minSlice.toSlice.
  assert (∀ i y, elements !! i = Some y →
            0 ≤ i ∧ ∃ e, l !! Z.to_nat i = Some e ∧ matches y e) as Hel.
  { intros i y Hi. destruct (He i y Hi) as (Hi0 & e & Hl & _).
    split; [done|]. exists e. split; [done|].
    destruct (Hfull _ e Hl) as (y' & Hy' & Hm).
    rewrite Z2Nat.id in Hy' by done. congruence. }
  apply matches_sequence
    with ((λ iy, l !!! Z.to_nat iy.1) <$> map_to_list elements).
  - assert ((map_to_list elements).*1 ≡ₚ seqZ 0 (Z.of_nat (length l))) as Hperm.
    { apply NoDup_Permutation;
        [apply NoDup_fst_map_to_list|apply NoDup_seqZ|].
      intros i. rewrite elem_of_seqZ. split.
      - intros ([i' y] & -> & Hin%elem_of_map_to_list)%list_elem_of_fmap.
        destruct (Hel _ _ Hin) as (? & e & Hl & _).
        apply lookup_lt_Some in Hl. simpl. lia.
      - intros Hi. destruct (lookup_lt_is_Some_2 l (Z.to_nat i)) as [e Hl]; [lia|].
        destruct (Hfull _ e Hl) as (y & Hy & _).
        rewrite Z2Nat.id in Hy by lia.
        apply list_elem_of_fmap. exists (i, y). split; [done|].
        by apply elem_of_map_to_list. }
    trans ((λ i, l !!! Z.to_nat i) <$> (map_to_list elements).*1).
    { by rewrite <- list_fmap_compose. }
    rewrite Hperm.
    assert ((λ i, l !!! Z.to_nat i) <$> seqZ 0 (Z.of_nat (length l)) = l) as ->;
      [|done].
    apply list_eq. intros j. rewrite list_lookup_fmap.
    destruct (decide (j < length l)%nat) as [Hj|Hj].
    + rewrite lookup_seqZ_lt by lia. simpl.
      destruct (lookup_lt_is_Some_2 l j Hj) as [e Hl].
      rewrite Hl. f_equal. apply list_lookup_total_correct.
      by rewrite Z.add_0_l, Nat2Z.id.
    + rewrite lookup_seqZ_ge by lia. simpl. symmetry.
      apply lookup_ge_None. lia.
  - apply Forall2_fmap, Forall_Forall2_diag, Forall_forall.
    intros [i y] Hin%elem_of_map_to_list. simpl.
    destruct (Hel _ _ Hin) as (_ & e & Hl & Hm).
    by rewrite (list_lookup_total_correct _ _ _ Hl).
Qed.

Lemma matches_entries root n m u :
  Forall (λ kv, ∀ n k x,
            wellFormed n kv.2 = true → Partial x kv.2 →
            (∀ p s, (p, s) ∈ leavesAt k kv.2 →
                    ∃ q, stepsOf p = Key k :: q ∧ getLeaf q x = Some s) →
            matches (convertMinSlicesToRegularSlices_value x) kv.2) m →
  wellFormedEntries root n m = true →
  Partial (VMap u) (SMapping m) →
  (∀ p s, (p, s) ∈ leavesIn m → getLeaf (stepsOf p) (VMap u) = Some s) →
  matches (VMap (convertMinSlicesToRegularSlices u)) (SMapping m).
Proof.
  intros IH Hwf Hp Hleaves. pose proof Hwf as [Hnd Hm]%wellFormedEntries_inv.
  inversion Hp as [|? ? Hu|]; subst. unfold convertMinSlicesToRegularSlices.
  constructor.
  - intros k. rewrite lookup_fmap, fmap_None. split.
    + intros Hk ([k' e] & -> & Hin)%list_elem_of_fmap. simpl in *.
      destruct (Hm _ _ Hin) as [_ Hwfe].
      destruct (leavesAt_exists e n k' Hwfe) as (p & s & Hps).
      destruct (leavesAt_steps _ _ _ _ Hps) as [q Hq].
      specialize (Hleaves p s). rewrite Hq in Hleaves. simpl in Hleaves.
      rewrite Hk in Hleaves. discriminate Hleaves.
      apply elem_of_leavesIn. eauto.
    + intros Hnotin. destruct (u !! k) as [x|] eqn:Hk; [|done].
      destruct (Hu k x Hk) as (e & Hin & _). destruct Hnotin.
      apply list_elem_of_fmap. by exists (k, e).
  - intros k y e. rewrite lookup_fmap.
    destruct (u !! k) as [x|] eqn:Hk; [|done]. simpl. intros [= <-] Hin.
    destruct (Hu k x Hk) as (e' & Hin' & Hx).
    rewrite (NoDup_fst_functional _ _ _ _ Hnd Hin' Hin) in Hx.
    rewrite Forall_forall in IH. destruct (Hm _ _ Hin) as [_ Hwfe].
    apply (IH (k, e) Hin n k x Hwfe Hx). intros p s Hps.
    destruct (leavesAt_steps _ _ _ _ Hps) as [q Hq].
    exists q. split; [done|]. specialize (Hleaves p s).
    rewrite Hq in Hleaves. simpl in Hleaves. rewrite Hk in Hleaves.
    apply Hleaves. apply elem_of_leavesIn. eauto.
Qed.

(** A partial tree that holds every leaf of the value converts to a
    matching tree. *)
Lemma matches_complete e n k x :
  wellFormed n e = true → Partial x e →
  (∀ p s, (p, s) ∈ leavesAt k e →
          ∃ q, stepsOf p = Key k :: q ∧ getLeaf q x = Some s) →
  matches (convertMinSlicesToRegularSlices_value x) e.
Proof.
  revert n k x.
  induction e as [sc|l IH|m IH] using svalue_ind'; intros n k x Hwf Hp Hleaves.
  - inversion Hp; subst. constructor.
  - inversion Hp as [| |els ? He]; subst. simpl.
    apply matches_toSlice; [done|]. intros j e Hj.
    apply wellFormed_sequence_inv in Hwf as (_ & _ & Hl).
    specialize (Hl j e Hj). destruct e as [sc|l'|m']; [|done|].
    + destruct (Hleaves [SegIndex k (Z.of_nat j)] (formatScalar sc))
        as (q & Hq & Hg).
      { apply elem_of_leavesAt_sequence. by exists j, (SScalar sc). }
      rewrite stepsOf_Index in Hq. injection Hq as <-. simpl in Hg.
      destruct (els !! Z.of_nat j) as [y|] eqn:Hy; [|done].
      exists y. split; [done|]. destruct y; try done.
      injection Hg as ->. constructor.
    + destruct Hl as (_ & Hsf & Hwf').
      destruct (Partial_elemView _ _ _ _ Hp Hj) as (c & Hc & Hpc).
      destruct (leavesAt_exists (SMapping m') n k Hwf')
        as (p0 & s0 & (p' & -> & Hp')%elem_of_leavesAt_mapping).
      assert (∀ p s, (p, s) ∈ leavesIn m' →
                getLeaf (Idx (Z.of_nat j) :: stepsOf p) (VMinSlice els)
                = Some s) as Hunder.
      { intros p s Hps.
        destruct (Hleaves (SegIndex k (Z.of_nat j) :: p) s) as (q & Hq & Hg).
        { apply elem_of_leavesAt_sequence. exists j, (SMapping m').
          split; [done|]. eauto. }
        rewrite stepsOf_Index in Hq. by injection Hq as <-. }
      destruct Hc as [Hc|[Hc _]].
      2: { specialize (Hunder p' s0 Hp'). simpl in Hunder.
           by rewrite Hc in Hunder. }
      exists (VMap c). split; [done|].
      rewrite <- (seqFree_convert (SMapping m') (VMap c)) by done.
      rewrite Forall_forall in IH.
      apply (IH (SMapping m') (list_elem_of_lookup_2 _ _ _ Hj) n k (VMap c)
               Hwf' Hpc).
      intros p s (p'' & -> & Hp'')%elem_of_leavesAt_mapping.
      exists (stepsOf p''). split; [done|].
      specialize (Hunder p'' s Hp''). simpl in Hunder.
      by rewrite Hc in Hunder.
  - apply wellFormed_mapping_inv in Hwf as (n' & -> & _ & Hwf).
    inversion Hp; subst.
    apply (matches_entries false n' m u IH Hwf Hp). intros p s Hin.
    destruct (Hleaves (SegName k :: p) s) as (q & Hq & Hg).
    { apply elem_of_leavesAt_mapping. eauto. }
    rewrite stepsOf_Name in Hq. by injection Hq as <-.
Qed.

(** *** The collected pairs *)

Lemma setAll_snoc values L k s :
  setAll values (L ++ [(k, s)]) = Values_Set (setAll values L) k s.
Proof. unfold setAll. by rewrite foldl_app. Qed.

Lemma setAll_lookup_inv L key vals :
  setAll ∅ L !! key = Some vals → ∃ s, (key, s) ∈ L ∧ vals = [s].
Proof.
  induction L as [|[k s] L IH] using rev_ind.
  { unfold setAll. simpl. by rewrite lookup_empty. }
  rewrite setAll_snoc. unfold Values_Set. rewrite lookup_insert.
  case_decide as Hk.
  - intros [= <-]. subst. exists s. split; [|done].
    apply elem_of_app. right. left.
  - intros (s' & Hin & ->)%IH. exists s'. split; [|done].
    apply elem_of_app. by left.
Qed.

Lemma setAll_lookup L key s :
  (key, s) ∈ L → (∀ s', (key, s') ∈ L → s' = s) →
  setAll ∅ L !! key = Some [s].
Proof.
  induction L as [|[k s0] L IH] using rev_ind; [by intros ?%elem_of_nil|].
  intros Hin Hfun. rewrite setAll_snoc. unfold Values_Set.
  rewrite lookup_insert. case_decide as Hk.
  - subst. f_equal. f_equal. apply Hfun, elem_of_app. right. left.
  - apply IH.
    + apply elem_of_app in Hin as [Hin|Hin]; [done|].
      apply list_elem_of_singleton in Hin. congruence.
    + intros s' Hs'. apply Hfun, elem_of_app. by left.
Qed.

Lemma list_fmap_exists {A B} (f : A → B) (P : A → Prop) l :
  (∀ y, y ∈ l → ∃ x, P x ∧ y = f x) → ∃ l', l = f <$> l' ∧ Forall P l'.
Proof.
  induction l as [|y l IH]; intros Hl.
  - by exists [].
  - destruct (Hl y) as (x & Hx & ->); [left|].
    destruct IH as (l' & -> & Hl'); [intros y Hy; apply Hl; by right|].
    exists (x :: l'). split; [done|by constructor].
Qed.

(** *** The round trip, for one order of each [range] *)

Lemma keyed_root L :
  keyed "" L = (λ ps, (renderPath ps.1, ps.2)) <$> L.
Proof. done. Qed.

Lemma decodeURL_flatten data entries :
  wellFormedData data = true →
  range_order (setAll ∅ (flattenData data)) entries →
  ∃ tree, decodeURL entries = Done (Ok tree)
          ∧ matches (VMap tree) (SMapping data).
Proof.
  unfold wellFormedData. set (n := Z.to_nat (maxRecursionDepth - 1)).
  intros Hwf Hrange. unfold range_order in Hrange.
  rewrite (flattenData_leaves n) in Hrange by done.
  rewrite keyed_root in Hrange.
  set (L := leavesIn data) in *.
  set (values := setAll ∅ ((λ ps, (renderPath ps.1, ps.2)) <$> L)) in *.
  assert (∀ p s, (p, s) ∈ L → p ≠ [] ∧ Forall validSegment p) as Hvalid.
  { intros p s Hin.
    destruct (leavesIn_valid _ _ _ _ _ Hwf Hin) as (? & ? & _). done. }
  assert (∀ key vals, values !! key = Some vals →
            ∃ ps, ps ∈ L ∧ (key, vals) = pairOf ps) as Hfrom.
  { intros key vals (s & Hin & ->)%setAll_lookup_inv.
    apply list_elem_of_fmap in Hin as ([p s'] & [= -> ->] & Hin).
    by exists (p, s'). }
  assert (∀ p s, (p, s) ∈ L → values !! renderPath p = Some [s]) as Hto.
  { intros p s Hin. apply setAll_lookup.
    - apply list_elem_of_fmap. by exists (p, s).
    - intros s' ([p' s''] & [= Heq ->] & Hin')%list_elem_of_fmap.
      destruct (Hvalid _ _ Hin) as [? ?]. destruct (Hvalid _ _ Hin') as [? ?].
      apply renderPath_inj in Heq; [|done..]. subst p'.
      by eapply leavesIn_functional. }
  destruct (list_fmap_exists pairOf (λ ps, ps ∈ L) entries)
    as (todo & -> & Htodo).
  { intros [key vals] Hin. rewrite Hrange in Hin.
    apply elem_of_map_to_list in Hin. destruct (Hfrom _ _ Hin) as (ps & ? & ?).
    by exists ps. }
  rewrite Forall_forall in Htodo.
  assert (NoDup todo.*1) as Hnd.
  { apply (NoDup_fmap_1 renderPath).
    assert (renderPath <$> todo.*1 = (pairOf <$> todo).*1) as ->.
    { rewrite <- !list_fmap_compose. by apply list_fmap_ext. }
    rewrite Hrange. apply NoDup_fst_map_to_list. }
  destruct (decodeURL_loop_leaves true n data todo ∅ 0)
    as (d' & u' & Hloop & Hpart & _ & Hall).
  - unfold n, maxRecursionDepth. lia.
  - done.
  - done.
  - intros p s Hin. split; [by apply Htodo|apply getLeaf_empty_map].
  - apply Partial_empty.
  - exists (convertMinSlicesToRegularSlices u'). unfold decodeURL.
    rewrite Hloop. split; [done|].
    apply (matches_entries true n); [|done|done|].
    + apply Forall_forall. intros kv _ n0 k x. apply matches_complete.
    + intros p s Hin. apply Hall.
      assert ((renderPath p, [s]) ∈ pairOf <$> todo) as Hin'.
      { rewrite Hrange. apply elem_of_map_to_list. by apply Hto. }
      apply list_elem_of_fmap in Hin' as ([p' s'] & [= Heq ->] & Hin').
      destruct (Hvalid _ _ Hin) as [? ?].
      destruct (Hvalid _ _ (Htodo _ Hin')) as [? ?].
      apply renderPath_inj in Heq; [|done..]. by subst p'.
Qed.

(** *** Orders of the entries of [data] *)

Lemma Permutation_fmap_inv {A B} (f : A → B) l k :
  l ≡ₚ f <$> k → ∃ k', l = f <$> k' ∧ k' ≡ₚ k.
Proof.
  intros Hp. remember (f <$> k) as fk eqn:Hfk. revert k Hfk.
  induction Hp as [|x l l' Hp IH|x y l|l l' l'' Hp1 IH1 Hp2 IH2];
    intros k Hfk.
  - symmetry in Hfk. apply fmap_nil_inv in Hfk as ->. by exists [].
  - symmetry in Hfk. apply fmap_cons_inv in Hfk as (a & k0 & -> & -> & ->).
    destruct (IH k0 eq_refl) as (k1 & -> & Hk1).
    exists (a :: k1). split; [done|by constructor].
  - symmetry in Hfk. apply fmap_cons_inv in Hfk as (a & k0 & -> & Hfk & ->).
    symmetry in Hfk. apply fmap_cons_inv in Hfk as (b & k1 & -> & -> & ->).
    exists (b :: a :: k1). split; [done|apply perm_swap].
  - destruct (IH2 k Hfk) as (k2 & -> & Hk2).
    destruct (IH1 k2 eq_refl) as (k1 & -> & Hk1).
    exists k1. split; [done|by trans k2].
Qed.

Lemma wellFormedEntries_iff root n m :
  wellFormedEntries root n m = true ↔
  NoDup m.*1
  ∧ Forall (λ kv, keyFits root kv.1 kv.2 = true
                  ∧ wellFormed n kv.2 = true) m.
Proof.
  split.
  - intros [Hnd Hm]%wellFormedEntries_inv. split; [done|].
    apply Forall_forall. intros [k e] Hin. by apply Hm.
  - intros [Hnd Hm]. unfold wellFormedEntries.
    rewrite bool_decide_eq_true_2 by done. simpl.
    apply forallb_forall. intros [k e] Hin%list_elem_of_In.
    rewrite Forall_forall in Hm. destruct (Hm _ Hin) as [Hk He].
    simpl in *. by rewrite Hk, He.
Qed.

Lemma wellFormedEntries_Permutation root n m m' :
  m ≡ₚ m' →
  wellFormedEntries root n m = true → wellFormedEntries root n m' = true.
Proof. intros Hp. rewrite !wellFormedEntries_iff. by rewrite Hp. Qed.

Lemma matches_Permutation u m m' :
  m ≡ₚ m' → matches (VMap u) (SMapping m) → matches (VMap u) (SMapping m').
Proof.
  intros Hp Hm. inversion Hm as [| |? ? Hdom Hel]; subst. constructor.
  - intros k. rewrite Hdom. by rewrite Hp.
  - intros k x e Hk Hin. apply (Hel k x e Hk). by rewrite Hp.
Qed.


End RoundTrip.


Lemma nestedSequence_no_match s :
  ¬ matches noFloat (VMap {[ "a" := VSlice [VString s] ]})
      (SMapping nestedSequenceData).
Proof.
  intros Hm. inversion Hm as [| |? ? _ Hel]; subst.
  specialize (Hel "a" _ _ (lookup_singleton_eq _ _) ltac:(left)).
  inversion Hel as [|? ? l' Hl' Hall|]; subst.
  apply Permutation_singleton_r in Hl'. subst l'.
  apply Forall2_cons_1 in Hall as [Hx _]. inversion Hx.
Qed.


(** Keys that are no words and come back as they are: a hyphen, the
    empty key bound to a scalar, brackets that the expression does not
    match, a lone bracket and a space. *)
Example wellFormed_keys :
  wellFormedData [("first-name", @SScalar Empty_set (SString "x"))] = true
  ∧ decodeEncoded [("first-name", SScalar (SString "x"))]
    = Some (Done (Ok {[ "first-name" := VString "x" ]}))
  ∧ wellFormedData [("", @SScalar Empty_set (SBool true))] = true
  ∧ wellFormedData
      [("a]b[", @SMapping Empty_set
                  [("", SScalar (SInt 1)); ("c[", SScalar (SInt 2))])] = true
  ∧ wellFormedData
      [("a", @SSequence Empty_set
               [SMapping [("b c", SScalar (SString "x"));
                          ("d", SMapping [("e", SScalar (SString "y"))])]])]
    = true.
Proof. repeat split; vm_compute; reflexivity. Qed.

(** Values that are not well-formed, each by one condition, and what
    [Decode] makes of their pairs: a name that is no word before a
    sequence; the empty key before a mapping in [data]; a key with a
    '.'; a key with both brackets before a scalar; a key the expression
    matches before a mapping; an empty sequence; an empty mapping; a
    sequence in a mapping in a sequence. *)
Example conditions_needed :
  (wellFormedData [("a-b", @SSequence Empty_set [SScalar (SString "x")])] = false
   ∧ decodeEncoded [("a-b", SSequence [SScalar (SString "x")])]
     = Some (Done (Ok {[ "b" := VSlice [VString "x"] ]})))
  ∧ (wellFormedData
       [("", @SMapping Empty_set [("k", SScalar (SString "x"))])] = false
     ∧ decodeEncoded [("", SMapping [("k", SScalar (SString "x"))])]
       = Some (Done (Ok {[ "k" := VString "x" ]})))
  ∧ (wellFormedData [("a.b", @SScalar Empty_set (SString "x"))] = false
     ∧ decodeEncoded [("a.b", SScalar (SString "x"))]
       = Some (Done (Ok {[ "a" := VMap {[ "b" := VString "x" ]} ]})))
  ∧ (wellFormedData [("a]0[", @SScalar Empty_set (SString "x"))] = false
     ∧ decodeEncoded [("a]0[", SScalar (SString "x"))]
       = Some (Done (Err (InvalidSliceIndex "a]0["))))
  ∧ (wellFormedData
       [("a[0]", @SMapping Empty_set [("b", SScalar (SString "x"))])] = false
     ∧ decodeEncoded [("a[0]", SMapping [("b", SScalar (SString "x"))])]
       = Some (Done (Ok {[ "a" := VSlice [VMap {[ "b" := VString "x" ]}] ]})))
  ∧ (wellFormedData [("a", @SSequence Empty_set [])] = false
     ∧ decodeEncoded [("a", SSequence [])] = Some (Done (Ok ∅)))
  ∧ (wellFormedData [("a", @SMapping Empty_set [])] = false
     ∧ decodeEncoded [("a", SMapping [])] = Some (Done (Ok ∅)))
  ∧ (wellFormedData
       [("a", @SSequence Empty_set
                [SMapping [("b", SSequence [SScalar (SString "x")])]])]
     = false
     ∧ decodeEncoded
         [("a", SSequence [SMapping [("b", SSequence [SScalar (SString "x")])]])]
       = Some (Done (Ok {[ "a" := VSlice
                             [VMap {[ "b" := VMinSlice
                                               {[ 0 := VString "x" ]} ]}] ]}))).
Proof. repeat split; vm_compute; reflexivity. Qed.

(** * Further properties *)

(** ** Only the first value of a key is read *)

Lemma decodeURL_loop_first_value entries urlData depth :
  decodeURL_loop (prod_map id (take 1) <$> entries) urlData depth
  = decodeURL_loop entries urlData depth.
Proof.
  revert urlData depth.
  induction entries as [|[k vals] rest IH]; intros urlData depth; [done|].
  rewrite fmap_cons. destruct vals as [|v0 vals]; [done|]. simpl.
  destruct (setNestedMapValue urlData k (VString v0) depth) as [d [u|e]];
    [apply IH|done].
Qed.

(** X1.  [Decode] reads [value[0]] and nothing else of a value list: the
    possible outcomes for [values] are those for [values] with every list
    cut down to its first element. *)
Theorem Decode_first_value_only (values : gmap string (list string))
    (r : run (gmap string value)) :
  Decode values r ↔ Decode (take 1 <$> values) r.
Proof.
  unfold Decode, range_order. split.
  - intros (entries & Hperm & <-).
    exists (prod_map id (take 1) <$> entries). split.
    + rewrite map_to_list_fmap. by rewrite Hperm.
    + unfold decodeURL. by rewrite decodeURL_loop_first_value.
  - intros (entries & Hperm & <-). rewrite map_to_list_fmap in Hperm.
    apply Permutation_fmap_inv in Hperm as (entries' & -> & Hperm).
    exists entries'. split; [done|].
    unfold decodeURL. by rewrite decodeURL_loop_first_value.
Qed.

(** ** Keys that are stored as they are *)

Lemma setNestedMapValue_plain current key v depth :
  plainKey key = true → current !! key = None →
  ∃ depth', setNestedMapValue current key v depth
            = (depth', Ok (<[key := v]> current)).
Proof.
  intros [Hdot Hbr]%andb_prop Hc.
  apply negb_true_iff in Hdot, Hbr.
  unfold setNestedMapValue. destruct (decide (key = "")) as [->|Hk].
  - rewrite Hc. eauto.
  - rewrite (Split_no_sep _ _ Hdot). simpl. unfold setFinalValue.
    rewrite Hbr, (FindStringSubmatch_no_brackets _ Hbr), Hc. simpl. eauto.
Qed.

Lemma decodeURL_loop_plain entries urlData depth :
  NoDup entries.*1 →
  Forall (λ kv, plainKey kv.1 = true ∧ kv.2 ≠ []) entries →
  (∀ key, key ∈ entries.*1 → urlData !! key = None) →
  ∃ depth',
    decodeURL_loop entries urlData depth
    = Done (Ok (depth',
                list_to_map
                  (prod_map id (λ vals, VString (default "" (head vals)))
                     <$> entries) ∪ urlData)).
Proof.
  revert urlData depth.
  induction entries as [|[k vals] rest IH]; intros urlData depth Hnd Hall Hfresh.
  { exists depth. simpl. by rewrite (left_id_L ∅ (∪)). }
  rewrite fmap_cons in Hnd. apply NoDup_cons in Hnd as [Hk Hnd].
  apply Forall_cons in Hall as [[Hplain Hne] Hall]. simpl in Hk, Hplain, Hne.
  destruct vals as [|v0 vals]; [done|]. simpl.
  destruct (setNestedMapValue_plain urlData k (VString v0) depth Hplain)
    as [d ->]; [apply Hfresh; left|].
  destruct (IH (<[k := VString v0]> urlData) d Hnd Hall) as [d' ->].
  { intros key Hkey. rewrite lookup_insert_ne; [apply Hfresh; by right|].
    by intros <-. }
  exists d'. do 3 f_equal.
  rewrite <- insert_union_r, insert_union_l; [done|].
  apply not_elem_of_list_to_map_1. by rewrite <- list_fmap_compose.
Qed.

Lemma Decode_plain_outcome (values : gmap string (list string)) r :
  (∀ key vals, values !! key = Some vals → plainKey key = true ∧ vals ≠ []) →
  Decode values r →
  ∃ tree, r = Done (Ok tree)
    ∧ ∀ key, tree !! key = values !! key ≫= λ vals, VString <$> head vals.
Proof.
  intros Hplain (entries & Hperm & <-). unfold range_order in Hperm.
  destruct (decodeURL_loop_plain entries ∅ 0) as [d Hloop].
  - rewrite Hperm. apply NoDup_fst_map_to_list.
  - apply Forall_forall. intros [k vals] Hin. apply Hplain.
    apply elem_of_map_to_list. by rewrite <- Hperm.
  - intros key _. apply lookup_empty.
  - unfold decodeURL. rewrite Hloop. eexists. split; [done|]. intros key.
    unfold convertMinSlicesToRegularSlices.
    rewrite (right_id_L ∅ (∪)), lookup_fmap.
    assert (list_to_map entries = values) as Hvalues.
    { rewrite <- (list_to_map_to_list values).
      apply list_to_map_proper; [|done].
      rewrite Hperm. apply NoDup_fst_map_to_list. }
    rewrite list_to_map_fmap, Hvalues, lookup_fmap.
    destruct (values !! key) as [vals|] eqn:Hkey; [|done]. simpl.
    destruct (Hplain key vals Hkey) as [_ Hne]. by destruct vals.
Qed.

(** X2.  When no key of [values] has a '.' or both brackets, and no value
    list is empty, [Decode] returns the map that binds every key to the
    first of its values. *)
Theorem Decode_plain_keys (values : gmap string (list string))
    (Hplain : ∀ key vals, values !! key = Some vals →
                          plainKey key = true ∧ vals ≠ []) :
  (∃ r, Decode values r)
  ∧ ∀ r, Decode values r →
      ∃ tree, r = Done (Ok tree)
        ∧ ∀ key, tree !! key
                 = values !! key ≫= λ vals, VString <$> head vals.
Proof.
  split.
  - eexists. eexists. split; [|done]. by unfold range_order.
  - intros r. by apply Decode_plain_outcome.
Qed.

Lemma Decode_plain_keys_witness :
  (∀ key vals,
     ({[ "attacker<script>" := ["xss"]; "key" := ["first"; "second"];
         "" := ["empty"] ]} : gmap string (list string)) !! key = Some vals →
     plainKey key = true ∧ vals ≠ [])
  ∧ ∀ r, Decode {[ "attacker<script>" := ["xss"];
                   "key" := ["first"; "second"]; "" := ["empty"] ]} r →
      ∃ tree, r = Done (Ok tree)
        ∧ tree !! "key" = Some (VString "first")
        ∧ tree !! "" = Some (VString "empty").
Proof.
  assert (∀ key vals,
     ({[ "attacker<script>" := ["xss"]; "key" := ["first"; "second"];
         "" := ["empty"] ]} : gmap string (list string)) !! key = Some vals →
     plainKey key = true ∧ vals ≠ []) as Hplain.
  { intros key vals Hkey.
    apply lookup_insert_Some in Hkey as [[<- <-]|[_ Hkey]]; [done|].
    apply lookup_insert_Some in Hkey as [[<- <-]|[_ Hkey]]; [done|].
    apply lookup_singleton_Some in Hkey as [<- <-]. done. }
  split; [exact Hplain|]. intros r Hr.
  destruct (proj2 (Decode_plain_keys _ Hplain) r Hr) as (tree & Htree & Hkeys).
  exists tree. split; [exact Htree|]. split; rewrite Hkeys; reflexivity.
Defined.

(** ** Index writes within the size limit *)

Lemma decodeURL_loop_index_pairs name items urlData elements depth :
  wordName name →
  Forall (λ it, validIndex it.1) items →
  NoDup ((λ it, strconv.Atoi it.1) <$> items) →
  (∀ it idx, it ∈ items → strconv.Atoi it.1 = Some idx →
             elements !! idx = None) →
  urlData !! name = Some (VMinSlice elements) →
  Z.of_nat (size elements + length items) ≤ maxSliceSize →
  ∃ depth' elements',
    decodeURL_loop (indexPairs name items) urlData depth
    = Done (Ok (depth', <[name := VMinSlice elements']> urlData))
    ∧ (map_to_list elements').*2
      ≡ₚ (map_to_list elements).*2 ++ (VString <$> items.*2).
Proof.
  intros Hn. revert urlData elements depth.
  induction items as [|[d v] items IH];
    intros urlData elements depth Hvalid Hnd Hfresh Hview Hle.
  { exists depth, elements. simpl. rewrite insert_id by done.
    by rewrite (right_id_L [] (++)). }
  apply Forall_cons in Hvalid as [(Hd & Hds & [idx Hidx]) Hvalid].
  simpl in Hd, Hds, Hidx.
  rewrite fmap_cons in Hnd. apply NoDup_cons in Hnd as [Hnotin Hnd].
  simpl in Hnotin. unfold indexPairs. rewrite fmap_cons.
  fold (indexPairs name items). simpl.
  rewrite setNestedMapValue_indexKey by done.
  unfold setSliceValue. rewrite (parseSliceIndex_valid _ _ _ idx) by done.
  simpl. rewrite (getOrCreateSlice_Some _ _ _ Hview).
  simpl in Hle.
  destruct (Z.geb_spec (Z.of_nat (size elements)) maxSliceSize); [lia|].
  simpl. unfold minSlice.set.
  assert (elements !! idx = None) as Hnew.
  { apply (Hfresh (d, v)); [left|done]. }
  destruct (IH (<[name := VMinSlice (<[idx := VString v]> elements)]> urlData)
              (<[idx := VString v]> elements) (int_incr depth))
    as (d' & elements' & -> & Hperm); try done.
  - intros it idx' Hin Hidx'.
    rewrite lookup_insert_ne; [by eapply Hfresh; [right|]|].
    intros <-. apply Hnotin. rewrite Hidx, <- Hidx'.
    apply list_elem_of_fmap. eauto.
  - by rewrite lookup_insert_eq.
  - rewrite map_size_insert_None by done. lia.
  - exists d', elements'. rewrite insert_insert_eq. split; [done|].
    rewrite Hperm, map_to_list_insert by done. simpl.
    by rewrite Permutation_middle.
Qed.

(** X3.  Writing at most [maxSliceSize] distinct indices of one name, in
    any order and with any gaps between the indices, decodes to a slice
    that holds exactly the written values: the index values themselves
    leave no trace. *)
Theorem decode_index_pairs (name : string) (items : list (string * string))
    (Hname : wordName name)
    (Hvalid : Forall (λ it, validIndex it.1) items)
    (Hdistinct : NoDup ((λ it, strconv.Atoi it.1) <$> items))
    (Hne : items ≠ [])
    (Hfew : Z.of_nat (length items) ≤ maxSliceSize) :
  ∃ l, decodeURL (indexPairs name items) = Done (Ok {[ name := VSlice l ]})
       ∧ l ≡ₚ VString <$> items.*2.
Proof.
  destruct items as [|[d v] items]; [done|].
  apply Forall_cons in Hvalid as [(Hd & Hds & [idx Hidx]) Hvalid].
  simpl in Hd, Hds, Hidx.
  rewrite fmap_cons in Hdistinct. apply NoDup_cons in Hdistinct as [Hnotin Hnd].
  simpl in Hnotin, Hfew.
  unfold decodeURL, indexPairs. rewrite fmap_cons.
  fold (indexPairs name items). simpl.
  rewrite setNestedMapValue_indexKey by done.
  unfold setSliceValue. rewrite (parseSliceIndex_valid _ _ _ idx) by done.
  simpl. rewrite getOrCreateSlice_None by apply lookup_empty. simpl.
  rewrite insert_insert_eq, insert_empty. unfold minSlice.set.
  rewrite insert_empty.
  destruct (decodeURL_loop_index_pairs name items
              {[ name := VMinSlice {[ idx := VString v ]} ]}
              {[ idx := VString v ]} (int_incr 0))
    as (d' & elements' & -> & Hperm); try done.
  - intros it idx' Hin Hidx'. apply lookup_singleton_None.
    intros <-. apply Hnotin. rewrite Hidx, <- Hidx'.
    apply list_elem_of_fmap. eauto.
  - apply lookup_singleton_eq.
  - rewrite map_size_singleton. lia.
  - rewrite insert_singleton_eq.
    unfold convertMinSlicesToRegularSlices. rewrite map_fmap_singleton. simpl.
    eexists. split; [done|]. unfold minSlice.toSlice.
    rewrite Hperm, map_to_list_singleton. done.
Qed.

Lemma decode_index_pairs_witness :
  wordName "sparse"
  ∧ Forall (λ it : string * string, validIndex it.1)
      [("0", "start"); ("1000000", "end")]
  ∧ ∃ l, decodeURL [("sparse[0]", ["start"]); ("sparse[1000000]", ["end"])]
         = Done (Ok {[ "sparse" := VSlice l ]})
         ∧ l ≡ₚ [VString "start"; VString "end"].
Proof.
  assert (wordName "sparse") as H1 by (by vm_compute).
  assert (Forall (λ it : string * string, validIndex it.1)
            [("0", "start"); ("1000000", "end")]) as H2.
  { apply (bool_decide_unpack _). vm_compute. exact I. }
  assert (NoDup ((λ it : string * string, strconv.Atoi it.1)
                   <$> [("0", "start"); ("1000000", "end")])) as H3.
  { apply (bool_decide_unpack _). vm_compute. exact I. }
  split; [exact H1|]. split; [exact H2|].
  apply (decode_index_pairs "sparse" [("0", "start"); ("1000000", "end")]
           H1 H2 H3); [discriminate|vm_compute; discriminate].
Defined.

(** ** Indices beyond the range of [int] *)

Lemma parseDigits_Some ds acc n :
  strconv.parseDigits ds acc = Some n → allBytes strconv.isDigit ds = true.
Proof.
  revert acc. induction ds as [|c ds IH]; intros acc; simpl; [done|].
  destruct (strconv.isDigit c); [|done]. intros H. by rewrite (IH _ H).
Qed.

Lemma Atoi_overflow digits n :
  strconv.parseDigits digits 0 = Some n → 2 ^ 63 ≤ n →
  digits ≠ "" ∧ allBytes strconv.isDigit digits = true
  ∧ strconv.Atoi digits = None.
Proof.
  intros Hn Hbig. pose proof (parseDigits_Some _ _ _ Hn) as Hds.
  destruct digits as [|c ds].
  { simpl in Hn. injection Hn as <-. lia. }
  split; [done|]. split; [done|].
  unfold strconv.Atoi. simpl in Hds. apply andb_prop in Hds as [Hc _].
  destruct (Ascii.eqb_spec c "-") as [->|_]; [done|].
  destruct (Ascii.eqb_spec c "+") as [->|_]; [done|].
  rewrite Hn. destruct (Z.leb_spec n (2 ^ 63 - 1)); [lia|done].
Qed.

(** X4.  An index written with digits only whose value is [2^63] or more
    does not fit an [int]: the segment [name[digits]] is refused with the
    invalid-index error that quotes the digits, as the final segment of a
    key and as an intermediate one, whatever the map holds. *)
Theorem index_beyond_int_range (name digits : string) (n : Z)
    (Hname : wordName name)
    (Hdigits : strconv.parseDigits digits 0 = Some n)
    (Hbig : 2 ^ 63 ≤ n) :
  (∀ current v,
     setFinalValue current (indexKey name digits) v
     = Err (InvalidIndex digits))
  ∧ (∀ current,
       getIntermediateValue current (indexKey name digits)
       = Err (InvalidIndex digits))
  ∧ (∀ v vals rest,
       decodeURL ((indexKey name digits, v :: vals) :: rest)
       = Done (Err (InvalidIndex digits))).
Proof.
  destruct (Atoi_overflow digits n Hdigits Hbig) as (Hne & Hds & Hatoi).
  destruct Hname as [Hn Hw].
  pose proof (FindStringSubmatch_canonical_0 name digits Hn Hw Hne Hds) as Hm.
  fold (indexKey name digits) in Hm.
  destruct (FindStringSubmatch_brackets _ _ Hm) as [Hb1 Hb2].
  assert (∀ current v,
     setFinalValue current (indexKey name digits) v
     = Err (InvalidIndex digits)) as Hfinal.
  { intros current v. unfold setFinalValue, setSliceValue, parseSliceIndex.
    by rewrite Hb1, Hb2, Hm, Hatoi. }
  split; [exact Hfinal|]. split.
  - intros current.
    unfold getIntermediateValue, createMapIntoSlice, parseSliceIndex.
    by rewrite Hm, Hatoi.
  - intros v vals rest. unfold decodeURL. simpl.
    rewrite setNestedMapValue_indexKey by done.
    unfold setSliceValue, parseSliceIndex. by rewrite Hatoi.
Qed.

Lemma index_beyond_int_range_witness :
  wordName "list"
  ∧ strconv.parseDigits "9223372036854775808" 0 = Some (2 ^ 63)
  ∧ decodeURL [("list[9223372036854775808]", ["value"])]
    = Done (Err (InvalidIndex "9223372036854775808")).
Proof.
  assert (wordName "list") as H1 by (by vm_compute).
  assert (strconv.parseDigits "9223372036854775808" 0 = Some (2 ^ 63)) as H2
    by (vm_compute; reflexivity).
  split; [exact H1|]. split; [exact H2|].
  apply (index_beyond_int_range "list" "9223372036854775808" (2 ^ 63) H1 H2).
  lia.
Defined.

(** ** One name, two uses *)

Lemma range_order_pair `{Countable K} {V} (k1 k2 : K) (v1 v2 : V) l :
  k1 ≠ k2 →
  range_order ({[ k1 := v1; k2 := v2 ]} : gmap K V) l
  ↔ l = [(k1, v1); (k2, v2)] ∨ l = [(k2, v2); (k1, v1)].
Proof.
  intros Hne. unfold range_order.
  rewrite map_to_list_insert, map_to_list_singleton
    by by apply lookup_singleton_None.
  split.
  - intros Hl. symmetry in Hl. by apply Permutation_length_2_inv in Hl.
  - intros [->| ->]; [done|apply perm_swap].
Qed.

Lemma Decode_pair k1 k2 v1 v2 r :
  k1 ≠ k2 →
  Decode {[ k1 := v1; k2 := v2 ]} r
  ↔ r = decodeURL [(k1, v1); (k2, v2)] ∨ r = decodeURL [(k2, v2); (k1, v1)].
Proof.
  intros Hne. unfold Decode. split.
  - intros (l & Hl & <-).
    apply range_order_pair in Hl as [->| ->]; auto.
  - intros [->| ->]; eexists; (split; [|done]); apply range_order_pair; auto.
Qed.

Lemma setNestedMapValue_word current k v depth :
  wordName k →
  setNestedMapValue current k v depth
  = (int_incr depth,
     match current !! k with
     | Some _ => Err (ConflictingKey k)
     | None => Ok (<[k := v]> current)
     end).
Proof.
  intros Hk. pose proof (wordName_no_byte k "." Hk eq_refl) as Hdot.
  destruct (wordName_plain k Hk) as [Hb Hm].
  unfold setNestedMapValue. destruct (decide (k = "")) as [->|_].
  { by destruct Hk. }
  rewrite (Split_no_sep _ _ Hdot). simpl. unfold setFinalValue.
  by rewrite Hb, Hm.
Qed.

Lemma setNestedMapValue_nested current k j v depth :
  wordName k → wordName j →
  setNestedMapValue current (k +:+ "." +:+ j) v depth
  = match getIntermediateValue current k with
    | Err e => (int_incr depth, Err e)
    | Ok (current0, p, child) =>
        (int_incr (int_incr depth),
         child' ← setFinalValue child j v; Ok (store current0 p child'))
    end.
Proof.
  intros Hk Hj. pose proof (wordName_no_byte k "." Hk eq_refl) as Hdot.
  pose proof (wordName_no_byte j "." Hj eq_refl) as Hdot'.
  unfold setNestedMapValue. destruct (decide _) as [He|_].
  { destruct Hk as [Hk _]. by destruct k. }
  change (k +:+ "." +:+ j) with (k +:+ String "." j).
  rewrite (Split_app _ _ _ Hdot), (Split_no_sep _ _ Hdot'). simpl.
  by destruct (getIntermediateValue current k) as [[[c p] child]|e].
Qed.

Lemma word_ne_nested k j : wordName k → k ≠ k +:+ "." +:+ j.
Proof.
  intros Hk Heq. pose proof (wordName_no_byte k "." Hk eq_refl) as Hdot.
  rewrite Heq, Contains_app in Hdot. simpl in Hdot.
  by rewrite orb_true_r in Hdot.
Qed.

Lemma word_ne_indexKey k digits : wordName k → k ≠ indexKey k digits.
Proof.
  intros Hk Heq. pose proof (wordName_no_byte k "[" Hk eq_refl) as Hb.
  rewrite Heq in Hb. unfold indexKey in Hb. rewrite Contains_app in Hb.
  simpl in Hb. by rewrite orb_true_r in Hb.
Qed.

(** X5.  A name bound to a value by one key and used as the parent of a
    nested key by another makes [Decode] fail whatever the order of the
    two pairs; the order decides which of two errors is returned. *)
Theorem leaf_and_parent_conflict (k j x y : string) (xs ys : list string)
    (r : run (gmap string value))
    (Hk : wordName k) (Hj : wordName j) :
  Decode {[ k := x :: xs; k +:+ "." +:+ j := y :: ys ]} r
  ↔ r = Done (Err (TypeConflictMap TString))
    ∨ r = Done (Err (ConflictingKey k)).
Proof.
  rewrite Decode_pair by by apply word_ne_nested.
  assert (decodeURL [(k, x :: xs); (k +:+ "." +:+ j, y :: ys)]
          = Done (Err (TypeConflictMap TString))) as ->.
  { unfold decodeURL. simpl.
    rewrite setNestedMapValue_word, lookup_empty by done.
    rewrite setNestedMapValue_nested by done.
    destruct (wordName_plain k Hk) as [_ Hm].
    unfold getIntermediateValue, getMap.
    by rewrite Hm, insert_empty, !lookup_singleton_eq. }
  assert (decodeURL [(k +:+ "." +:+ j, y :: ys); (k, x :: xs)]
          = Done (Err (ConflictingKey k))) as ->.
  { unfold decodeURL. simpl.
    rewrite setNestedMapValue_nested by done.
    destruct (getIntermediateValue_name ∅ k ∅ Hk) as (c0 & -> & Hstore).
    { right. split; [apply lookup_empty|done]. }
    rewrite setFinalValue_name by (done || apply lookup_empty).
    cbv beta iota delta [mbind result_bind].
    rewrite Hstore, setNestedMapValue_word by done.
    by rewrite lookup_insert_eq. }
  done.
Qed.

Lemma leaf_and_parent_conflict_witness :
  wordName "person" ∧ wordName "name"
  ∧ (Decode {[ "person" := ["value"]; "person.name" := ["John"] ]}
       (Done (Err (TypeConflictMap TString)))
     ∧ Decode {[ "person" := ["value"]; "person.name" := ["John"] ]}
         (Done (Err (ConflictingKey "person"))))
  ∧ ∀ tree, ¬ Decode {[ "person" := ["value"]; "person.name" := ["John"] ]}
                (Done (Ok tree)).
Proof.
  assert (wordName "person") as H1 by (by vm_compute).
  assert (wordName "name") as H2 by (by vm_compute).
  split; [exact H1|]. split; [exact H2|].
  pose proof (λ r, leaf_and_parent_conflict "person" "name" "value" "John"
                     [] [] r H1 H2) as Hiff.
  split; [split; apply Hiff; [left|right]; reflexivity|].
  intros tree Hr. apply Hiff in Hr. destruct Hr; discriminate.
Defined.

(** X6.  A name written with an index by one key and without an index by
    another makes [Decode] fail whatever the order of the two pairs, both
    when the other key binds the name to a value and when it uses the
    name as the parent of a nested key. *)
Theorem index_and_plain_conflict (k j digits x y : string)
    (xs ys : list string) (r : run (gmap string value))
    (Hk : wordName k) (Hj : wordName j) (Hdigits : validIndex digits) :
  (Decode {[ k := x :: xs; indexKey k digits := y :: ys ]} r
   ↔ r = Done (Err (TypeConflictSlice TString))
     ∨ r = Done (Err (ConflictingKey k)))
  ∧ (Decode {[ k +:+ "." +:+ j := x :: xs; indexKey k digits := y :: ys ]} r
     ↔ r = Done (Err (TypeConflictSlice TMap))
       ∨ r = Done (Err (TypeConflictMap TMinSlicePtr))).
Proof.
  destruct Hdigits as (Hd & Hds & [idx Hidx]).
  assert (∀ current v depth,
    setNestedMapValue current (indexKey k digits) v depth
    = (int_incr depth,
       '(current0, slice) ← getOrCreateSlice current k;
       Ok (<[k := VMinSlice (<[idx := v]> slice)]> current0))) as Hindex.
  { intros current v depth. rewrite setNestedMapValue_indexKey by done.
    unfold setSliceValue. by rewrite (parseSliceIndex_valid _ _ _ idx). }
  split.
  - rewrite Decode_pair by by apply word_ne_indexKey.
    assert (decodeURL [(k, x :: xs); (indexKey k digits, y :: ys)]
            = Done (Err (TypeConflictSlice TString))) as ->.
    { unfold decodeURL. simpl.
      rewrite setNestedMapValue_word, lookup_empty by done.
      rewrite Hindex. unfold getOrCreateSlice.
      by rewrite insert_empty, !lookup_singleton_eq. }
    assert (decodeURL [(indexKey k digits, y :: ys); (k, x :: xs)]
            = Done (Err (ConflictingKey k))) as ->.
    { unfold decodeURL. simpl.
      rewrite Hindex, getOrCreateSlice_None by apply lookup_empty. simpl.
      rewrite setNestedMapValue_word by done. by rewrite lookup_insert_eq. }
    done.
  - assert (k +:+ "." +:+ j ≠ indexKey k digits) as Hne.
    { intros Heq. pose proof (indexKey_no_dot k digits Hk Hds) as Hdot.
      rewrite <- Heq, Contains_app in Hdot. simpl in Hdot.
      by rewrite orb_true_r in Hdot. }
    rewrite Decode_pair by done.
    assert (decodeURL [(k +:+ "." +:+ j, x :: xs); (indexKey k digits, y :: ys)]
            = Done (Err (TypeConflictSlice TMap))) as ->.
    { unfold decodeURL. simpl.
      rewrite setNestedMapValue_nested by done.
      destruct (getIntermediateValue_name ∅ k ∅ Hk) as (c0 & -> & Hstore).
      { right. split; [apply lookup_empty|done]. }
      rewrite setFinalValue_name by (done || apply lookup_empty).
      cbv beta iota delta [mbind result_bind].
      rewrite Hstore, Hindex. unfold getOrCreateSlice.
      by rewrite !lookup_insert_eq. }
    assert (decodeURL [(indexKey k digits, y :: ys); (k +:+ "." +:+ j, x :: xs)]
            = Done (Err (TypeConflictMap TMinSlicePtr))) as ->.
    { unfold decodeURL. simpl.
      rewrite Hindex, getOrCreateSlice_None by apply lookup_empty. simpl.
      rewrite setNestedMapValue_nested by done.
      destruct (wordName_plain k Hk) as [_ Hm].
      unfold getIntermediateValue, getMap.
      by rewrite Hm, !lookup_insert_eq. }
    done.
Qed.

Lemma index_and_plain_conflict_witness :
  wordName "item" ∧ wordName "sub" ∧ validIndex "0"
  ∧ (∀ tree, ¬ Decode {[ "item" := ["scalar"]; "item[0]" := ["first"] ]}
                 (Done (Ok tree)))
  ∧ (∀ tree, ¬ Decode {[ "item.sub" := ["nested"]; "item[0]" := ["first"] ]}
                 (Done (Ok tree))).
Proof.
  assert (wordName "item") as H1 by (by vm_compute).
  assert (wordName "sub") as H2 by (by vm_compute).
  assert (validIndex "0") as H3.
  { apply (bool_decide_unpack _). vm_compute. exact I. }
  split; [exact H1|]. split; [exact H2|]. split; [exact H3|].
  split; intros tree Hr.
  - apply (proj1 (index_and_plain_conflict "item" "sub" "0" "scalar" "first"
                    [] [] _ H1 H2 H3)) in Hr.
    destruct Hr; discriminate.
  - apply (proj2 (index_and_plain_conflict "item" "sub" "0" "nested" "first"
                    [] [] _ H1 H2 H3)) in Hr.
    destruct Hr; discriminate.
Defined.

(** ** The empty key *)

(** X7.  The empty key is stored under [""] without being split, and a
    key that starts with a '.' uses [""] as the parent of a nested key:
    with both in [values], [Decode] fails whatever the order of the two
    pairs, and the order decides whether it is for the conflicting empty
    key or for the string found where a map is expected. *)
Theorem empty_key_conflict (j x y : string) (xs ys : list string)
    (r : run (gmap string value)) (Hj : wordName j) :
  Decode {[ "" := x :: xs; "." +:+ j := y :: ys ]} r
  ↔ r = Done (Err (TypeConflictMap TString))
    ∨ r = Done (Err ConflictingEmptyKey).
Proof.
  rewrite Decode_pair by done.
  pose proof (wordName_no_byte j "." Hj eq_refl) as Hdot.
  assert (∀ current v depth,
    setNestedMapValue current ("." +:+ j) v depth
    = match getIntermediateValue current "" with
      | Err e => (int_incr depth, Err e)
      | Ok (current0, p, child) =>
          (int_incr (int_incr depth),
           child' ← setFinalValue child j v; Ok (store current0 p child'))
      end) as Hnested.
  { intros current v depth. unfold setNestedMapValue.
    change ("." +:+ j) with ("" +:+ String "." j).
    rewrite Split_app, (Split_no_sep _ _ Hdot) by done. simpl.
    by destruct (getIntermediateValue current "") as [[[c p] child]|e]. }
  assert (∀ current v depth,
    setNestedMapValue current "" v depth
    = match current !! "" with
      | Some _ => (depth, Err ConflictingEmptyKey)
      | None => (depth, Ok (<["" := v]> current))
      end) as Hempty by done.
  assert (decodeURL [("", x :: xs); ("." +:+ j, y :: ys)]
          = Done (Err (TypeConflictMap TString))) as ->.
  { unfold decodeURL. cbn [decodeURL_loop].
    rewrite Hempty, lookup_empty, Hnested.
    unfold getIntermediateValue, getMap.
    change (regexp.FindStringSubmatch "") with (@None (list string)).
    by rewrite !lookup_insert_eq. }
  assert (decodeURL [("." +:+ j, y :: ys); ("", x :: xs)]
          = Done (Err ConflictingEmptyKey)) as ->.
  { unfold decodeURL. cbn [decodeURL_loop].
    rewrite Hnested. unfold getIntermediateValue, getMap.
    change (regexp.FindStringSubmatch "") with (@None (list string)).
    rewrite lookup_empty, lookup_insert_eq.
    cbv beta iota delta [mbind result_bind].
    rewrite setFinalValue_name by (done || apply lookup_empty).
    cbn [store]. by rewrite Hempty, lookup_insert_eq. }
  done.
Qed.

Lemma empty_key_conflict_witness :
  wordName "a"
  ∧ Decode {[ "" := ["empty"]; ".a" := ["nested"] ]}
      (Done (Err ConflictingEmptyKey))
  ∧ ∀ tree, ¬ Decode {[ "" := ["empty"]; ".a" := ["nested"] ]} (Done (Ok tree)).
Proof.
  assert (wordName "a") as H by (by vm_compute).
  split; [exact H|].
  pose proof (λ r, empty_key_conflict "a" "empty" "nested" [] [] r H) as Hiff.
  split; [apply Hiff; right; reflexivity|].
  intros tree Hr. apply Hiff in Hr. destruct Hr; discriminate.
Defined.

(** ** Two spellings of one index *)

Lemma indexKey_inj name d1 d2 :
  allBytes strconv.isDigit d1 = true → allBytes strconv.isDigit d2 = true →
  indexKey name d1 = indexKey name d2 → d1 = d2.
Proof.
  intros H1 H2. unfold indexKey. induction name as [|c name IH].
  - rewrite !string_app_nil_l, !string_app_cons. intros [= Heq].
    revert d2 H2 Heq. induction d1 as [|a d1 IHd]; intros [|b d2] H2; simpl;
      rewrite ?string_app_cons, ?string_app_nil_l.
    + done.
    + intros [= <- _]. simpl in H2. done.
    + intros [= -> _]. simpl in H1. done.
    + intros [= -> Heq]. f_equal. simpl in H1, H2.
      apply andb_prop in H1 as [_ H1], H2 as [_ H2]. by apply IHd.
  - rewrite !string_app_cons. intros [= Heq]. by apply IH.
Qed.

(** X8.  Two different index strings with the same value, such as [0]
    and [00], name the same element: of two pairs that write it for one
    name the one processed last wins, so the slice [Decode] returns holds
    one of the two values, and which one depends on the order of the
    pairs. *)
Theorem same_index_two_spellings (name d1 d2 x y : string)
    (xs ys : list string) (r : run (gmap string value))
    (Hname : wordName name)
    (Hd1 : validIndex d1) (Hd2 : validIndex d2)
    (Hne : d1 ≠ d2)
    (Hsame : strconv.Atoi d1 = strconv.Atoi d2) :
  Decode {[ indexKey name d1 := x :: xs; indexKey name d2 := y :: ys ]} r
  ↔ r = Done (Ok {[ name := VSlice [VString y] ]})
    ∨ r = Done (Ok {[ name := VSlice [VString x] ]}).
Proof.
  destruct Hd1 as (Hn1 & Hds1 & [idx Hidx1]).
  destruct Hd2 as (Hn2 & Hds2 & _).
  assert (strconv.Atoi d2 = Some idx) as Hidx2 by by rewrite <- Hsame.
  rewrite Decode_pair by (intros Heq; by apply indexKey_inj in Heq).
  assert (∀ da db a b as_ bs,
    da ≠ "" → allBytes strconv.isDigit da = true → strconv.Atoi da = Some idx →
    db ≠ "" → allBytes strconv.isDigit db = true → strconv.Atoi db = Some idx →
    decodeURL [(indexKey name da, a :: as_); (indexKey name db, b :: bs)]
    = Done (Ok {[ name := VSlice [VString b] ]})) as Horder.
  { intros da db a b as_ bs Hna Hda Hia Hnb Hdb Hib.
    unfold decodeURL. simpl.
    rewrite setNestedMapValue_indexKey by done.
    unfold setSliceValue. rewrite (parseSliceIndex_valid _ _ _ idx) by done.
    simpl. rewrite getOrCreateSlice_None by apply lookup_empty. simpl.
    rewrite setNestedMapValue_indexKey by done.
    unfold setSliceValue. rewrite (parseSliceIndex_valid _ _ _ idx) by done.
    simpl. unfold minSlice.set.
    rewrite (getOrCreateSlice_Some _ _ (<[idx := VString a]> ∅))
      by by rewrite lookup_insert_eq.
    rewrite insert_empty, map_size_singleton. simpl.
    rewrite !insert_insert_eq, insert_empty, insert_singleton_eq.
    unfold convertMinSlicesToRegularSlices.
    rewrite map_fmap_singleton. simpl. unfold minSlice.toSlice.
    by rewrite map_to_list_singleton. }
  by rewrite !Horder.
Qed.

Lemma same_index_two_spellings_witness :
  wordName "a" ∧ validIndex "0" ∧ validIndex "00"
  ∧ strconv.Atoi "0" = strconv.Atoi "00"
  ∧ Decode {[ "a[0]" := ["x"]; "a[00]" := ["y"] ]}
      (Done (Ok {[ "a" := VSlice [VString "y"] ]}))
  ∧ Decode {[ "a[0]" := ["x"]; "a[00]" := ["y"] ]}
      (Done (Ok {[ "a" := VSlice [VString "x"] ]})).
Proof.
  assert (wordName "a") as H1 by (by vm_compute).
  assert (validIndex "0") as H2.
  { apply (bool_decide_unpack _). vm_compute. exact I. }
  assert (validIndex "00") as H3.
  { apply (bool_decide_unpack _). vm_compute. exact I. }
  assert (strconv.Atoi "0" = strconv.Atoi "00") as H4 by reflexivity.
  split; [exact H1|]. split; [exact H2|]. split; [exact H3|].
  split; [exact H4|].
  pose proof (λ r, same_index_two_spellings "a" "0" "00" "x" "y" [] [] r
                     H1 H2 H3 ltac:(discriminate) H4) as Hiff.
  split; apply Hiff; [left|right]; reflexivity.
Defined.

(** ** Which segments are index segments *)

Lemma FindStringSubmatch_complete pre name digits rest :
  name ≠ "" → allBytes regexp.isWord name = true →
  digits ≠ "" → allBytes strconv.isDigit digits = true →
  is_Some (regexp.FindStringSubmatch
             (pre +:+ name +:+ "[" +:+ digits +:+ "]" +:+ rest)).
Proof.
  intros Hn Hw Hd Hds. induction pre as [|c pre IH].
  - rewrite string_app_nil_l, FindStringSubmatch_canonical by done. eauto.
  - rewrite string_app_cons. cbn [regexp.FindStringSubmatch].
    destruct (regexp.matchHere _); [eauto|exact IH].
Qed.

(** X9.  A segment is taken for an index segment exactly when somewhere
    in it a non-empty run of word bytes is followed by '[', a non-empty
    run of digits and ']'; the groups handed to [parseSliceIndex] are such
    a run of word bytes and such a run of digits, always three strings. *)
Theorem index_segment_iff (part : string) :
  (is_Some (regexp.FindStringSubmatch part)
   ↔ ∃ pre name digits rest,
       part = pre +:+ name +:+ "[" +:+ digits +:+ "]" +:+ rest
       ∧ wordName name
       ∧ digits ≠ "" ∧ allBytes strconv.isDigit digits = true)
  ∧ ∀ sliceIndex,
      regexp.FindStringSubmatch part = Some sliceIndex →
      ∃ name digits,
        sliceIndex = [indexKey name digits; name; digits]
        ∧ wordName name
        ∧ digits ≠ "" ∧ allBytes strconv.isDigit digits = true.
Proof.
  split; [split|].
  - intros [g Hg].
    apply FindStringSubmatch_Some in Hg
      as (pre & n & d & rest & -> & _ & Hn & Hw & Hd & Hds).
    by exists pre, n, d, rest.
  - intros (pre & n & d & rest & -> & [Hn Hw] & Hd & Hds).
    by apply FindStringSubmatch_complete.
  - intros g Hg.
    apply FindStringSubmatch_Some in Hg
      as (pre & n & d & rest & _ & -> & Hn & Hw & Hd & Hds).
    by exists n, d.
Qed.

(** ** The depth counter *)

Lemma int_incr_wrap a : int_incr (int_wrap a) = int_wrap (a + 1).
Proof.
  unfold int_incr, int_wrap. f_equal.
  replace ((a + 2 ^ 63) mod 2 ^ 64 - 2 ^ 63 + 1 + 2 ^ 63)
    with ((a + 2 ^ 63) mod 2 ^ 64 + 1) by lia.
  rewrite Zplus_mod_idemp_l. f_equal. lia.
Qed.

Lemma setNestedMapValue_loop_depth current parts v depth depth' :
  (setNestedMapValue_loop current parts v depth).2
  = (setNestedMapValue_loop current parts v depth').2.
Proof.
  revert current depth depth'.
  induction parts as [|part rest IH]; intros current depth depth'; [done|].
  destruct rest as [|part' rest]; [done|].
  rewrite !setNestedMapValue_loop_cons by done.
  destruct (getIntermediateValue current part) as [[[c p] child]|e]; [|done].
  specialize (IH child (int_incr depth) (int_incr depth')).
  destruct (setNestedMapValue_loop child (part' :: rest) v (int_incr depth))
    as [d1 r1], (setNestedMapValue_loop child (part' :: rest) v (int_incr depth'))
    as [d2 r2].
  simpl in *. by rewrite IH.
Qed.

Lemma setNestedMapValue_loop_count current parts v a depth' current' :
  setNestedMapValue_loop current parts v (int_wrap a) = (depth', Ok current') →
  depth' = int_wrap (a + Z.of_nat (length parts)).
Proof.
  revert current a depth' current'.
  induction parts as [|part rest IH]; intros current a depth' current'.
  { simpl. intros [= <- _]. f_equal. lia. }
  destruct rest as [|part' rest].
  { simpl. intros [= <- _]. by rewrite int_incr_wrap. }
  rewrite setNestedMapValue_loop_cons by done.
  destruct (getIntermediateValue current part) as [[[c p] child]|e]; [|done].
  rewrite int_incr_wrap.
  destruct (setNestedMapValue_loop child (part' :: rest) v (int_wrap (a + 1)))
    as [d1 [u|e]] eqn:Hl; [|done].
  intros [= <- _]. rewrite (IH _ _ _ _ Hl). f_equal.
  rewrite !length_cons. lia.
Qed.

Lemma setNestedMapValue_depth current key v depth depth' :
  (setNestedMapValue current key v depth).2
  = (setNestedMapValue current key v depth').2.
Proof.
  unfold setNestedMapValue. repeat case_match; try done.
  apply setNestedMapValue_loop_depth.
Qed.

Lemma setNestedMapValue_count current key v a depth' current' :
  setNestedMapValue current key v (int_wrap a) = (depth', Ok current') →
  depth' = int_wrap (a + segmentCount key).
Proof.
  unfold setNestedMapValue, segmentCount.
  destruct (decide (key = "")) as [->|Hk].
  - case_match; [done|]. intros [= <- _]. f_equal. lia.
  - case_match; [done|]. apply setNestedMapValue_loop_count.
Qed.

Lemma decodeURL_loop_depth entries urlData depth depth' :
  loopOutcome (decodeURL_loop entries urlData depth)
  = loopOutcome (decodeURL_loop entries urlData depth').
Proof.
  revert urlData depth depth'.
  induction entries as [|[k vals] rest IH]; intros urlData depth depth';
    [done|].
  destruct vals as [|v0 vals]; [done|]. simpl.
  pose proof (setNestedMapValue_depth urlData k (VString v0) depth depth')
    as Hs.
  destruct (setNestedMapValue urlData k (VString v0) depth) as [d1 r1],
    (setNestedMapValue urlData k (VString v0) depth') as [d2 r2].
  simpl in Hs. subst r2. destruct r1 as [u|e]; [apply IH|done].
Qed.

Lemma decodeURL_loop_count entries urlData a depth' urlData' :
  decodeURL_loop entries urlData (int_wrap a) = Done (Ok (depth', urlData')) →
  depth' = int_wrap (a + aggregateSegments entries).
Proof.
  revert urlData a.
  induction entries as [|[k vals] rest IH]; intros urlData a.
  { simpl. intros [= <- _]. f_equal. lia. }
  destruct vals as [|v0 vals]; [done|]. simpl.
  destruct (setNestedMapValue urlData k (VString v0) (int_wrap a))
    as [d1 [u|e]] eqn:Hs; [|done].
  apply setNestedMapValue_count in Hs as ->.
  intros ->%IH. f_equal. lia.
Qed.

(** X10.  The depth counter that [decodeURL] threads through the calls of
    [setNestedMapValue] counts the parts of the keys stored so far, with
    the wrap-around of [int], and decides nothing: the tree or the error
    the loop ends with is the same for every starting depth. *)
Theorem depth_counter_decides_nothing
    (entries : list (string * list string)) (urlData : gmap string value) :
  (∀ depth depth',
     loopOutcome (decodeURL_loop entries urlData depth)
     = loopOutcome (decodeURL_loop entries urlData depth'))
  ∧ (∀ depth urlData',
       decodeURL_loop entries urlData 0 = Done (Ok (depth, urlData')) →
       depth = int_wrap (aggregateSegments entries)).
Proof.
  split; [apply decodeURL_loop_depth|].
  intros depth urlData'. apply (decodeURL_loop_count entries urlData 0).
Qed.

(** ** A single dotted key *)

Lemma plainKey_inv key :
  plainKey key = true →
  strings.Contains key "." = false
  ∧ strings.Contains key "[" && strings.Contains key "]" = false
  ∧ regexp.FindStringSubmatch key = None.
Proof.
  intros [Hdot Hbr]%andb_prop. apply negb_true_iff in Hdot, Hbr.
  split; [done|]. split; [done|]. by apply FindStringSubmatch_no_brackets.
Qed.

Lemma setNestedMapValue_loop_fresh parts v depth :
  parts ≠ [] → Forall (λ part, plainKey part = true) parts →
  ∃ depth' current,
    setNestedMapValue_loop ∅ parts v depth = (depth', Ok current)
    ∧ VMap current = nestedMap parts v.
Proof.
  intros Hne Hall. revert depth.
  induction Hall as [|part rest Hpart Hall IH]; intros depth; [done|].
  destruct (plainKey_inv _ Hpart) as (_ & Hbr & Hm).
  destruct rest as [|part' rest].
  - simpl. unfold setFinalValue. rewrite Hbr, Hm, lookup_empty. simpl.
    eexists _, _. split; [done|]. by rewrite insert_empty.
  - rewrite setNestedMapValue_loop_cons by done.
    unfold getIntermediateValue, getMap.
    rewrite Hm, lookup_empty, lookup_insert_eq.
    cbv beta iota delta [mbind result_bind].
    destruct (IH ltac:(done) (int_incr depth)) as (d & child & -> & Hchild).
    eexists _, _. split; [done|].
    cbn [store nestedMap]. by rewrite insert_insert_eq, insert_empty, Hchild.
Qed.

Lemma convert_nestedMap parts s :
  convertMinSlicesToRegularSlices_value (nestedMap parts (VString s))
  = nestedMap parts (VString s).
Proof.
  induction parts as [|part parts IH]; [done|].
  cbn [nestedMap convertMinSlicesToRegularSlices_value].
  by rewrite map_fmap_singleton, IH.
Qed.

(** X11.  A single key of up to [maxRecursionDepth] parts, each without
    '.' and without a pair of brackets (a part may be empty), decodes to
    one map per part, nested in the order of the parts, with the first
    value at the bottom. *)
Theorem decode_dotted_key (parts : list string) (v : string)
    (vals : list string)
    (Hne : parts ≠ [])
    (Hplain : Forall (λ part, plainKey part = true) parts)
    (Hdepth : Z.of_nat (length parts) ≤ maxRecursionDepth) :
  ∃ tree, decodeURL [(joinDot parts, v :: vals)] = Done (Ok tree)
          ∧ VMap tree = nestedMap parts (VString v).
Proof.
  assert (∃ depth current,
    setNestedMapValue ∅ (joinDot parts) (VString v) 0 = (depth, Ok current)
    ∧ VMap current = nestedMap parts (VString v)) as (d & u & Hs & Hu).
  { unfold setNestedMapValue. destruct (decide (joinDot parts = "")) as [He|_].
    - rewrite lookup_empty. eexists _, _. split; [done|].
      assert (strings.Split (joinDot parts) "." = parts) as Hsplit.
      { apply Split_joinDot; [done|].
        eapply Forall_impl; [exact Hplain|].
        by intros part (? & _)%plainKey_inv. }
      rewrite He in Hsplit. simpl in Hsplit. subst parts.
      by rewrite insert_empty.
    - rewrite Split_joinDot; [|done|].
      + destruct (Z.gtb_spec (Z.of_nat (length parts)) maxRecursionDepth);
          [lia|].
        by apply setNestedMapValue_loop_fresh.
      + eapply Forall_impl; [exact Hplain|].
        by intros part (? & _)%plainKey_inv. }
  unfold decodeURL. simpl. rewrite Hs. eexists. split; [done|].
  change (VMap (convertMinSlicesToRegularSlices u))
    with (convertMinSlicesToRegularSlices_value (VMap u)).
  rewrite Hu. apply convert_nestedMap.
Qed.

Lemma decode_dotted_key_witness :
  Forall (λ part, plainKey part = true) (replicate 10 "a")
  ∧ decodeURL [("a.a.a.a.a.a.a.a.a.a", ["value"])]
    = Done (Ok {[ "a" := nestedMap (replicate 9 "a") (VString "value") ]}).
Proof.
  assert (Forall (λ part, plainKey part = true) (replicate 10 "a")) as H.
  { apply Forall_forall. intros part Hin.
    apply elem_of_replicate in Hin as [-> _]. reflexivity. }
  split; [exact H|].
  destruct (decode_dotted_key (replicate 10 "a") "value" [] ltac:(discriminate) H
              ltac:(vm_compute; discriminate)) as (tree & Htree & Heq).
  cbn [replicate nestedMap] in Heq. injection Heq as ->. exact Htree.
Defined.

(** ** The shape of the trees *)

Lemma decoderTree_lookup m k v :
  decoderTree (VMap m) → m !! k = Some v → decoderTree v.
Proof. inversion 1; eauto. Qed.

Lemma decoderTree_insert m k v :
  decoderTree (VMap m) → decoderTree v → decoderTree (VMap (<[k := v]> m)).
Proof.
  intros Hm Hv. constructor. intros k' v'.
  rewrite lookup_insert. case_decide; [by intros [= <-]|].
  by apply decoderTree_lookup.
Qed.

Lemma decoderTree_empty_map : decoderTree (VMap ∅).
Proof. constructor. intros k v. by rewrite lookup_empty. Qed.

(** The slice [getOrCreateSlice] hands out has room for one more entry;
    it is a slice of the tree, or the empty one just created, and
    storing a slice under its name makes the creation invisible. *)
Lemma getOrCreateSlice_tree current name current' elements :
  decoderTree (VMap current) →
  getOrCreateSlice current name = Ok (current', elements) →
  Z.of_nat (size elements) < maxSliceSize
  ∧ (∀ i v, elements !! i = Some v → leafOrMap v ∧ decoderTree v)
  ∧ current' !! name = Some (VMinSlice elements)
  ∧ ∀ x, <[name := x]> current' = <[name := x]> current.
Proof.
  intros Ht (Hl & Hs & [->|(_ & -> & ->)])%getOrCreateSlice_Ok.
  - split; [done|]. split; [|done].
    apply (decoderTree_lookup _ _ _ Ht) in Hl.
    inversion Hl; subst. eauto.
  - split; [done|]. split; [intros i v; by rewrite lookup_empty|].
    split; [done|]. intros x. by rewrite insert_insert_eq.
Qed.

Lemma decoderTree_set elements idx v :
  Z.of_nat (size elements) < maxSliceSize →
  (∀ i x, elements !! i = Some x → leafOrMap x ∧ decoderTree x) →
  leafOrMap v → decoderTree v →
  decoderTree (VMinSlice (minSlice.set elements idx v)).
Proof.
  intros Hs Hel Hv1 Hv2. unfold minSlice.set. constructor.
  - apply insert_non_empty.
  - rewrite map_size_insert. destruct (elements !! idx); simpl; lia.
  - intros i x. rewrite lookup_insert. case_decide; [by intros [= <-]|].
    intros Hi. by apply (Hel i x).
  - intros i x. rewrite lookup_insert. case_decide; [by intros [= <-]|].
    intros Hi. by apply (Hel i x).
Qed.

Lemma setSliceValue_tree current sliceIndex v current' :
  decoderTree (VMap current) → leafOrMap v → decoderTree v →
  setSliceValue current sliceIndex v = Ok current' →
  decoderTree (VMap current').
Proof.
  intros Ht Hv1 Hv2. unfold setSliceValue.
  destruct (parseSliceIndex sliceIndex) as [[name idx]|]; simpl; [|done].
  destruct (getOrCreateSlice current name) as [[c els]|] eqn:Hg; simpl;
    [|done].
  intros [= <-].
  destruct (getOrCreateSlice_tree _ _ _ _ Ht Hg) as (Hs & Hel & _ & ->).
  apply decoderTree_insert; [done|]. by apply decoderTree_set.
Qed.

Lemma setFinalValue_tree current part v current' :
  decoderTree (VMap current) → leafOrMap v → decoderTree v →
  setFinalValue current part v = Ok current' →
  decoderTree (VMap current').
Proof.
  intros Ht Hv1 Hv2. unfold setFinalValue. case_match; [done|].
  destruct (regexp.FindStringSubmatch part).
  - by apply setSliceValue_tree.
  - case_match; [done|]. intros [= <-]. by apply decoderTree_insert.
Qed.

Lemma getIntermediateValue_tree current part current' p child :
  decoderTree (VMap current) →
  getIntermediateValue current part = Ok (current', p, child) →
  decoderTree (VMap child)
  ∧ ∀ child', decoderTree (VMap child') →
              decoderTree (VMap (store current' p child')).
Proof.
  intros Ht. unfold getIntermediateValue.
  destruct (regexp.FindStringSubmatch part) as [g|].
  - unfold createMapIntoSlice.
    destruct (parseSliceIndex g) as [[name idx]|]; simpl; [|done].
    destruct (getOrCreateSlice current name) as [[c els]|] eqn:Hg; simpl;
      [|done].
    destruct (getOrCreateSlice_tree _ _ _ _ Ht Hg) as (Hs & Hel & _ & Hins).
    unfold minSlice.get.
    destruct (els !! idx) as [elem|] eqn:Hidx.
    + destruct elem as [|m| |]; try done. intros [= <- <- <-].
      split; [by apply (Hel idx)|].
      intros child' Hchild. simpl. rewrite lookup_insert_eq.
      rewrite insert_insert_eq, Hins. apply decoderTree_insert; [done|].
      by apply decoderTree_set.
    + intros [= <- <- <-]. split; [apply decoderTree_empty_map|].
      intros child' Hchild. simpl. rewrite lookup_insert_eq.
      rewrite insert_insert_eq, Hins. apply decoderTree_insert; [done|].
      unfold minSlice.set. rewrite insert_insert_eq.
      by apply (decoderTree_set els idx (VMap child')).
  - unfold getMap.
    destruct (current !! part) as [x|] eqn:Hc.
    + rewrite Hc. destruct x as [|m| |]; try done. simpl.
      intros [= <- <- <-]. split; [by eapply decoderTree_lookup|].
      intros child' Hchild. simpl. by apply decoderTree_insert.
    + rewrite lookup_insert_eq. simpl. intros [= <- <- <-].
      split; [apply decoderTree_empty_map|].
      intros child' Hchild. simpl. rewrite insert_insert_eq.
      by apply decoderTree_insert.
Qed.

Lemma setNestedMapValue_loop_tree current parts v depth depth' current' :
  decoderTree (VMap current) → leafOrMap v → decoderTree v →
  setNestedMapValue_loop current parts v depth = (depth', Ok current') →
  decoderTree (VMap current').
Proof.
  intros Ht Hv1 Hv2. revert current depth depth' current' Ht.
  induction parts as [|part rest IH]; intros current depth depth' current' Ht;
    simpl.
  - by intros [= _ <-].
  - destruct rest as [|part' rest].
    + intros [= _ H]. exact (setFinalValue_tree _ _ _ _ Ht Hv1 Hv2 H).
    + destruct (getIntermediateValue current part) as [[[c p] child]|] eqn:Hg;
        [|done].
      destruct (getIntermediateValue_tree _ _ _ _ _ Ht Hg) as [Hchild Hst].
      destruct (setNestedMapValue_loop child (part' :: rest) v (int_incr depth))
        as [d [child'|]] eqn:Hl; simpl; [|done].
      intros [= _ <-]. apply Hst. exact (IH _ _ _ _ Hchild Hl).
Qed.

Lemma setNestedMapValue_tree current key v depth depth' current' :
  decoderTree (VMap current) → leafOrMap v → decoderTree v →
  setNestedMapValue current key v depth = (depth', Ok current') →
  decoderTree (VMap current').
Proof.
  intros Ht Hv1 Hv2. unfold setNestedMapValue. case_decide.
  - case_match; [done|]. intros [= _ <-]. by apply decoderTree_insert.
  - case_match; [done|]. by apply setNestedMapValue_loop_tree.
Qed.

Lemma decodeURL_loop_tree entries urlData depth depth' urlData' :
  decoderTree (VMap urlData) →
  decodeURL_loop entries urlData depth = Done (Ok (depth', urlData')) →
  decoderTree (VMap urlData').
Proof.
  revert urlData depth.
  induction entries as [|[k vals] rest IH]; intros urlData depth Ht; simpl.
  - by intros [= _ <-].
  - destruct vals as [|v0 vals]; [done|].
    destruct (setNestedMapValue urlData k (VString v0) depth)
      as [d [u|]] eqn:Hs; [|done].
    apply IH. eapply setNestedMapValue_tree; [done| | |done]; [done|constructor].
Qed.

Lemma decoderTree_convert v :
  decoderTree v → decodedValue (convertMinSlicesToRegularSlices_value v).
Proof.
  induction 1 as [s|m _ IH|elements Hne Hsize Hleaf Htree _]; simpl.
  - constructor.
  - constructor. intros k v. rewrite lookup_fmap.
    destruct (m !! k) as [x|] eqn:Hk; [|done]. intros [= <-]. by eapply IH.
  - unfold minSlice.toSlice. constructor.
    + intros Hnil. apply fmap_nil_inv, map_to_list_empty_iff in Hnil. done.
    + by rewrite length_fmap, length_map_to_list.
    + apply Forall_forall. intros v Hv.
      apply list_elem_of_fmap in Hv as ([i x] & -> & Hin).
      apply elem_of_map_to_list in Hin. simpl. eauto.
Qed.

Lemma lookupPath_convert path v :
  lookupPath path (convertMinSlicesToRegularSlices_value v)
  = convertMinSlicesToRegularSlices_value <$> lookupPath path v.
Proof.
  revert v. induction path as [|key path IH]; intros v; [done|].
  destruct v as [s|m|elements|l]; try done. simpl.
  rewrite lookup_fmap. destruct (m !! key) as [x|]; [apply IH|done].
Qed.

(** X12.  In the tree [Decode] returns, what is found by following keys
    through nested maps is what the decoding loop stored there, passed
    through [convertMinSlicesToRegularSlices]; in particular it is never a
    [*minSlice]: the sparse slices met on the way down through maps are
    all replaced. *)
Theorem convert_reaches_through_maps (data : gmap string value)
    (path : list string) :
  lookupPath path (VMap (convertMinSlicesToRegularSlices data))
  = convertMinSlicesToRegularSlices_value <$> lookupPath path (VMap data)
  ∧ (∀ elements,
       lookupPath path (VMap (convertMinSlicesToRegularSlices data))
       ≠ Some (VMinSlice elements))
  ∧ (∀ entries tree elements,
       decodeURL entries = Done (Ok tree) →
       lookupPath path (VMap tree) ≠ Some (VMinSlice elements)).
Proof.
  assert (∀ data : gmap string value,
    lookupPath path (VMap (convertMinSlicesToRegularSlices data))
    = convertMinSlicesToRegularSlices_value <$> lookupPath path (VMap data))
    as Hcomm.
  { intros data'. apply (lookupPath_convert path (VMap data')). }
  assert (∀ (data : gmap string value) elements,
    lookupPath path (VMap (convertMinSlicesToRegularSlices data))
    ≠ Some (VMinSlice elements)) as Hnone.
  { intros data' elements. rewrite Hcomm.
    destruct (lookupPath path (VMap data')) as [[| | |]|]; done. }
  split; [apply Hcomm|]. split; [apply Hnone|].
  intros entries tree elements. unfold decodeURL.
  destruct (decodeURL_loop entries ∅ 0) as [[[d u]|e]|p]; try done.
  intros [= <-]. apply Hnone.
Qed.

(** X13.  The shape of every tree [Decode] returns.  What is reached
    through maps alone is a string, a map or a slice ([[]any]); a slice
    is never empty, never longer than [maxSliceSize], and each of its
    elements is a string or a map, never a slice.  The maps that are
    elements of a slice are left unconverted: below such an element a
    bracketed name is bound to a sparse slice ([*minSlice]), itself not
    empty, of at most [maxSliceSize] entries that are strings and maps,
    and no [[]any] occurs there. *)
Theorem Decode_result_shape (values : gmap string (list string))
    (tree : gmap string value)
    (Hdecode : Decode values (Done (Ok tree))) :
  decodedValue (VMap tree).
Proof.
  destruct Hdecode as (entries & _ & Hrun). unfold decodeURL in Hrun.
  destruct (decodeURL_loop entries ∅ 0) as [[[d u]|e]|p] eqn:Hl; try done.
  injection Hrun as <-.
  apply (decoderTree_convert (VMap u)).
  exact (decodeURL_loop_tree _ _ _ _ _ decoderTree_empty_map Hl).
Qed.

(** ** The errors of [Decode] *)

Lemma getOrCreateSlice_error current name e :
  decoderTree (VMap current) →
  getOrCreateSlice current name = Err e → decodeError e = true.
Proof.
  intros Ht. unfold getOrCreateSlice.
  destruct (current !! name) as [x|] eqn:Hc.
  - rewrite Hc. pose proof (decoderTree_lookup _ _ _ Ht Hc) as Hx.
    destruct x as [| |els|]; [by intros [= <-]..| |by inversion Hx].
    case_match; [|done]. by intros [= <-].
  - rewrite lookup_insert_eq. unfold minSlice.new.
    by rewrite map_size_empty.
Qed.

Lemma setSliceValue_error current part sliceIndex v e :
  decoderTree (VMap current) →
  regexp.FindStringSubmatch part = Some sliceIndex →
  setSliceValue current sliceIndex v = Err e → decodeError e = true.
Proof.
  intros Ht (w & n & d & -> & Hp)%parseSliceIndex_match. unfold setSliceValue.
  destruct Hp as [->|(idx & _ & _ & ->)]; simpl; [by intros [= <-]|].
  destruct (getOrCreateSlice current n) as [[c sl]|e'] eqn:Hg; simpl; [done|].
  intros [= <-]. by eapply getOrCreateSlice_error.
Qed.

Lemma setFinalValue_error current part v e :
  decoderTree (VMap current) →
  setFinalValue current part v = Err e → decodeError e = true.
Proof.
  intros Ht. unfold setFinalValue. case_match; [by intros [= <-]|].
  destruct (regexp.FindStringSubmatch part) eqn:Hm.
  - by apply setSliceValue_error with part.
  - case_match; [by intros [= <-]|done].
Qed.

Lemma getIntermediateValue_error current part e :
  decoderTree (VMap current) →
  getIntermediateValue current part = Err e → decodeError e = true.
Proof.
  intros Ht. unfold getIntermediateValue.
  destruct (regexp.FindStringSubmatch part) as [g|] eqn:Hm.
  - apply parseSliceIndex_match in Hm as (w & n & d & -> & Hp).
    unfold createMapIntoSlice.
    destruct Hp as [->|(idx & _ & _ & ->)]; simpl; [by intros [= <-]|].
    destruct (getOrCreateSlice current n) as [[c sl]|e'] eqn:Hg; simpl.
    + destruct (getOrCreateSlice_tree _ _ _ _ Ht Hg) as (_ & Hel & _).
      unfold minSlice.get. destruct (sl !! idx) as [elem|] eqn:Hidx; [|done].
      destruct (Hel _ _ Hidx) as [Hleaf _].
      destruct elem; try done. by intros [= <-].
    + intros [= <-]. by eapply getOrCreateSlice_error.
  - unfold getMap. destruct (current !! part) as [x|] eqn:Hc.
    + rewrite Hc. pose proof (decoderTree_lookup _ _ _ Ht Hc) as Hx.
      destruct x as [| |els|]; [by intros [= <-]|done|by intros [= <-]|].
      by inversion Hx.
    + by rewrite lookup_insert_eq.
Qed.

Lemma setNestedMapValue_loop_error current parts v depth depth' e :
  decoderTree (VMap current) →
  setNestedMapValue_loop current parts v depth = (depth', Err e) →
  decodeError e = true.
Proof.
  revert current depth depth'.
  induction parts as [|part rest IH]; intros current depth depth' Ht; simpl;
    [done|].
  destruct rest as [|part' rest].
  - intros [= _ H]. by eapply setFinalValue_error.
  - destruct (getIntermediateValue current part) as [[[c p] child]|e'] eqn:Hg.
    + destruct (getIntermediateValue_tree _ _ _ _ _ Ht Hg) as [Hchild _].
      destruct (setNestedMapValue_loop child (part' :: rest) v (int_incr depth))
        as [d [child'|e']] eqn:Hl; simpl; [done|].
      intros [= _ <-]. by eapply IH.
    + intros [= _ <-]. by eapply getIntermediateValue_error.
Qed.

Lemma setNestedMapValue_error current key v depth depth' e :
  decoderTree (VMap current) →
  setNestedMapValue current key v depth = (depth', Err e) →
  decodeError e = true.
Proof.
  intros Ht. unfold setNestedMapValue. case_decide.
  - case_match; [|done]. by intros [= _ <-].
  - case_match; [by intros [= _ <-]|].
    by apply setNestedMapValue_loop_error.
Qed.

Lemma decodeURL_loop_error entries urlData depth e :
  decoderTree (VMap urlData) →
  decodeURL_loop entries urlData depth = Done (Err e) →
  decodeError e = true.
Proof.
  revert urlData depth.
  induction entries as [|[k vals] rest IH]; intros urlData depth Ht; simpl;
    [done|].
  destruct vals as [|v0 vals]; [done|].
  destruct (setNestedMapValue urlData k (VString v0) depth)
    as [d [u|e']] eqn:Hs.
  - apply IH. eapply setNestedMapValue_tree; [done| | |done]; [done|constructor].
  - intros [= <-]. by eapply setNestedMapValue_error.
Qed.

(** X14.  The errors [Decode] can return are: the conflicting empty
    key; the recursion depth, with the limit [maxRecursionDepth]; an
    invalid slice index; a conflicting key; an index that does not fit
    an [int]; a map expected where a string or a sparse slice is bound; a
    sparse slice expected where a string or a map is bound; the slice
    size, with the limit [maxSliceSize].  It never reports a submatch of
    the wrong length, a negative index, a [<nil>] or a [[]interface {}]
    where a map or a slice is expected, or an error of the encoder. *)
Theorem Decode_errors (values : gmap string (list string)) (e : error)
    (Hdecode : Decode values (Done (Err e))) :
  decodeError e = true.
Proof.
  destruct Hdecode as (entries & _ & Hrun). unfold decodeURL in Hrun.
  destruct (decodeURL_loop entries ∅ 0) as [[[d u]|e']|p] eqn:Hl; try done.
  injection Hrun as ->.
  exact (decodeURL_loop_error _ _ _ _ decoderTree_empty_map Hl).
Qed.

Lemma Decode_errors_witness :
  Decode {[ "list[abc]" := ["value"] ]}
    (Done (Err (InvalidSliceIndex "list[abc]")))
  ∧ decodeError (InvalidSliceIndex "list[abc]") = true.
Proof.
  assert (Decode {[ "list[abc]" := ["value"] ]}
            (Done (Err (InvalidSliceIndex "list[abc]")))) as H.
  { exists [("list[abc]", ["value"])].
    split; [by apply range_order_singleton|]. vm_compute. reflexivity. }
  split; [exact H|]. exact (Decode_errors _ _ H).
Defined.

Lemma Decode_result_shape_witness :
  Decode {[ "slice[0]" := ["a"] ]} (Done (Ok {[ "slice" := VSlice [VString "a"] ]}))
  ∧ decodedValue (VMap {[ "slice" := VSlice [VString "a"] ]}).
Proof.
  assert (Decode {[ "slice[0]" := ["a"] ]}
            (Done (Ok {[ "slice" := VSlice [VString "a"] ]}))) as H.
  { exists [("slice[0]", ["a"])].
    split; [by apply range_order_singleton|]. vm_compute. reflexivity. }
  split; [exact H|]. exact (Decode_result_shape _ _ H).
Defined.

(** ** What [Encode] accepts and what it emits *)

Section EncodeProperties.

Context {float64 : Type} (Sprintf_f : float64 → string).

#[local] Abbreviation rvalue := (@rvalue float64).
#[local] Abbreviation encodable := (@encodable float64).
#[local] Abbreviation leafless := (@leafless float64).

Lemma rvalue_ind' (P : rvalue → Prop) :
  (∀ elem, (∀ e, elem = Some e → P e) → P (RPtr elem)) →
  (∀ elem, (∀ e, elem = Some e → P e) → P (RInterface elem)) →
  (∀ s, P (RString s)) → (∀ i, P (RInt i)) →
  (∀ f, P (RFloat f)) → (∀ b, P (RBool b)) →
  (∀ elems, Forall P elems → P (RSlice elems)) →
  (∀ keyKind entries, Forall (λ kv, P kv.2) entries → P (RMap keyKind entries)) →
  (∀ fields, Forall (λ ff, P ff.2) fields → P (RStruct fields)) →
  (∀ k, P (ROther k)) →
  ∀ v, P v.
Proof.
  intros Hp Hi Hs Hn Hf Hb Hsl Hm Hst Ho. fix IH 1.
  intros [elem|elem|s|i|f|b|elems|keyKind entries|fields|k].
  - apply Hp. destruct elem as [e|]; intros e' [= <-]. apply IH.
  - apply Hi. destruct elem as [e|]; intros e' [= <-]. apply IH.
  - apply Hs.
  - apply Hn.
  - apply Hf.
  - apply Hb.
  - apply Hsl. induction elems as [|x l IHl]; constructor; [apply IH|apply IHl].
  - apply Hm. induction entries as [|[k x] m IHm]; constructor;
      [apply IH|apply IHm].
  - apply Hst. induction fields as [|[ft x] m IHm]; constructor;
      [apply IH|apply IHm].
  - apply Ho.
Qed.

Lemma encodeValue_struct values fieldTag fields :
  encodeValue Sprintf_f values fieldTag (RStruct fields)
  = encodeStruct Sprintf_f values fieldTag fields.
Proof.
  revert values. induction fields as [|[ft x] fields IH]; intros values;
    [done|].
  cbn [encodeValue encodeStruct].
  destruct (encodeStructField (encodeValue Sprintf_f) values fieldTag ft x)
    as [values'|e]; [|done].
  cbv beta iota delta [mbind result_bind]. apply IH.
Qed.

Lemma encodeValue_slice values fieldTag elems :
  encodeValue Sprintf_f values fieldTag (RSlice elems)
  = encodeSlice_from (encodeValue Sprintf_f) 0 values fieldTag elems.
Proof. done. Qed.

Lemma encodeValue_map values fieldTag entries :
  encodeValue Sprintf_f values fieldTag (RMap String_ entries)
  = encodeMap_keys (encodeValue Sprintf_f) values fieldTag entries.
Proof. done. Qed.

Lemma acceptedField_Anonymous values fieldTag ft x :
  Anonymous ft = true →
  encodeStructField (encodeValue Sprintf_f) values fieldTag ft x
  = encodeValue Sprintf_f values fieldTag x.
Proof. intros Ha. unfold encodeStructField. by rewrite Ha. Qed.

Lemma encodeStructField_accepted values fieldTag ft x :
  acceptedField ft = true →
  ∃ fieldTag',
    encodeStructField (encodeValue Sprintf_f) values fieldTag ft x
    = encodeValue Sprintf_f values fieldTag' x.
Proof.
  unfold acceptedField, encodeStructField.
  destruct (Anonymous ft); [by eauto|]. simpl.
  intros Ht%negb_true_iff%bool_decide_eq_false.
  destruct (decide _); [done|]. eauto.
Qed.

Lemma encodeStructField_refused values fieldTag ft x :
  acceptedField ft = false →
  encodeStructField (encodeValue Sprintf_f) values fieldTag ft x
  = Err (MissingFieldTag (Name ft)).
Proof.
  unfold acceptedField, encodeStructField.
  destruct (Anonymous ft); [done|]. simpl.
  intros Ht%negb_false_iff%bool_decide_eq_true.
  by destruct (decide _).
Qed.

(** Whether [encodeValue] returns an error depends on the value only. *)
Lemma encodeValue_Ok_iff v values fieldTag :
  (∃ values', encodeValue Sprintf_f values fieldTag v = Ok values')
  ↔ encodable v = true.
Proof.
  revert values fieldTag.
  induction v as [elem IH|elem IH|s|i|f|b|elems IH|keyKind entries IH|fields IH|k]
    using rvalue_ind'; intros values fieldTag.
  - destruct elem as [e|]; simpl; [by apply IH|]. split; eauto.
  - destruct elem as [e|]; simpl; [by apply IH|]. split; eauto.
  - simpl. split; eauto.
  - simpl. split; eauto.
  - simpl. split; eauto.
  - simpl. split; eauto.
  - rewrite encodeValue_slice. cbn [encodable]. generalize 0 as j.
    revert values.
    induction IH as [|x l Hx _ IHl]; intros values j; simpl.
    { split; eauto. }
    rewrite andb_true_iff, <- (Hx values (fieldTag +:+ "[" +:+ Sprintf_d j +:+ "]")).
    destruct (encodeValue Sprintf_f values _ x) as [values1|e].
    + cbv beta iota delta [mbind result_bind]. rewrite (IHl values1 (j + 1)).
      split; [eauto|by intros [_ ?]].
    + split; [by intros [? ?]|by intros [[? ?] _]].
  - destruct keyKind;
      try (cbn [encodable]; split; [by intros [? ?]|done]).
    rewrite encodeValue_map. cbn [encodable]. revert values.
    induction IH as [|[k x] l Hx _ IHl]; intros values; simpl.
    { split; eauto. }
    simpl in Hx.
    rewrite andb_true_iff,
      <- (Hx values (if decide (fieldTag = "") then k
                     else fieldTag +:+ "." +:+ k)).
    destruct (encodeValue Sprintf_f values _ x) as [values1|e].
    + cbv beta iota delta [mbind result_bind]. rewrite (IHl values1).
      split; [eauto|by intros [_ ?]].
    + split; [by intros [? ?]|by intros [[? ?] _]].
  - rewrite encodeValue_struct. cbn [encodable]. revert values.
    induction IH as [|[ft x] l Hx _ IHl]; intros values; simpl.
    { split; eauto. }
    simpl in Hx. rewrite !andb_true_iff.
    destruct (acceptedField ft) eqn:Hft.
    + destruct (encodeStructField_accepted values fieldTag ft x Hft)
        as [fieldTag' ->].
      rewrite <- (Hx values fieldTag').
      destruct (encodeValue Sprintf_f values _ x) as [values1|e].
      * cbv beta iota delta [mbind result_bind]. rewrite (IHl values1).
        split; [eauto|by intros [_ ?]].
      * split; [by intros [? ?]|by intros [[_ [? ?]] _]].
    + rewrite encodeStructField_refused by done.
      split; [by intros [? ?]|by intros [[? _] _]].
  - simpl. split; [by intros [? ?]|done].
Qed.

Lemma Encode_loop_Ok_iff values entries :
  (∃ values', Encode_loop Sprintf_f values entries = Ok values')
  ↔ Forall (λ kv, encodable kv.2 = true) entries.
Proof.
  revert values. induction entries as [|[k x] entries IH]; intros values; simpl.
  { split; eauto. }
  rewrite Forall_cons. simpl. unfold encodeURL.
  rewrite <- (encodeValue_Ok_iff x values k).
  destruct (encodeValue Sprintf_f values k x) as [values1|e].
  - cbv beta iota delta [mbind result_bind]. rewrite (IH values1).
    split; [eauto|by intros [_ ?]].
  - split; [by intros [? ?]|by intros [[? ?] _]].
Qed.

Lemma Forall_encodable_entries (data : gmap string rvalue) entries :
  range_order data entries →
  Forall (λ kv, encodable kv.2 = true) entries
  ↔ map_Forall (λ _ v, encodable v = true) data.
Proof.
  unfold range_order. intros ->.
  rewrite map_Forall_to_list, !Forall_forall.
  split; intros Hall [k v] Hin; apply (Hall (k, v) Hin).
Qed.

(** X15.  [Encode] returns an error exactly when some value of [data] is
    not encodable, in whatever order the entries are visited: at a place
    it visits there is a kind outside its [switch], a map whose keys are
    not strings, or a struct field that is neither embedded nor tagged.
    What lies behind a nil pointer or interface is not looked at. *)
Theorem Encode_succeeds_iff (data : gmap string rvalue) :
  ((∃ values, Encode Sprintf_f data (Ok values))
   ↔ map_Forall (λ _ v, encodable v = true) data)
  ∧ ((∃ e, Encode Sprintf_f data (Err e))
     ↔ ¬ map_Forall (λ _ v, encodable v = true) data).
Proof.
  split; split.
  - intros (values & entries & Hperm & Hrun).
    apply (Forall_encodable_entries _ _ Hperm), (Encode_loop_Ok_iff ∅). eauto.
  - intros Hall.
    assert (range_order data (map_to_list data)) as Hperm by by unfold range_order.
    apply (Forall_encodable_entries _ _ Hperm), (Encode_loop_Ok_iff ∅) in Hall
      as [values Hrun].
    exists values, (map_to_list data). split; [by unfold range_order|done].
  - intros (e & entries & Hperm & Hrun) Hall.
    apply (Forall_encodable_entries _ _ Hperm), (Encode_loop_Ok_iff ∅) in Hall
      as [values Hrun'].
    unfold Encode_entries in Hrun. congruence.
  - intros Hall.
    destruct (Encode_entries Sprintf_f (map_to_list data)) as [values|e] eqn:Hrun.
    + destruct Hall.
      assert (range_order data (map_to_list data)) as Hperm by by unfold range_order.
      apply (Forall_encodable_entries _ _ Hperm), (Encode_loop_Ok_iff ∅). eauto.
    + exists e, (map_to_list data). split; [by unfold range_order|done].
Qed.

(** *** Structs *)

Lemma encodeStruct_app values fieldTag fields1 fields2 :
  encodeStruct Sprintf_f values fieldTag (fields1 ++ fields2)
  = values' ← encodeStruct Sprintf_f values fieldTag fields1;
    encodeStruct Sprintf_f values' fieldTag fields2.
Proof.
  revert values. induction fields1 as [|[ft x] fields1 IH]; intros values;
    [done|].
  simpl.
  destruct (encodeStructField (encodeValue Sprintf_f) values fieldTag ft x);
    [apply IH|done].
Qed.

(** X16.  A struct whose fields all carry a [json] tag (none embedded,
    no tag ["-"] or [""]) is encoded exactly as the map that binds each
    tag to the value of its field, the entries taken in the order of the
    fields. *)
Theorem struct_encodes_as_map (values : gmap string (list string))
    (fieldTag : string) (fields : list (structField * rvalue))
    (Htagged : Forall (λ ff, Anonymous ff.1 = false
                             ∧ jsonTag ff.1 ≠ "-" ∧ jsonTag ff.1 ≠ "") fields) :
  encodeValue Sprintf_f values fieldTag (RStruct fields)
  = encodeValue Sprintf_f values fieldTag (RMap String_ (fieldEntry <$> fields)).
Proof.
  rewrite encodeValue_struct, encodeValue_map. revert values.
  induction Htagged as [|[ft x] fields (Ha & H1 & H2) _ IH]; intros values;
    [done|].
  simpl in Ha, H1, H2. simpl. unfold encodeStructField. rewrite Ha.
  destruct (decide (jsonTag ft = "-" ∨ jsonTag ft = "")) as [[?|?]|_];
    [done|done|].
  destruct (encodeValue Sprintf_f values _ x); [apply IH|done].
Qed.

(** X17.  An embedded struct is inlined: the fields of the struct held
    by an embedded field, directly or behind a pointer, are encoded
    under the path of the outer struct, as if they stood in its place;
    an embedded nil pointer counts for nothing. *)
Theorem embedded_struct_inlined (values : gmap string (list string))
    (fieldTag : string) (fieldType : structField)
    (before inner after : list (structField * rvalue))
    (Hembedded : Anonymous fieldType = true) :
  encodeValue Sprintf_f values fieldTag
    (RStruct (before ++ (fieldType, RStruct inner) :: after))
  = encodeValue Sprintf_f values fieldTag (RStruct (before ++ inner ++ after))
  ∧ encodeValue Sprintf_f values fieldTag
      (RStruct (before ++ (fieldType, RPtr (Some (RStruct inner))) :: after))
    = encodeValue Sprintf_f values fieldTag (RStruct (before ++ inner ++ after))
  ∧ encodeValue Sprintf_f values fieldTag
      (RStruct (before ++ (fieldType, RPtr None) :: after))
    = encodeValue Sprintf_f values fieldTag (RStruct (before ++ after)).
Proof.
  rewrite !encodeValue_struct, !encodeStruct_app.
  destruct (encodeStruct Sprintf_f values fieldTag before) as [values1|e];
    [|done].
  cbv beta iota delta [mbind result_bind]. cbn [encodeStruct].
  rewrite !acceptedField_Anonymous by done.
  change (encodeValue Sprintf_f values1 fieldTag (RPtr (Some (RStruct inner))))
    with (encodeValue Sprintf_f values1 fieldTag (RStruct inner)).
  change (encodeValue Sprintf_f values1 fieldTag (RPtr None)) with (Ok values1).
  rewrite encodeValue_struct, encodeStruct_app. repeat split; reflexivity.
Qed.

(** *** What every call leaves untouched *)

Section Preserved.

(** A property of the collected pairs that [values.Set] keeps. *)
Variable P : gmap string (list string) → Prop.
Hypothesis P_Set : ∀ values key s, P values → P (Values_Set values key s).

Let keeps (x : rvalue) : Prop :=
  ∀ values fieldTag values',
    encodeValue Sprintf_f values fieldTag x = Ok values' → P values → P values'.

Lemma encodeSlice_from_preserves j values fieldTag elems values' :
  Forall keeps elems →
  encodeSlice_from (encodeValue Sprintf_f) j values fieldTag elems = Ok values' →
  P values → P values'.
Proof.
  intros Hall. revert j values.
  induction Hall as [|x l Hx _ IH]; intros j values; simpl.
  { by intros [= <-]. }
  destruct (encodeValue Sprintf_f values _ x) as [values1|e] eqn:Hv; [|done].
  cbv beta iota delta [mbind result_bind]. intros Hl HP.
  apply (IH _ _ Hl). by apply (Hx _ _ _ Hv).
Qed.

Lemma encodeMap_keys_preserves values fieldTag entries values' :
  Forall (λ kv, keeps kv.2) entries →
  encodeMap_keys (encodeValue Sprintf_f) values fieldTag entries = Ok values' →
  P values → P values'.
Proof.
  intros Hall. revert values.
  induction Hall as [|[k x] l Hx _ IH]; intros values; simpl.
  { by intros [= <-]. }
  destruct (encodeValue Sprintf_f values _ x) as [values1|e] eqn:Hv; [|done].
  cbv beta iota delta [mbind result_bind]. intros Hl HP.
  apply (IH _ Hl). by apply (Hx _ _ _ Hv).
Qed.

Lemma encodeStruct_preserves values fieldTag fields values' :
  Forall (λ ff, keeps ff.2) fields →
  encodeStruct Sprintf_f values fieldTag fields = Ok values' →
  P values → P values'.
Proof.
  intros Hall. revert values.
  induction Hall as [|[ft x] l Hx _ IH]; intros values; simpl.
  { by intros [= <-]. }
  destruct (acceptedField ft) eqn:Hft.
  - destruct (encodeStructField_accepted values fieldTag ft x Hft)
      as [fieldTag' ->].
    destruct (encodeValue Sprintf_f values _ x) as [values1|e] eqn:Hv; [|done].
    cbv beta iota delta [mbind result_bind]. intros Hl HP.
    apply (IH _ Hl). by apply (Hx _ _ _ Hv).
  - by rewrite encodeStructField_refused.
Qed.

Lemma encodeValue_preserves x : keeps x.
Proof.
  induction x as [elem IH|elem IH|s|i|f|b|elems IH|keyKind entries IH|fields IH|k]
    using rvalue_ind'; intros values fieldTag values'.
  - destruct elem as [e|]; simpl; [by apply IH|by intros [= <-]].
  - destruct elem as [e|]; simpl; [by apply IH|by intros [= <-]].
  - intros [= <-]. apply P_Set.
  - intros [= <-]. apply P_Set.
  - intros [= <-]. apply P_Set.
  - intros [= <-]. apply P_Set.
  - rewrite encodeValue_slice. by apply encodeSlice_from_preserves.
  - destruct keyKind; try done.
    rewrite encodeValue_map. by apply encodeMap_keys_preserves.
  - rewrite encodeValue_struct. by apply encodeStruct_preserves.
  - done.
Qed.

Lemma Encode_loop_preserves values entries values' :
  Encode_loop Sprintf_f values entries = Ok values' → P values → P values'.
Proof.
  revert values. induction entries as [|[k x] l IH]; intros values; simpl.
  { by intros [= <-]. }
  unfold encodeURL.
  destruct (encodeValue Sprintf_f values k x) as [values1|e] eqn:Hv; [|done].
  cbv beta iota delta [mbind result_bind]. intros Hl HP.
  apply (IH _ Hl). by apply (encodeValue_preserves _ _ _ _ Hv).
Qed.

End Preserved.

(** X18.  Every key that [Encode] returns is bound to exactly one
    value, so [Decode] never panics on what [Encode] returns: it ends
    with a tree or with an error. *)
Theorem Decode_of_Encode_never_panics (data : gmap string rvalue)
    (values : gmap string (list string))
    (Hencode : Encode Sprintf_f data (Ok values)) :
  (∀ key vals, values !! key = Some vals → ∃ s, vals = [s])
  ∧ ∀ r, Decode values r → ∃ res, r = Done res.
Proof.
  destruct Hencode as (entries & _ & Hrun).
  assert (∀ key vals, values !! key = Some vals → ∃ s, vals = [s]) as Hone.
  { apply (Encode_loop_preserves
             (λ values, ∀ key vals, values !! key = Some vals → ∃ s, vals = [s]))
      with (values := ∅) (entries := entries); [|done|].
    - intros vs key s Hvs key' vals. unfold Values_Set.
      rewrite lookup_insert. case_decide; [|apply Hvs].
      intros [= <-]. eauto.
    - intros key vals. by rewrite lookup_empty. }
  split; [exact Hone|].
  intros r (l & Hperm & <-). unfold decodeURL.
  destruct (decodeURL_loop l ∅ 0) as [[[d u]|e]|p] eqn:Hl; [by eauto..|].
  apply decodeURL_loop_Panicked in Hl as [key Hin].
  unfold range_order in Hperm. rewrite Hperm in Hin.
  apply elem_of_map_to_list in Hin. by destruct (Hone _ _ Hin).
Qed.

(** *** Values without a scalar *)

Lemma leafless_or_nonempty x values fieldTag values' :
  encodeValue Sprintf_f values fieldTag x = Ok values' →
  if leafless x then values' = values else values' ≠ ∅.
Proof.
  assert (∀ x values fieldTag values',
    encodeValue Sprintf_f values fieldTag x = Ok values' →
    values ≠ ∅ → values' ≠ ∅) as Hkeep.
  { intros x0. apply encodeValue_preserves.
    intros vs key s _. unfold Values_Set. apply insert_non_empty. }
  revert values fieldTag values'.
  induction x as [elem IH|elem IH|s|i|f|b|elems IH|keyKind entries IH|fields IH|k]
    using rvalue_ind'; intros values fieldTag values'.
  - destruct elem as [e|]; simpl; [by apply IH|by intros [= <-]].
  - destruct elem as [e|]; simpl; [by apply IH|by intros [= <-]].
  - intros [= <-]. apply insert_non_empty.
  - intros [= <-]. apply insert_non_empty.
  - intros [= <-]. apply insert_non_empty.
  - intros [= <-]. apply insert_non_empty.
  - rewrite encodeValue_slice. cbn [leafless]. generalize 0 as j.
    revert values.
    induction IH as [|x l Hx _ IHl]; intros values j; simpl.
    { by intros [= <-]. }
    destruct (encodeValue Sprintf_f values _ x) as [values1|e] eqn:Hv; [|done].
    cbv beta iota delta [mbind result_bind]. intros Hl.
    apply Hx in Hv. destruct (leafless x); simpl.
    + subst values1. by apply IHl in Hl.
    + eapply (encodeSlice_from_preserves (λ vs, vs ≠ ∅)); [|exact Hl|exact Hv].
      apply Forall_forall. intros ? _. apply Hkeep.
  - destruct keyKind; try done.
    rewrite encodeValue_map. cbn [leafless]. revert values.
    induction IH as [|[k x] l Hx _ IHl]; intros values; simpl.
    { by intros [= <-]. }
    destruct (encodeValue Sprintf_f values _ x) as [values1|e] eqn:Hv; [|done].
    cbv beta iota delta [mbind result_bind]. intros Hl.
    apply Hx in Hv. simpl in Hv. destruct (leafless x); simpl.
    + subst values1. by apply IHl in Hl.
    + eapply (encodeMap_keys_preserves (λ vs, vs ≠ ∅)); [|exact Hl|exact Hv].
      apply Forall_forall. intros ? _. apply Hkeep.
  - rewrite encodeValue_struct. cbn [leafless]. revert values.
    induction IH as [|[ft x] l Hx _ IHl]; intros values; simpl.
    { by intros [= <-]. }
    destruct (acceptedField ft) eqn:Hft;
      [|by rewrite encodeStructField_refused].
    destruct (encodeStructField_accepted values fieldTag ft x Hft)
      as [fieldTag' ->].
    destruct (encodeValue Sprintf_f values _ x) as [values1|e] eqn:Hv; [|done].
    cbv beta iota delta [mbind result_bind]. intros Hl.
    apply Hx in Hv. simpl in Hv. destruct (leafless x); simpl.
    + subst values1. by apply IHl in Hl.
    + eapply (encodeStruct_preserves (λ vs, vs ≠ ∅)); [|exact Hl|exact Hv].
      apply Forall_forall. intros ? _. apply Hkeep.
  - done.
Qed.

Lemma leafless_encodable x : leafless x = true → encodable x = true.
Proof.
  induction x as [elem IH|elem IH|s|i|f|b|elems IH|keyKind entries IH|fields IH|k]
    using rvalue_ind'; try done.
  - destruct elem as [e|]; simpl; [by apply IH|done].
  - destruct elem as [e|]; simpl; [by apply IH|done].
  - cbn [leafless encodable].
    induction IH as [|x l Hx _ IHl]; simpl; [done|].
    intros [H1 H2]%andb_prop. by rewrite Hx, IHl.
  - destruct keyKind; try done. cbn [leafless encodable].
    induction IH as [|[k x] l Hx _ IHl]; simpl; [done|].
    intros [H1 H2]%andb_prop. simpl in Hx. by rewrite Hx, IHl.
  - cbn [leafless encodable].
    induction IH as [|[ft x] l Hx _ IHl]; simpl; [done|].
    intros [[H0 H1]%andb_prop H2]%andb_prop. simpl in Hx.
    by rewrite H0, Hx, IHl.
Qed.

Lemma encodeValue_leafless x values fieldTag :
  leafless x = true → encodeValue Sprintf_f values fieldTag x = Ok values.
Proof.
  intros Hx.
  destruct (proj2 (encodeValue_Ok_iff x values fieldTag)) as [values' Hv].
  { by apply leafless_encodable. }
  pose proof (leafless_or_nonempty _ _ _ _ Hv) as Hcase.
  rewrite Hx in Hcase. by subst.
Qed.

Lemma Encode_loop_skip values pre key x post :
  leafless x = true →
  Encode_loop Sprintf_f values (pre ++ (key, x) :: post)
  = Encode_loop Sprintf_f values (pre ++ post).
Proof.
  intros Hx. revert values.
  induction pre as [|[k v] pre IH]; intros values; simpl.
  - unfold encodeURL. by rewrite encodeValue_leafless.
  - destruct (encodeURL Sprintf_f values k v); simpl; [apply IH|done].
Qed.

(** X19.  A value is encoded to no pair at all exactly when no string,
    no integer or float and no boolean is reached in it: nil pointers,
    nil interfaces held by a container, empty slices, maps and structs,
    and whatever is built from them alone.  The entry of [data] that
    holds such a value leaves no trace in what [Encode] returns.  The
    values of [data] reach [Encode] through [reflect.ValueOf]: none of
    them is of kind [Interface], and the nil interface arrives as the
    invalid value, which is not encoded to nothing but makes [Encode]
    fail. *)
Theorem scalar_free_values_emit_nothing (x : rvalue) (fieldTag : string) :
  (encodeValue Sprintf_f ∅ fieldTag x = Ok ∅ ↔ leafless x = true)
  ∧ (leafless x = true →
     ∀ values, encodeValue Sprintf_f values fieldTag x = Ok values)
  ∧ (leafless x = true → dynamicValue x →
     ∀ data key r, data !! key = None →
       Encode Sprintf_f (<[key := x]> data) r ↔ Encode Sprintf_f data r)
  ∧ (x = ValueOf None →
     leafless x = false
     ∧ ∀ data key r, data !! key = None →
         Encode Sprintf_f (<[key := x]> data) r → ∃ e, r = Err e).
Proof.
  split; [split|split; [|split]].
  - intros Hv. apply leafless_or_nonempty in Hv.
    by destruct (leafless x).
  - intros Hx. by apply encodeValue_leafless.
  - intros Hx values. by apply encodeValue_leafless.
  - intros Hx _ data key r Hfresh. split.
    + intros (entries & Hperm & <-). unfold range_order in Hperm.
      rewrite map_to_list_insert in Hperm by done.
      assert ((key, x) ∈ entries) as (pre & post & ->)%list_elem_of_split.
      { rewrite Hperm. left. }
      exists (pre ++ post). split.
      * unfold range_order. symmetry.
        by apply Permutation_cons_app_inv with (key, x).
      * unfold Encode_entries. by rewrite Encode_loop_skip.
    + intros (entries & Hperm & <-). exists ((key, x) :: entries).
      split.
      * unfold range_order in *. rewrite map_to_list_insert by done.
        by constructor.
      * exact (Encode_loop_skip ∅ [] key x entries Hx).
  - intros ->. split; [done|]. intros data key r Hfresh.
    rewrite (Encode_insert Sprintf_f) by done.
    intros (pre & post & _ & <-). apply Encode_loop_unsupported.
Qed.

End EncodeProperties.

(** [TestEncode_NestedStruct]: [Person] with its two tagged fields. *)
Lemma struct_encodes_as_map_witness :
  Forall (λ ff : structField * @rvalue Empty_set,
            Anonymous ff.1 = false ∧ jsonTag ff.1 ≠ "-" ∧ jsonTag ff.1 ≠ "")
    [(StructField "Name" false "name", RString "John");
     (StructField "Age" false "age", RInt 30)]
  ∧ encodeValue noFloat ∅ "person"
      (RStruct [(StructField "Name" false "name", RString "John");
                (StructField "Age" false "age", RInt 30)])
    = encodeValue noFloat ∅ "person"
        (RMap String_ [("name", RString "John"); ("age", RInt 30)]).
Proof.
  assert (Forall (λ ff : structField * @rvalue Empty_set,
            Anonymous ff.1 = false ∧ jsonTag ff.1 ≠ "-" ∧ jsonTag ff.1 ≠ "")
    [(StructField "Name" false "name", RString "John");
     (StructField "Age" false "age", RInt 30)]) as H.
  { repeat constructor; discriminate. }
  split; [exact H|].
  exact (struct_encodes_as_map noFloat ∅ "person" _ H).
Defined.

(** [TestEncode_AnonymousField]: [WithEmbedded] and its embedded struct. *)
Lemma embedded_struct_inlined_witness :
  Anonymous (StructField "Embedded" true "") = true
  ∧ encodeValue noFloat ∅ "struct"
      (RStruct [(StructField "Embedded" true "",
                 RStruct [(StructField "Field" false "field",
                           RString "embedded")]);
                (StructField "Other" false "other", RString "other")])
    = encodeValue noFloat ∅ "struct"
        (RStruct [(StructField "Field" false "field", RString "embedded");
                  (StructField "Other" false "other", RString "other")]).
Proof.
  split; [reflexivity|].
  exact (proj1 (embedded_struct_inlined noFloat ∅ "struct"
                  (StructField "Embedded" true "") []
                  [(StructField "Field" false "field", RString "embedded")]
                  [(StructField "Other" false "other", RString "other")]
                  eq_refl)).
Defined.

(** [TestEncode_SimpleKey], decoded again. *)
Lemma Decode_of_Encode_never_panics_witness :
  Encode noFloat {[ "foo" := RString "bar" ]} (Ok {[ "foo" := ["bar"] ]})
  ∧ ∀ r, Decode {[ "foo" := ["bar"] ]} r → ∃ res, r = Done res.
Proof.
  assert (Encode noFloat {[ "foo" := RString "bar" ]}
            (Ok {[ "foo" := ["bar"] ]})) as H.
  { exists [("foo", RString "bar")].
    split; [by apply range_order_singleton|]. vm_compute. reflexivity. }
  split; [exact H|].
  exact (proj2 (Decode_of_Encode_never_panics noFloat _ _ H)).
Defined.

(** ** Maps of strings, there and back *)

Section PlainRoundTrip.

Context {float64 : Type} (Sprintf_f : float64 → string).

Lemma Encode_loop_strings values (pairs : list (string * string)) :
  Encode_loop Sprintf_f values (prod_map id RString <$> pairs)
  = Ok (setAll values pairs).
Proof.
  revert values. induction pairs as [|[k s] pairs IH]; intros values; [done|].
  rewrite fmap_cons. simpl. apply IH.
Qed.

Lemma setAll_NoDup (m : gmap string string) pairs :
  pairs ≡ₚ map_to_list m →
  setAll ∅ pairs = (λ s, [s]) <$> m.
Proof.
  intros Hperm. apply map_eq. intros key. rewrite lookup_fmap.
  destruct (m !! key) as [s|] eqn:Hkey; simpl.
  - apply setAll_lookup.
    + rewrite Hperm. by apply elem_of_map_to_list.
    + intros s'. rewrite Hperm. intros Hin%elem_of_map_to_list. congruence.
  - destruct (setAll ∅ pairs !! key) as [vals|] eqn:Hset; [|done].
    apply setAll_lookup_inv in Hset as (s & Hin & _).
    rewrite Hperm in Hin. apply elem_of_map_to_list in Hin. congruence.
Qed.

(** X20.  A map of strings none of whose keys has a '.' or both brackets
    (the empty key and keys with other punctuation included) survives
    the round trip exactly: [Encode] binds every key to the one-element
    list of its string, and [Decode] of that returns the map of the
    strings. *)
Theorem plain_string_map_roundtrip (m : gmap string string)
    (Hplain : ∀ key s, m !! key = Some s → plainKey key = true) :
  (∃ r, Encode Sprintf_f (RString <$> m) r)
  ∧ ∀ r, Encode Sprintf_f (RString <$> m) r →
      r = Ok ((λ s, [s]) <$> m)
      ∧ (∃ r', Decode ((λ s, [s]) <$> m) r')
      ∧ ∀ r', Decode ((λ s, [s]) <$> m) r' → r' = Done (Ok (VString <$> m)).
Proof.
  split.
  { eexists. eexists. split; [|done]. by unfold range_order. }
  intros r (entries & Hperm & <-). unfold range_order in Hperm.
  rewrite map_to_list_fmap in Hperm.
  apply Permutation_fmap_inv in Hperm as (pairs & -> & Hperm).
  split; [|split].
  - unfold Encode_entries. rewrite Encode_loop_strings. f_equal.
    by apply setAll_NoDup.
  - eexists. eexists. split; [|done]. by unfold range_order.
  - intros r' Hr'. apply Decode_plain_outcome in Hr' as (tree & -> & Htree).
    + do 2 f_equal. apply map_eq. intros key.
      rewrite Htree, !lookup_fmap. by destruct (m !! key).
    + intros key vals. rewrite lookup_fmap.
      destruct (m !! key) as [s|] eqn:Hkey; [|done]. intros [= <-].
      split; [by eapply Hplain|done].
Qed.

End PlainRoundTrip.

Lemma plain_string_map_roundtrip_witness :
  (∀ key s, ({[ "attacker<script>" := "xss"; "" := "empty" ]}
               : gmap string string) !! key = Some s → plainKey key = true)
  ∧ ∀ r, Encode noFloat
           (RString <$> {[ "attacker<script>" := "xss"; "" := "empty" ]}) r →
      r = Ok ((λ s, [s]) <$> {[ "attacker<script>" := "xss"; "" := "empty" ]}).
Proof.
  assert (∀ key s, ({[ "attacker<script>" := "xss"; "" := "empty" ]}
               : gmap string string) !! key = Some s → plainKey key = true)
    as Hplain.
  { intros key s Hkey.
    apply lookup_insert_Some in Hkey as [[<- <-]|[_ Hkey]]; [done|].
    apply lookup_singleton_Some in Hkey as [<- <-]. done. }
  split; [exact Hplain|]. intros r Hr.
  exact (proj1 (proj2 (plain_string_map_roundtrip noFloat _ Hplain) r Hr)).
Defined.

(** ** A malformed index in the final segment *)

Lemma setNestedMapValue_loop_malformed prefix final v depth :
  Forall (λ part, plainKey part = true) prefix →
  strings.Contains final "[" = true → strings.Contains final "]" = true →
  regexp.FindStringSubmatch final = None →
  ∃ depth',
    setNestedMapValue_loop ∅ (prefix ++ [final]) v depth
    = (depth', Err (InvalidSliceIndex final)).
Proof.
  intros Hall Hb1 Hb2 Hm. revert depth.
  induction Hall as [|part rest Hpart Hall IH]; intros depth.
  - simpl. unfold setFinalValue. rewrite Hb1, Hb2, Hm. simpl. eauto.
  - destruct (plainKey_inv _ Hpart) as (_ & _ & Hm').
    rewrite <- app_comm_cons.
    rewrite setNestedMapValue_loop_cons by by destruct rest.
    unfold getIntermediateValue, getMap.
    rewrite Hm', lookup_empty, lookup_insert_eq.
    cbv beta iota delta [mbind result_bind].
    destruct (IH (int_incr depth)) as [d ->]. eauto.
Qed.

(** X21.  A final segment that has a '[' and a ']' but in which the
    expression finds no match is refused with the invalid-slice-index
    error that quotes the segment, whatever plain segments come before it
    in the key. *)
Theorem malformed_final_index_rejected (prefix : list string)
    (final v : string) (vals : list string)
    (Hprefix : Forall (λ part, plainKey part = true) prefix)
    (Hdot : strings.Contains final "." = false)
    (Hopen : strings.Contains final "[" = true)
    (Hclose : strings.Contains final "]" = true)
    (Hmatch : regexp.FindStringSubmatch final = None)
    (Hdepth : Z.of_nat (length prefix) < maxRecursionDepth) :
  decodeURL [(joinDot (prefix ++ [final]), v :: vals)]
  = Done (Err (InvalidSliceIndex final)).
Proof.
  assert (strings.Split (joinDot (prefix ++ [final])) "." = prefix ++ [final])
    as Hsplit.
  { apply Split_joinDot; [by destruct prefix|].
    apply Forall_app. split; [|by apply Forall_singleton].
    eapply Forall_impl; [exact Hprefix|].
    by intros part (? & _)%plainKey_inv. }
  unfold decodeURL. simpl. unfold setNestedMapValue.
  destruct (decide (joinDot (prefix ++ [final]) = "")) as [He|_].
  { rewrite He in Hsplit. simpl in Hsplit.
    destruct prefix as [|p [|q prefix]]; simplify_eq/=. }
  rewrite Hsplit, length_app. simpl.
  destruct (Z.gtb_spec (Z.of_nat (length prefix + 1)) maxRecursionDepth); [lia|].
  by destruct (setNestedMapValue_loop_malformed prefix final (VString v) 0)
    as [d ->].
Qed.

(** [TestDecode_InvalidSliceIndex], below a nested key. *)
Lemma malformed_final_index_rejected_witness :
  Forall (λ part, plainKey part = true) ["data"]
  ∧ regexp.FindStringSubmatch "list[abc]" = None
  ∧ decodeURL [("data.list[abc]", ["value"])]
    = Done (Err (InvalidSliceIndex "list[abc]")).
Proof.
  assert (Forall (λ part, plainKey part = true) ["data"]) as H.
  { apply Forall_singleton. reflexivity. }
  split; [exact H|]. split; [reflexivity|].
  apply (malformed_final_index_rejected ["data"] "list[abc]" "value" [] H);
    (reflexivity || (vm_compute; reflexivity)).
Defined.

(** ** Keys and nesting in [Encode] *)

Section EncodeKeys.

Context {float64 : Type} (Sprintf_f : float64 → string).

#[local] Abbreviation rvalue := (@rvalue float64).

Lemma dotted_key_longer (k j : string) : k +:+ "." +:+ j ≠ k.
Proof. induction k as [|c k IH]; [done|]. simpl. by intros [= ?]. Qed.

(** X22.  [Encode] does not tell a key with a '.' from nesting.  For a
    key [k] that is not empty, a string under the key [k.j] of [data] and
    a string under [j] in a [map[string]any] under [k] are both encoded
    as the one pair [k.j]; when [data] holds both, only one of the two
    strings is returned, the one the [range] over [data] yields last.
    What holds for the string holds for every value that an interface
    can hold; for nil it does not: under [k.j] of [data] it makes
    [Encode] fail, under [j] in the map it is encoded to nothing.  Under
    the empty key the map disappears from the path: a string under [j]
    in a map under [""] is encoded as the pair [j]. *)
Theorem dotted_key_encodes_as_nesting (k j : string) (Hk : k ≠ "") :
  (∀ s r, Encode Sprintf_f {[ k +:+ "." +:+ j := RString s ]} r
          ↔ r = Ok {[ k +:+ "." +:+ j := [s] ]})
  ∧ (∀ s r,
       Encode Sprintf_f
         {[ k := RMap String_ [(j, RInterface (Some (RString s)))] ]} r
       ↔ r = Ok {[ k +:+ "." +:+ j := [s] ]})
  ∧ (∀ s s' r,
       Encode Sprintf_f
         {[ k +:+ "." +:+ j := RString s;
            k := RMap String_ [(j, RInterface (Some (RString s')))] ]} r
       ↔ r = Ok {[ k +:+ "." +:+ j := [s] ]}
         ∨ r = Ok {[ k +:+ "." +:+ j := [s'] ]})
  ∧ (∀ (x : rvalue) r, dynamicValue x →
       Encode Sprintf_f {[ k +:+ "." +:+ j := x ]} r
       ↔ Encode Sprintf_f {[ k := RMap String_ [(j, RInterface (Some x))] ]} r)
  ∧ (∀ r, (Encode Sprintf_f {[ k +:+ "." +:+ j := ValueOf None ]} r
           ↔ r = Err (UnsupportedKind (OtherKind "invalid")))
          ∧ (Encode Sprintf_f {[ k := RMap String_ [(j, RInterface None)] ]} r
             ↔ r = Ok ∅))
  ∧ (∀ s r,
       Encode Sprintf_f
         {[ "" := RMap String_ [(j, RInterface (Some (RString s)))] ]} r
       ↔ r = Ok {[ j := [s] ]}).
Proof.
  split; [|split; [|split; [|split; [|split]]]].
  - intros s r. by rewrite Encode_singleton.
  - intros s r. rewrite Encode_singleton.
    cbn [encodeValue encodeMap encodeMap_keys].
    by destruct (decide (k = "")).
  - intros s s' r. unfold Encode. split.
    + intros (entries & Hl & <-).
      apply range_order_pair in Hl; [|apply dotted_key_longer].
      destruct Hl as [-> | ->].
      * right. unfold Encode_entries. cbn [Encode_loop]. unfold encodeURL.
        cbn [encodeValue encodeMap encodeMap_keys encodePointer encodeString
             mbind result_bind].
        destruct (decide (k = "")) as [?|_]; [done|].
        unfold Values_Set. by rewrite insert_insert_eq, insert_empty.
      * left. unfold Encode_entries. cbn [Encode_loop]. unfold encodeURL.
        cbn [encodeValue encodeMap encodeMap_keys encodePointer encodeString
             mbind result_bind].
        destruct (decide (k = "")) as [?|_]; [done|].
        unfold Values_Set. by rewrite insert_insert_eq, insert_empty.
    + intros [-> | ->].
      * eexists. split; [apply range_order_pair;
                         [apply dotted_key_longer|by right]|].
        unfold Encode_entries. cbn [Encode_loop]. unfold encodeURL.
        cbn [encodeValue encodeMap encodeMap_keys encodePointer encodeString
             mbind result_bind].
        destruct (decide (k = "")) as [?|_]; [done|].
        unfold Values_Set. by rewrite insert_insert_eq, insert_empty.
      * eexists. split; [apply range_order_pair;
                         [apply dotted_key_longer|by left]|].
        unfold Encode_entries. cbn [Encode_loop]. unfold encodeURL.
        cbn [encodeValue encodeMap encodeMap_keys encodePointer encodeString
             mbind result_bind].
        destruct (decide (k = "")) as [?|_]; [done|].
        unfold Values_Set. by rewrite insert_insert_eq, insert_empty.
  - intros x r _. rewrite !Encode_singleton.
    cbn [encodeValue encodeMap encodeMap_keys encodePointer].
    destruct (decide (k = "")) as [?|_]; [done|].
    by destruct (encodeValue Sprintf_f ∅ (k +:+ "." +:+ j) x).
  - intros r. by rewrite !Encode_singleton.
  - intros s r. rewrite Encode_singleton.
    cbn [encodeValue encodeMap encodeMap_keys].
    by destruct (decide ("" = "")).
Qed.

End EncodeKeys.

Lemma dotted_key_encodes_as_nesting_witness :
  "a" ≠ ""
  ∧ ∀ r, Encode noFloat
           {[ "a.b" := RString "x";
              "a" := RMap String_ [("b", RInterface (Some (RString "y")))] ]} r
         ↔ r = Ok {[ "a.b" := ["x"] ]} ∨ r = Ok {[ "a.b" := ["y"] ]}.
Proof.
  assert ("a" ≠ "") as H by discriminate.
  split; [exact H|].
  pose proof (dotted_key_encodes_as_nesting noFloat "a" "b" H)
    as (_ & _ & H3 & _).
  exact (H3 "x" "y").
Defined.

(** ** The pairs [Encode] emits *)

Section EncodePairs.

Context {float64 : Type} (Sprintf_f : float64 → string).

(** X23.  For [data] built from [map[string]any], [[]any], strings,
    booleans, integers of kind [int], [int32] or [int64] and floats of
    kind [float32] or [float64], nested in any way, [Encode] succeeds and
    sets one pair per string, integer, float and boolean, in the order of
    the visit.  The key of the pair is the path of the visit: an entry
    [k] of a map reached under the path [p] has the path [p.k], or [k]
    alone when [p] is empty, and the element at position [j] of a slice
    reached under [p] has the path [p[j]].  The value is the string
    itself, the [%d] text of the integer, the [%f] text of the float, or
    [true]/[false].  A pair set under a key replaces the one set there
    before. *)
Theorem Encode_one_pair_per_scalar (data : list (string * @svalue float64))
    (Hkeys : NoDup data.*1) :
  (∃ r, Encode Sprintf_f (list_to_map (reflectData data)) r)
  ∧ ∀ r, Encode Sprintf_f (list_to_map (reflectData data)) r →
      ∃ data', data' ≡ₚ data
               ∧ r = Ok (setAll ∅ (flattenData Sprintf_f data')).
Proof.
  split.
  { eexists. eexists. split; [|done]. by unfold range_order. }
  intros r (entries & Hperm & <-). unfold range_order in Hperm.
  assert ((reflectData data).*1 = data.*1) as Hfst.
  { unfold reflectData. rewrite <- list_fmap_compose.
    apply list_fmap_ext. by intros i [k e] _. }
  rewrite map_to_list_to_map in Hperm by by rewrite Hfst.
  apply Permutation_fmap_inv in Hperm as (data' & -> & Hdata').
  exists data'. split; [done|]. apply Encode_entries_flatten.
Qed.

End EncodePairs.

(** [TestEncode_Slice], with the strings held in a [[]any]. *)
Lemma Encode_one_pair_per_scalar_witness :
  NoDup [("list", SSequence [@SScalar Empty_set (SString "a");
                             SScalar (SString "b");
                             SScalar (SString "c")])].*1
  ∧ ∀ r, Encode noFloat
           {[ "list" := RSlice [RInterface (Some (RString "a"));
                                RInterface (Some (RString "b"));
                                RInterface (Some (RString "c"))] ]} r →
      r = Ok {[ "list[0]" := ["a"]; "list[1]" := ["b"]; "list[2]" := ["c"] ]}.
Proof.
  assert (NoDup [("list", SSequence [@SScalar Empty_set (SString "a");
                                     SScalar (SString "b");
                                     SScalar (SString "c")])].*1) as H.
  { apply NoDup_singleton. }
  split; [exact H|]. intros r Hr.
  destruct (proj2 (Encode_one_pair_per_scalar noFloat _ H) r)
    as (data' & Hperm & ->).
  { exact Hr. }
  apply Permutation_singleton_r in Hperm as ->.
  vm_compute. reflexivity.
Defined.
